(** * commandkit: the value-resolution engine

    A shallow embedding of the configuration resolver of commandkit
    (config.go, files.go, types.go, validation.go, definition.go, secret.go,
    get.go, overrides.go) together with the parts of the Go standard library
    the resolver calls (strings, unicode/utf8, strconv, fmt, time, flag).

    Go strings are byte strings: they are modelled by [string], one [ascii]
    per byte.  An [error] is its message, [None] being Go's [nil].  The
    dynamic type [any] is [option Value], [None] being the nil interface. *)

From Stdlib Require Import ZArith NArith String Ascii List SpecFloat Lia.
From stdpp Require Import base option gmap strings list sorting.

#[local] Set Warnings "-register-all".
#[local] Open Scope string_scope.
#[local] Open Scope list_scope.

(** Go's [error]: [None] is [nil], [Some msg] an error whose [Error()] is [msg]. *)
Abbreviation error := (option string).

(** ** Bytes *)

Definition byte_between (lo hi : N) (c : ascii) : bool :=
  ((lo <=? N_of_ascii c) && (N_of_ascii c <=? hi))%N.

Definition byte_is (n : N) (c : ascii) : bool := (N_of_ascii c =? n)%N.

Definition is_digit (c : ascii) : bool := byte_between 48 57 c.

Definition digit_val (c : ascii) : Z := Z.of_N (N_of_ascii c) - 48.

Definition bytes (l : list N) : string :=
  string_of_list_ascii (map ascii_of_N l).

(** [lower(c)] of strconv: [c | ('x' - 'X')]. *)
Definition lower_bits (c : ascii) : N := N.lor (N_of_ascii c) 32.

(** ** unicode/utf8 *)
Module Utf8.

Definition cont (c : ascii) : bool := byte_between 128 191 c.

(** The second-byte range [utf8.acceptRanges] gives the leading byte [x]
    of a three- or four-byte sequence. *)
Definition second_ok (x : N) (c : ascii) : bool :=
  if (x =? 224)%N then byte_between 160 191 c
  else if (x =? 237)%N then byte_between 128 159 c
  else if (x =? 240)%N then byte_between 144 191 c
  else if (x =? 244)%N then byte_between 128 143 c
  else cont c.

(** The width [utf8.DecodeRuneInString] reports for the first rune of [s]:
    the length of a well-formed sequence, [1] for an invalid byte, [0] for
    the empty string. *)
Definition rune_width (s : string) : nat :=
  match s with
  | EmptyString => 0
  | String b0 rest =>
      let x := N_of_ascii b0 in
      if (x <? 128)%N then 1
      else if ((194 <=? x) && (x <=? 223))%N then
        match rest with
        | String b1 _ => if cont b1 then 2 else 1
        | _ => 1
        end
      else if ((224 <=? x) && (x <=? 239))%N then
        match rest with
        | String b1 (String b2 _) => if second_ok x b1 && cont b2 then 3 else 1
        | _ => 1
        end
      else if ((240 <=? x) && (x <=? 244))%N then
        match rest with
        | String b1 (String b2 (String b3 _)) =>
            if second_ok x b1 && cont b2 && cont b3 then 4 else 1
        | _ => 1
        end
      else 1
  end.

End Utf8.

(** ** strings *)
Module Strings.

Fixpoint drop (n : nat) (s : string) : string :=
  match n, s with
  | O, _ => s
  | S k, String _ s' => drop k s'
  | S _, EmptyString => EmptyString
  end.

Definition HasPrefix (s pre : string) : bool := String.prefix pre s.

Definition HasSuffix (s suf : string) : bool :=
  (String.length suf <=? String.length s)%nat
  && String.eqb (drop (String.length s - String.length suf) s) suf.

Definition TrimSuffix (s suf : string) : string :=
  if HasSuffix s suf
  then String.substring 0 (String.length s - String.length suf) s
  else s.

Fixpoint Contains (s sub : string) : bool :=
  String.prefix sub s
  || match s with
     | EmptyString => false
     | String _ s' => Contains s' sub
     end.

Definition Join (l : list string) (sep : string) : string := String.concat sep l.

Definition Repeat (c : ascii) (n : nat) : string :=
  string_of_list_ascii (repeat c n).

Definition rev_string (l : list ascii) : string := string_of_list_ascii (rev l).

(** [explode]: the UTF-8 sequences of [s], one string each; an invalid
    byte is a piece of its own.  [take] is the number of bytes of the
    current rune still to collect, [0] at the start of a rune. *)
Fixpoint explode (take : nat) (cur : list ascii) (s : string) : list string :=
  match s with
  | EmptyString => []
  | String c s' =>
      match (match take with O => Utf8.rune_width s | _ => take end) with
      | S (S k) => explode (S k) (c :: cur) s'
      | _ => rev_string (c :: cur) :: explode 0 [] s'
      end
  end.

(** The pieces of [s] between the leftmost non-overlapping occurrences of
    a non-empty [sep].  [skip] counts the bytes of a matched separator
    still to drop; [cur] holds the current piece, reversed. *)
Fixpoint split_sep (sep : string) (skip : nat) (cur : list ascii) (s : string)
  : list string :=
  match s with
  | EmptyString => [rev_string cur]
  | String c s' =>
      match skip with
      | S k => split_sep sep k cur s'
      | O =>
          if String.prefix sep s
          then rev_string cur :: split_sep sep (String.length sep - 1) [] s'
          else split_sep sep 0 (c :: cur) s'
      end
  end.

(** [strings.Split(s, sep)]. *)
Definition Split (s sep : string) : list string :=
  match sep with
  | EmptyString => explode 0 [] s
  | _ => split_sep sep 0 [] s
  end.

(** The UTF-8 encodings of the runes [unicode.IsSpace] accepts. *)
Definition space_runes : list (list ascii) :=
  map (map ascii_of_N)
    ([ [9]; [10]; [11]; [12]; [13]; [32]; [194; 133]; [194; 160];
       [225; 154; 128] ]
     ++ map (fun k => [226; 128; k]) [128; 129; 130; 131; 132; 133; 134; 135; 136; 137; 138]
     ++ [ [226; 128; 168]; [226; 128; 169]; [226; 128; 175];
          [226; 129; 159]; [227; 128; 128] ])%N.

Fixpoint is_prefix (p l : list ascii) : bool :=
  match p, l with
  | [], _ => true
  | a :: p', b :: l' => Ascii.eqb a b && is_prefix p' l'
  | _ :: _, [] => false
  end.

(** Drop leading occurrences of the sequences [encs]. *)
Fixpoint strip (fuel : nat) (encs : list (list ascii)) (l : list ascii) : list ascii :=
  match fuel with
  | O => l
  | S f =>
      match List.find (fun e => is_prefix e l) encs with
      | Some e => strip f encs (List.skipn (List.length e) l)
      | None => l
      end
  end.

(** [strings.TrimSpace]: leading space runes are removed, then trailing
    ones (a sequence is a trailing rune exactly when it is a suffix). *)
Definition TrimSpace (s : string) : string :=
  let l := strip (String.length s) space_runes (list_ascii_of_string s) in
  rev_string (strip (List.length l) (map (@rev ascii) space_runes) (rev l)).

Definition isASCII (s : string) : bool :=
  forallb (fun c => (N_of_ascii c <? 128)%N) (list_ascii_of_string s).

Definition lower_byte (c : ascii) : ascii :=
  if byte_between 65 90 c then ascii_of_N (N_of_ascii c + 32) else c.

(** [strings.ToLower].  On ASCII-only strings Go lowers the bytes A-Z; on
    other strings it maps [unicode.ToLower] over the runes, which is the
    parameter [unicode_lower]. *)
Definition ToLower (unicode_lower : string -> string) (s : string) : string :=
  if isASCII s
  then string_of_list_ascii (map lower_byte (list_ascii_of_string s))
  else unicode_lower s.

End Strings.

(** ** float64

    IEEE 754 binary64 values with round-to-nearest-even arithmetic, as the
    standard library specifies them ([spec_float] at precision 53). *)
Abbreviation float64 := spec_float.

Module F64.

Definition prec : Z := 53.
Definition emax : Z := 1024.

Definition mul (x y : float64) : float64 := SFmul prec emax x y.
Definition div (x y : float64) : float64 := SFdiv prec emax x y.

(** The float64 nearest to the integer [n] (Go's conversion [float64(n)]). *)
Definition of_Z (n : Z) : float64 := binary_normalize prec emax n 0 false.

(** The float64 nearest to [m * 2^e], signed. *)
Definition of_pow2 (neg : bool) (m : positive) (e : Z) : float64 :=
  binary_round prec emax neg m e.

(** The float64 nearest to the rational [n / d], signed. *)
Definition of_ratio (neg : bool) (n d : positive) : float64 :=
  let '(q, e, l) := SFdiv_core_binary prec emax (Zpos n) 0 (Zpos d) 0 in
  binary_round_aux prec emax neg q e l.

(** [m * 10^k] rounded to float64. *)
Definition of_pow10 (neg : bool) (m : positive) (k : Z) : float64 :=
  match k with
  | Zneg p => of_ratio neg m (10 ^ p)%positive
  | _ => binary_round prec emax neg (m * Z.to_pos (10 ^ k))%positive 0
  end.

(** The integer nearest to a finite [m * 2^e], ties to even. *)
Definition round_half_even (m : positive) (e : Z) : Z :=
  match e with
  | Zneg p =>
      let d := Z.pow 2 (Zpos p) in
      let q := (Zpos m / d)%Z in
      let r := (Zpos m mod d)%Z in
      match (2 * r ?= d)%Z with
      | Lt => q
      | Gt => (q + 1)%Z
      | Eq => if Z.even q then q else (q + 1)%Z
      end
  | _ => (Zpos m * Z.pow 2 e)%Z
  end.

(** The integer part of a finite [m * 2^e] (truncation towards zero). *)
Definition trunc (m : positive) (e : Z) : Z :=
  match e with
  | Zneg p => (Zpos m / Z.pow 2 (Zpos p))%Z
  | _ => (Zpos m * Z.pow 2 e)%Z
  end.

End F64.

(** ** strconv *)
Module Strconv.

Fixpoint digits_of (fuel : nat) (n : Z) (acc : string) : string :=
  match fuel with
  | O => acc
  | S f =>
      let acc' := String (ascii_of_N (48 + Z.to_N (n mod 10))) acc in
      if (n <? 10)%Z then acc' else digits_of f (n / 10)%Z acc'
  end.

(** [strconv.FormatUint(n, 10)] for [0 <= n]. *)
Definition FormatUint (n : Z) : string :=
  digits_of (S (Z.to_nat (Z.log2 n))) n "".

(** [strconv.FormatInt(n, 10)]; also [%d] and [%v] of an integer. *)
Definition Itoa (n : Z) : string :=
  if (n <? 0)%Z then "-" +:+ FormatUint (- n) else FormatUint n.

Fixpoint digits_value (acc : Z) (s : string) : option Z :=
  match s with
  | EmptyString => Some acc
  | String c s' =>
      if is_digit c then digits_value (acc * 10 + digit_val c)%Z s' else None
  end.

(** [strconv.ParseInt(s, 10, 64)]: [None] when it returns an error
    (syntax or range). *)
Definition ParseInt (s : string) : option Z :=
  match s with
  | EmptyString => None
  | String c rest =>
      let '(neg, body) :=
        if byte_is 43 c then (false, rest)
        else if byte_is 45 c then (true, rest)
        else (false, s) in
      match body with
      | EmptyString => None
      | _ =>
          match digits_value 0 body with
          | None => None
          | Some un =>
              if negb neg && (2 ^ 63 <=? un)%Z then None
              else if neg && (2 ^ 63 <? un)%Z then None
              else Some (if neg then - un else un)%Z
          end
      end
  end.

(** [strconv.ParseBool]. *)
Definition ParseBool (s : string) : option bool :=
  if existsb (String.eqb s) ["1"; "t"; "T"; "true"; "TRUE"; "True"] then Some true
  else if existsb (String.eqb s) ["0"; "f"; "F"; "false"; "FALSE"; "False"] then Some false
  else None.

(** *** ParseFloat *)

(** The state of [readFloat]'s mantissa loop.  [mant] keeps every
    significant digit: the result is the correctly rounded value of the
    literal, which is what ParseFloat computes. *)
Record scan := Scan {
  sawdot : bool; sawdigits : bool; nd : Z; dp : Z; mant : Z; underscores : bool }.

Definition is_hex_letter (c : ascii) : bool :=
  ((97 <=? lower_bits c) && (lower_bits c <=? 102))%N.

Fixpoint read_mantissa (hex : bool) (st : scan) (s : string) : scan * string :=
  match s with
  | EmptyString => (st, s)
  | String c s' =>
      let '(Scan sdot sdig n d m us) := st in
      if byte_is 95 c then read_mantissa hex (Scan sdot sdig n d m true) s'
      else if byte_is 46 c then
        if sdot then (st, s) else read_mantissa hex (Scan true sdig n n m us) s'
      else if is_digit c then
        if byte_is 48 c && (n =? 0)%Z
        then read_mantissa hex (Scan sdot true n (d - 1)%Z m us) s'
        else read_mantissa hex
               (Scan sdot true (n + 1)%Z d
                     (m * (if hex then 16 else 10) + digit_val c)%Z us) s'
      else if hex && is_hex_letter c then
        read_mantissa hex
          (Scan sdot true (n + 1)%Z d
                (m * 16 + (Z.of_N (lower_bits c) - 97 + 10))%Z us) s'
      else (st, s)
  end.

Fixpoint read_exp_digits (e : Z) (us : bool) (s : string) : Z * bool * string :=
  match s with
  | EmptyString => (e, us, s)
  | String c s' =>
      if byte_is 95 c then read_exp_digits e true s'
      else if is_digit c
      then read_exp_digits (if (e <? 10000)%Z then e * 10 + digit_val c else e)%Z us s'
      else (e, us, s)
  end.

Inductive saw := SawStart | SawDigit | SawUnderscore | SawOther.

Fixpoint underscore_scan (hex : bool) (st : saw) (s : string) : bool :=
  match s with
  | EmptyString => match st with SawUnderscore => false | _ => true end
  | String c s' =>
      if is_digit c || (hex && is_hex_letter c) then underscore_scan hex SawDigit s'
      else if byte_is 95 c then
        match st with
        | SawDigit => underscore_scan hex SawUnderscore s'
        | _ => false
        end
      else
        match st with
        | SawUnderscore => false
        | _ => underscore_scan hex SawOther s'
        end
  end.

(** [underscoreOK]: underscores only between digits, or between a base
    prefix and a digit. *)
Definition underscoreOK (s : string) : bool :=
  let s1 := match s with
            | String c r => if byte_is 45 c || byte_is 43 c then r else s
            | EmptyString => s
            end in
  match s1 with
  | String c0 (String c1 r) =>
      if byte_is 48 c0
         && ((lower_bits c1 =? 98) || (lower_bits c1 =? 111) || (lower_bits c1 =? 120))%N
      then underscore_scan (lower_bits c1 =? 120)%N SawDigit r
      else underscore_scan false SawStart s1
  | _ => underscore_scan false SawStart s1
  end.

Definition lower_ascii (s : string) : string :=
  string_of_list_ascii (map Strings.lower_byte (list_ascii_of_string s)).

Definition is_inf_word (s : string) : bool :=
  String.eqb (lower_ascii s) "inf" || String.eqb (lower_ascii s) "infinity".

(** [special]: the literals for infinities and NaN, case-insensitive. *)
Definition special (s : string) : option float64 :=
  match s with
  | EmptyString => None
  | String c r =>
      if byte_is 43 c || byte_is 45 c then
        if is_inf_word r then Some (S754_infinity (byte_is 45 c)) else None
      else if (lower_bits c =? 105)%N then
        if is_inf_word s then Some (S754_infinity false) else None
      else if (lower_bits c =? 110)%N then
        if String.eqb (lower_ascii s) "nan" then Some S754_nan else None
      else None
  end.

(** The value of a scanned literal: [mant * 10^(dp - nd)], or
    [mant * 2^(dp - 4 nd)] for a hexadecimal mantissa, where [dp] already
    includes the exponent.  [None] is ErrRange (overflow). *)
Definition float_value (hex neg : bool) (st : scan) (dp' : Z) : option float64 :=
  match mant st with
  | Zpos m =>
      let f := if hex
               then F64.of_pow2 neg m (dp' - 4 * nd st)
               else F64.of_pow10 neg m (dp' - nd st) in
      match f with
      | S754_infinity _ => None
      | _ => Some f
      end
  | _ => Some (S754_zero neg)
  end.

(** [strconv.ParseFloat(s, 64)]: [None] when it returns an error. *)
Definition ParseFloat (s : string) : option float64 :=
  match special s with
  | Some f => Some f
  | None =>
      match s with
      | EmptyString => None
      | String c r =>
          let '(neg, s1) :=
            if byte_is 43 c then (false, r)
            else if byte_is 45 c then (true, r)
            else (false, s) in
          let '(hex, s2) :=
            match s1 with
            | String c0 (String c1 (String c2 r')) =>
                if byte_is 48 c0 && (lower_bits c1 =? 120)%N
                then (true, String c2 r') else (false, s1)
            | _ => (false, s1)
            end in
          let '(st, s3) := read_mantissa hex (Scan false false 0 0 0 false) s2 in
          if negb (sawdigits st) then None else
          let dp0 := if sawdot st then dp st else nd st in
          let dp1 := (if hex then dp0 * 4 else dp0)%Z in
          let finish (us : bool) (dp' : Z) :=
            if us && negb (underscoreOK s) then None
            else float_value hex neg st dp' in
          match s3 with
          | EmptyString => if hex then None else finish (underscores st) dp1
          | String ec r3 =>
              if (lower_bits ec =? (if hex then 112 else 101))%N then
                let '(esign, s4) :=
                  match r3 with
                  | String c' r4 =>
                      if byte_is 43 c' then (1%Z, r4)
                      else if byte_is 45 c' then ((-1)%Z, r4)
                      else (1%Z, r3)
                  | EmptyString => (1%Z, r3)
                  end in
                match s4 with
                | String d _ =>
                    if is_digit d then
                      let '(e, us, s5) := read_exp_digits 0 (underscores st) s4 in
                      match s5 with
                      | EmptyString => finish us (dp1 + e * esign)%Z
                      | _ => None
                      end
                    else None
                | EmptyString => None
                end
              else None
          end
      end
  end.

End Strconv.

(** ** time *)
Module Time.

Definition Nanosecond : Z := 1.
Definition Microsecond : Z := 1000 * Nanosecond.
Definition Millisecond : Z := 1000 * Microsecond.
Definition Second : Z := 1000 * Millisecond.
Definition Minute : Z := 60 * Second.
Definition Hour : Z := 60 * Minute.

(** [time.unitMap]; the micro sign and the Greek mu are both accepted. *)
Definition unitMap (u : string) : option Z :=
  if String.eqb u "ns" then Some Nanosecond
  else if String.eqb u "us" then Some Microsecond
  else if String.eqb u (bytes [194; 181; 115]%N) then Some Microsecond
  else if String.eqb u (bytes [206; 188; 115]%N) then Some Microsecond
  else if String.eqb u "ms" then Some Millisecond
  else if String.eqb u "s" then Some Second
  else if String.eqb u "m" then Some Minute
  else if String.eqb u "h" then Some Hour
  else None.

(** [leadingInt]: [None] is [errLeadingInt] (overflow). *)
Fixpoint leadingInt (x : Z) (s : string) : option (Z * string) :=
  match s with
  | EmptyString => Some (x, s)
  | String c s' =>
      if is_digit c then
        if (2 ^ 63 / 10 <? x)%Z then None
        else
          let x' := (x * 10 + digit_val c)%Z in
          if (2 ^ 63 <? x')%Z then None else leadingInt x' s'
      else Some (x, s)
  end.

(** [leadingFraction]: digits after an overflow are consumed and ignored. *)
Fixpoint leadingFraction (x : Z) (scale : float64) (overflow : bool) (s : string)
  : Z * float64 * string :=
  match s with
  | EmptyString => (x, scale, s)
  | String c s' =>
      if is_digit c then
        if overflow then leadingFraction x scale true s'
        else if ((2 ^ 63 - 1) / 10 <? x)%Z then leadingFraction x scale true s'
        else
          let y := (x * 10 + digit_val c)%Z in
          if (2 ^ 63 <? y)%Z then leadingFraction x scale true s'
          else leadingFraction y (F64.mul scale (F64.of_Z 10)) false s'
      else (x, scale, s)
  end.

Fixpoint read_unit (acc : list ascii) (s : string) : string * string :=
  match s with
  | EmptyString => (Strings.rev_string acc, s)
  | String c s' =>
      if byte_is 46 c || is_digit c then (Strings.rev_string acc, s)
      else read_unit (c :: acc) s'
  end.

(** [uint64(x)] for a float64 [x] with [0 <= x < 2^64]. *)
Definition uint64_of_float (x : float64) : Z :=
  match x with
  | S754_finite false m e => F64.trunc m e
  | _ => 0%Z
  end.

(** The loop of [time.ParseDuration] over the terms of [s]; [d] is the
    uint64 accumulator.  [None] is an error.  Every turn consumes at least
    one byte, so the length of the input is enough fuel. *)
Fixpoint parse_terms (fuel : nat) (d : Z) (s : string) : option Z :=
  match s with
  | EmptyString => Some d
  | String c0 _ =>
      match fuel with
      | O => None
      | S fuel' =>
          if negb (byte_is 46 c0 || is_digit c0) then None else
          match leadingInt 0 s with
          | None => None
          | Some (v, s1) =>
              let pre := negb (String.length s =? String.length s1)%nat in
              let '(f, scale, s2, post) :=
                match s1 with
                | String c r =>
                    if byte_is 46 c then
                      let '(f, scale, s2) := leadingFraction 0 (F64.of_Z 1) false r in
                      (f, scale, s2, negb (String.length r =? String.length s2)%nat)
                    else (0%Z, F64.of_Z 1, s1, false)
                | EmptyString => (0%Z, F64.of_Z 1, s1, false)
                end in
              if negb pre && negb post then None else
              let '(u, s3) := read_unit [] s2 in
              if String.eqb u "" then None else
              match unitMap u with
              | None => None
              | Some unit =>
                  if (2 ^ 63 / unit <? v)%Z then None else
                  let v1 := (v * unit)%Z in
                  let v2 :=
                    if (0 <? f)%Z
                    then (v1 + uint64_of_float
                                 (F64.mul (F64.of_Z f) (F64.div (F64.of_Z unit) scale)))%Z
                    else v1 in
                  if (0 <? f)%Z && (2 ^ 63 <? v2)%Z then None else
                  let d' := ((d + v2) mod 2 ^ 64)%Z in
                  if (2 ^ 63 <? d')%Z then None else parse_terms fuel' d' s3
              end
          end
      end
  end.

(** [time.ParseDuration]: the duration in nanoseconds, [None] on error. *)
Definition ParseDuration (s : string) : option Z :=
  let '(neg, s1) :=
    match s with
    | String c r =>
        if byte_is 45 c then (true, r)
        else if byte_is 43 c then (false, r)
        else (false, s)
    | EmptyString => (false, s)
    end in
  if String.eqb s1 "0" then Some 0%Z
  else if String.eqb s1 "" then None
  else
    match parse_terms (String.length s1) 0 s1 with
    | None => None
    | Some d =>
        if neg then Some (- d)%Z
        else if (2 ^ 63 - 1 <? d)%Z then None
        else Some d
    end.

(** [fmtFrac]: the fraction digits of [v / 10^prec] without trailing
    zeros (and without the point when there are none), and [v / 10^prec]. *)
Fixpoint fmtFrac (prec : nat) (v : Z) (print : bool) (acc : string) : string * Z :=
  match prec with
  | O => ((if print then "." +:+ acc else acc), v)
  | S p =>
      let digit := (v mod 10)%Z in
      let print' := print || negb (digit =? 0)%Z in
      fmtFrac p (v / 10)%Z print'
              (if print' then String (ascii_of_N (48 + Z.to_N digit)) acc else acc)
  end.

(** [Duration.String]. *)
Definition String_ (d : Z) : string :=
  let u := Z.abs d in
  let body :=
    if (u <? Second)%Z then
      if (u =? 0)%Z then "0s"
      else
        let '(prec, suffix) :=
          if (u <? Microsecond)%Z then (0%nat, "ns")
          else if (u <? Millisecond)%Z then (3%nat, bytes [194; 181; 115]%N)
          else (6%nat, "ms") in
        let '(frac, u') := fmtFrac prec u false "" in
        Strconv.FormatUint u' +:+ frac +:+ suffix
    else
      let '(frac, u1) := fmtFrac 9 u false "" in
      let secs := Strconv.FormatUint (u1 mod 60) +:+ frac +:+ "s" in
      let u2 := (u1 / 60)%Z in
      if (0 <? u2)%Z then
        let mins := Strconv.FormatUint (u2 mod 60) +:+ "m" +:+ secs in
        let u3 := (u2 / 60)%Z in
        if (0 <? u3)%Z then Strconv.FormatUint u3 +:+ "h" +:+ mins else mins
      else secs in
  if (d <? 0)%Z then "-" +:+ body else body.

End Time.

(** ** flag *)
Module Flag.

(** A [flag.FlagSet] whose flags are all string flags: [formal] maps a
    flag name to the current content of its string variable. *)
Record FlagSet := mkFlagSet { name : string; formal : gmap string string }.

Inductive defined := Defined_ (fs : FlagSet) | Redefined (msg : string)
                   | BeginsWithDash | ContainsEquals.

(** [f.String(nm, "", usage)]: [FlagSet.Var] panics on a name that begins
    with [-], contains [=], or is already defined. *)
Definition String_ (f : FlagSet) (nm : string) : defined :=
  if Strings.HasPrefix nm "-" then BeginsWithDash
  else if Strings.Contains nm "=" then ContainsEquals
  else
    match formal f !! nm with
    | Some _ =>
        Redefined (if String.eqb (name f) "" then "flag redefined: " +:+ nm
                   else name f +:+ " flag redefined: " +:+ nm)
    | None => Defined_ (mkFlagSet (name f) (<[nm := ""]> (formal f)))
    end.

(** Split [name] at the first [=] that is not its first byte. *)
Fixpoint cut_equals (acc : list ascii) (s : string) : string * option string :=
  match s with
  | EmptyString => (Strings.rev_string acc, None)
  | String c s' =>
      if byte_is 61 c && negb (bool_decide (acc = []))
      then (Strings.rev_string acc, Some s')
      else cut_equals (c :: acc) s'
  end.

(** The syntax part of [parseOne]: the flag name and the value given with
    [=], or [None] when the argument ends the flags (not a flag, [--]) or
    is malformed. *)
Definition flag_syntax (s : string) : option (string * option string) :=
  match s with
  | String c0 (String c1 r) =>
      if negb (byte_is 45 c0) then None
      else
        let nm := if byte_is 45 c1 then r else String c1 r in
        match nm with
        | EmptyString => None
        | String n0 _ =>
            if byte_is 45 n0 || byte_is 61 n0 then None
            else Some (cut_equals [] nm)
        end
  | _ => None
  end.

(** [f.Parse(args)] under [ContinueOnError], its error dropped: flags are
    set from left to right until the first argument that is not a defined
    flag with a value. *)
Fixpoint parse (fm : gmap string string) (args : list string) : gmap string string :=
  match args with
  | [] => fm
  | s :: rest =>
      match flag_syntax s with
      | None => fm
      | Some (nm, oval) =>
          match fm !! nm with
          | None => fm
          | Some _ =>
              match oval, rest with
              | Some v, _ => parse (<[nm := v]> fm) rest
              | None, v :: rest' => parse (<[nm := v]> fm) rest'
              | None, [] => fm
              end
          end
      end
  end.

Definition Parse (f : FlagSet) (args : list string) : FlagSet :=
  mkFlagSet (name f) (parse (formal f) args).

End Flag.

(** ** fmt *)
Module Fmt.

(** [fmt.Sprintf("%.0f", f)]: the exact value rounded to an integer, ties
    to even. *)
Definition Sprintf_0f (f : float64) : string :=
  match f with
  | S754_nan => "NaN"
  | S754_infinity s => if s then "-Inf" else "+Inf"
  | S754_zero s => if s then "-0" else "0"
  | S754_finite s m e =>
      (if s then "-" else "") +:+ Strconv.FormatUint (F64.round_half_even m e)
  end.

Definition Sprint_bool (b : bool) : string := if b then "true" else "false".

(** [%v] of a slice: the elements between brackets, separated by spaces. *)
Definition Sprint_slice (l : list string) : string :=
  "[" +:+ String.concat " " l +:+ "]".

End Fmt.

(** * commandkit *)

(** Library functions that are used but not embedded: they are the
    parameters of the development, and every theorem holds for all of them.
    - [url_Parse raw] is [net/url.Parse]: [None] for an error, otherwise the
      [Scheme] and the [Host] of the parsed URL;
    - [FormatFloat f] is [fmt.Sprintf("%v", f)] for a float64 (the shortest
      decimal that reads back as [f]);
    - [unicode_lower s] is [strings.ToLower s] for a string with non-ASCII
      bytes. *)
Class External := {
  url_Parse : string -> option (string * string);
  FormatFloat : float64 -> string;
  unicode_lower : string -> string;
}.

(** ** types.go *)

Inductive ValueType :=
| TypeString | TypeInt64 | TypeFloat64 | TypeBool | TypeDuration | TypeURL
| TypeStringSlice | TypeInt64Slice
| TypeInvalid (n : Z)   (** any other value of the underlying [int] *).

Definition ValueType_String (t : ValueType) : string :=
  match t with
  | TypeString => "string"
  | TypeInt64 => "int64"
  | TypeFloat64 => "float64"
  | TypeBool => "bool"
  | TypeDuration => "duration"
  | TypeURL => "url"
  | TypeStringSlice => "[]string"
  | TypeInt64Slice => "[]int64"
  | TypeInvalid _ => "unknown"
  end.

(** The dynamic values the library stores in an [any]. *)
Inductive Value :=
| VString (s : string)
| VInt64 (n : Z)
| VInt (n : Z)
| VFloat64 (f : float64)
| VBool (b : bool)
| VDuration (d : Z)
| VStringSlice (l : list string)
| VInt64Slice (l : list Z)
| VOther (type_name repr : string)
    (** a value of any other type, with its [%T] and [%v] renderings *).

Abbreviation any := (option Value).

(** Secrets are handed out as pointers: an address on the heap of secrets. *)
Abbreviation addr := positive.

(** [%T] of a dynamic value. *)
Definition type_name_of (v : any) : string :=
  match v with
  | None => "<nil>"
  | Some (VString _) => "string"
  | Some (VInt64 _) => "int64"
  | Some (VInt _) => "int"
  | Some (VFloat64 _) => "float64"
  | Some (VBool _) => "bool"
  | Some (VDuration _) => "time.Duration"
  | Some (VStringSlice _) => "[]string"
  | Some (VInt64Slice _) => "[]int64"
  | Some (VOther ty _) => ty
  end.

(** ** validation.go *)

Record Validation := mkValidation { Name : string; Check : any -> error }.

Definition validateRequired : Validation :=
  mkValidation "required"
    (fun value =>
       match value with
       | None => Some "value is required"
       | Some (VString s) =>
           if String.eqb s "" then Some "value is required (empty string)" else None
       | _ => None
       end).

Definition string_len (s : string) : Z := Z.of_nat (String.length s).

Definition validateMinLength (min : Z) : Validation :=
  mkValidation ("minLength(" +:+ Strconv.Itoa min +:+ ")")
    (fun value =>
       match value with
       | Some (VString s) =>
           if (string_len s <? min)%Z
           then Some ("value length " +:+ Strconv.Itoa (string_len s)
                      +:+ " is less than minimum " +:+ Strconv.Itoa min)
           else None
       | _ => None
       end).

Definition validateMaxLength (max : Z) : Validation :=
  mkValidation ("maxLength(" +:+ Strconv.Itoa max +:+ ")")
    (fun value =>
       match value with
       | Some (VString s) =>
           if (max <? string_len s)%Z
           then Some ("value length " +:+ Strconv.Itoa (string_len s)
                      +:+ " is greater than maximum " +:+ Strconv.Itoa max)
           else None
       | _ => None
       end).

Definition validateOneOf (allowed : list string) : Validation :=
  mkValidation ("oneOf(" +:+ Fmt.Sprint_slice allowed +:+ ")")
    (fun value =>
       match value with
       | Some (VString s) =>
           if existsb (String.eqb s) allowed then None
           else Some ("value '" +:+ s +:+ "' is not one of: " +:+ Fmt.Sprint_slice allowed)
       | _ => None
       end).

Definition validateMinDuration (min : Z) : Validation :=
  mkValidation ("minDuration(" +:+ Time.String_ min +:+ ")")
    (fun value =>
       match value with
       | Some (VDuration d) =>
           if (d <? min)%Z
           then Some ("duration " +:+ Time.String_ d +:+ " is less than minimum "
                      +:+ Time.String_ min)
           else None
       | _ => None
       end).

Definition validateMaxDuration (max : Z) : Validation :=
  mkValidation ("maxDuration(" +:+ Time.String_ max +:+ ")")
    (fun value =>
       match value with
       | Some (VDuration d) =>
           if (max <? d)%Z
           then Some ("duration " +:+ Time.String_ d +:+ " is greater than maximum "
                      +:+ Time.String_ max)
           else None
       | _ => None
       end).

Definition items_len (value : any) : option Z :=
  match value with
  | Some (VStringSlice v) => Some (Z.of_nat (List.length v))
  | Some (VInt64Slice v) => Some (Z.of_nat (List.length v))
  | _ => None
  end.

Definition validateMinItems (min : Z) : Validation :=
  mkValidation ("minItems(" +:+ Strconv.Itoa min +:+ ")")
    (fun value =>
       match items_len value with
       | Some n =>
           if (n <? min)%Z
           then Some ("array has " +:+ Strconv.Itoa n +:+ " items, minimum is "
                      +:+ Strconv.Itoa min)
           else None
       | None => None
       end).

Definition validateMaxItems (max : Z) : Validation :=
  mkValidation ("maxItems(" +:+ Strconv.Itoa max +:+ ")")
    (fun value =>
       match items_len value with
       | Some n =>
           if (max <? n)%Z
           then Some ("array has " +:+ Strconv.Itoa n +:+ " items, maximum is "
                      +:+ Strconv.Itoa max)
           else None
       | None => None
       end).

(** ** definition.go *)

Record Definition_ := mkDefinition {
  key : string;
  valueType : ValueType;
  envVar : string;
  flag : string;
  defaultValue : any;
  required : bool;
  secret : bool;
  delimiter : string;
  validations : list Validation;
  description : string;
}.

Definition newDefinition (k : string) : Definition_ :=
  mkDefinition k TypeString "" "" None false false "," [] "".

Definition with_type (t : ValueType) (d : Definition_) : Definition_ :=
  mkDefinition (key d) t (envVar d) (flag d) (defaultValue d) (required d)
               (secret d) (delimiter d) (validations d) (description d).

Definition add_validation (v : Validation) (d : Definition_) : Definition_ :=
  mkDefinition (key d) (valueType d) (envVar d) (flag d) (defaultValue d) (required d)
               (secret d) (delimiter d) (validations d ++ [v]) (description d).

(** The builder methods, as functions on the definition they mutate. *)
Module Builder.
Definition String_ := with_type TypeString.
Definition Int64 := with_type TypeInt64.
Definition Float64 := with_type TypeFloat64.
Definition Bool := with_type TypeBool.
Definition Duration := with_type TypeDuration.
Definition URL := with_type TypeURL.
Definition StringSlice := with_type TypeStringSlice.
Definition Int64Slice := with_type TypeInt64Slice.

Definition Env (e : string) (d : Definition_) : Definition_ :=
  mkDefinition (key d) (valueType d) e (flag d) (defaultValue d) (required d)
               (secret d) (delimiter d) (validations d) (description d).

Definition Flag (f : string) (d : Definition_) : Definition_ :=
  mkDefinition (key d) (valueType d) (envVar d) f (defaultValue d) (required d)
               (secret d) (delimiter d) (validations d) (description d).

Definition Required (d : Definition_) : Definition_ :=
  mkDefinition (key d) (valueType d) (envVar d) (flag d) (defaultValue d) true
               (secret d) (delimiter d) (validations d ++ [validateRequired])
               (description d).

Definition Secret (d : Definition_) : Definition_ :=
  mkDefinition (key d) (valueType d) (envVar d) (flag d) (defaultValue d) (required d)
               true (delimiter d) (validations d) (description d).

Definition Default (value : any) (d : Definition_) : Definition_ :=
  mkDefinition (key d) (valueType d) (envVar d) (flag d) value (required d)
               (secret d) (delimiter d) (validations d) (description d).

Definition Delimiter (s : string) (d : Definition_) : Definition_ :=
  mkDefinition (key d) (valueType d) (envVar d) (flag d) (defaultValue d) (required d)
               (secret d) s (validations d) (description d).

Definition Description (s : string) (d : Definition_) : Definition_ :=
  mkDefinition (key d) (valueType d) (envVar d) (flag d) (defaultValue d) (required d)
               (secret d) (delimiter d) (validations d) s.

Definition MinLength (min : Z) := add_validation (validateMinLength min).
Definition MaxLength (max : Z) := add_validation (validateMaxLength max).
Definition LengthRange (min max : Z) (d : Definition_) :=
  add_validation (validateMaxLength max) (add_validation (validateMinLength min) d).
Definition OneOf (allowed : list string) := add_validation (validateOneOf allowed).
Definition MinDuration (min : Z) := add_validation (validateMinDuration min).
Definition MaxDuration (max : Z) := add_validation (validateMaxDuration max).
Definition DurationRange (min max : Z) (d : Definition_) :=
  add_validation (validateMaxDuration max) (add_validation (validateMinDuration min) d).
Definition MinItems (min : Z) := add_validation (validateMinItems min).
Definition MaxItems (max : Z) := add_validation (validateMaxItems max).
Definition ItemsRange (min max : Z) (d : Definition_) :=
  add_validation (validateMaxItems max) (add_validation (validateMinItems min) d).
Definition Custom (name : string) (check : any -> error) :=
  add_validation (mkValidation name check).
End Builder.

Section Commandkit.
Context `{Ext : External}.

(** ** types.go: parseValue *)

(** [fmt.Sprintf("%v", v)]. *)
Definition Sprint (v : any) : string :=
  match v with
  | None => "<nil>"
  | Some (VString s) => s
  | Some (VInt64 n) => Strconv.Itoa n
  | Some (VInt n) => Strconv.Itoa n
  | Some (VFloat64 f) => FormatFloat f
  | Some (VBool b) => Fmt.Sprint_bool b
  | Some (VDuration d) => Time.String_ d
  | Some (VStringSlice l) => Fmt.Sprint_slice l
  | Some (VInt64Slice l) => Fmt.Sprint_slice (map Strconv.Itoa l)
  | Some (VOther _ repr) => repr
  end.

(** The loop of the [TypeStringSlice] case: trimmed, non-empty parts. *)
Fixpoint collect_strings (parts : list string) : list string :=
  match parts with
  | [] => []
  | p :: rest =>
      let trimmed := Strings.TrimSpace p in
      if negb (String.eqb trimmed "")
      then trimmed :: collect_strings rest
      else collect_strings rest
  end.

(** The loop of the [TypeInt64Slice] case: [inl] the first element that
    does not parse. *)
Fixpoint collect_int64s (parts : list string) : string + list Z :=
  match parts with
  | [] => inr []
  | p :: rest =>
      let trimmed := Strings.TrimSpace p in
      if String.eqb trimmed "" then collect_int64s rest
      else
        match Strconv.ParseInt trimmed with
        | None => inl trimmed
        | Some v =>
            match collect_int64s rest with
            | inl bad => inl bad
            | inr result => inr (v :: result)
            end
        end
  end.

(** [parseValue] parses a string value into the expected type. *)
Definition parseValue (raw : string) (valueType : ValueType) (delimiter : string)
  : any * error :=
  if String.eqb raw "" then (None, None)
  else
    match valueType with
    | TypeString => (Some (VString raw), None)
    | TypeInt64 =>
        match Strconv.ParseInt raw with
        | None => (None, Some ("invalid int64: " +:+ raw))
        | Some v => (Some (VInt64 v), None)
        end
    | TypeFloat64 =>
        match Strconv.ParseFloat raw with
        | None => (None, Some ("invalid float64: " +:+ raw))
        | Some v => (Some (VFloat64 v), None)
        end
    | TypeBool =>
        match Strconv.ParseBool raw with
        | None => (None, Some ("invalid bool: " +:+ raw +:+ " (use true/false, 1/0, yes/no)"))
        | Some v => (Some (VBool v), None)
        end
    | TypeDuration =>
        let plain :=
          match Time.ParseDuration raw with
          | None => (None, Some ("invalid duration: " +:+ raw +:+ " (use format like 15m, 1h, 7d)"))
          | Some v => (Some (VDuration v), None)
          end in
        if Strings.HasSuffix raw "d" then
          let daysStr := Strings.TrimSuffix raw "d" in
          match Strconv.ParseFloat daysStr with
          | Some days =>
              let hours := F64.mul days (F64.of_Z 24) in
              match Time.ParseDuration (Fmt.Sprintf_0f hours +:+ "h") with
              | None => (None, Some ("invalid duration: " +:+ raw))
              | Some v => (Some (VDuration v), None)
              end
          | None => plain
          end
        else plain
    | TypeURL =>
        match url_Parse raw with
        | None => (None, Some ("invalid URL: " +:+ raw))
        | Some (scheme, host) =>
            if String.eqb scheme "" || String.eqb host ""
            then (None, Some ("invalid URL (missing scheme or host): " +:+ raw))
            else (Some (VString raw), None)
        end
    | TypeStringSlice =>
        if String.eqb raw "" then (Some (VStringSlice []), None)
        else (Some (VStringSlice (collect_strings (Strings.Split raw delimiter))), None)
    | TypeInt64Slice =>
        if String.eqb raw "" then (Some (VInt64Slice []), None)
        else
          match collect_int64s (Strings.Split raw delimiter) with
          | inl bad => (None, Some ("invalid int64 in array: " +:+ bad))
          | inr result => (Some (VInt64Slice result), None)
          end
    | TypeInvalid _ => (None, Some ("unknown type: " +:+ ValueType_String valueType))
    end.


(** ** secret.go *)

(** A [Secret] wraps a [*memguard.LockedBuffer]: [None] is the nil buffer,
    [Some b] a locked buffer holding the bytes [b]. *)
Record Secret := mkSecret { buffer : option string }.

Definition newSecret (value : string) : Secret :=
  if String.eqb value "" then mkSecret None else mkSecret (Some value).

Definition Secret_Bytes (s : Secret) : option string := buffer s.

Definition Secret_String (s : Secret) : string :=
  match buffer s with
  | None => ""
  | Some b => b
  end.

Definition Secret_Destroy (s : Secret) : Secret := mkSecret None.

Definition Secret_Size (s : Secret) : Z :=
  match buffer s with
  | None => 0%Z
  | Some b => Z.of_nat (String.length b)
  end.

Definition Secret_IsSet (s : Secret) : bool :=
  match buffer s with
  | None => false
  | Some b => (0 <? Z.of_nat (String.length b))%Z
  end.

(** A [*Secret]: the address of a stored secret, or the new empty object
    [&Secret{}] that [SecretStore.Get] returns for an unknown key. *)
Inductive SecretPtr := Stored (a : addr) | FreshEmpty.

Definition load (h : gmap addr Secret) (p : SecretPtr) : Secret :=
  match p with
  | Stored a => default (mkSecret None) (h !! a)
  | FreshEmpty => mkSecret None
  end.

Definition alloc (h : gmap addr Secret) (s : Secret) : addr * gmap addr Secret :=
  let a := fresh (dom h) in (a, <[a := s]> h).

(** [SecretStore.Store]: the store maps the key to a newly allocated secret. *)
Definition SecretStore_Store (h : gmap addr Secret) (ss : gmap string addr)
    (k value : string) : gmap addr Secret * gmap string addr :=
  let '(a, h') := alloc h (newSecret value) in (h', <[k := a]> ss).

Definition SecretStore_Get (ss : gmap string addr) (k : string) : SecretPtr :=
  match ss !! k with
  | Some a => Stored a
  | None => FreshEmpty
  end.

(** [SecretStore.DestroyAll]: every stored secret is destroyed, and the
    store gets a new empty map. *)
Definition SecretStore_DestroyAll (h : gmap addr Secret) (ss : gmap string addr)
  : gmap addr Secret * gmap string addr :=
  (map_fold (fun _ a h' => alter Secret_Destroy a h') h ss, ∅).

(** ** files.go *)

(** The generic tree a decoded JSON, YAML or TOML file is. *)
Inductive FileValue :=
| FNil
| FString (s : string)
| FBool (b : bool)
| FInt (n : Z)
| FInt64 (n : Z)
| FFloat64 (f : float64)
| FSlice (l : list FileValue)               (** [[]any] *)
| FMap (m : gmap string FileValue)          (** [map[string]any] *)
| FOther (type_name repr : string)          (** any other decoded type *).

Record FileConfig := mkFileConfig {
  data : gmap string FileValue;
  envPrefix : string;
  environment : string;
}.

(** [%T] of a file value. *)
Definition file_type_name (v : FileValue) : string :=
  match v with
  | FNil => "<nil>"
  | FString _ => "string"
  | FBool _ => "bool"
  | FInt _ => "int"
  | FInt64 _ => "int64"
  | FFloat64 _ => "float64"
  | FSlice _ => "[]interface {}"
  | FMap _ => "map[string]interface {}"
  | FOther ty _ => ty
  end.

(** [fmt.Sprintf("%v", item)] of a file value; a map prints its entries in
    key order. *)
Fixpoint Sprint_file (v : FileValue) : string :=
  match v with
  | FNil => "<nil>"
  | FString s => s
  | FBool b => Fmt.Sprint_bool b
  | FInt n => Strconv.Itoa n
  | FInt64 n => Strconv.Itoa n
  | FFloat64 f => FormatFloat f
  | FSlice l => Fmt.Sprint_slice (map Sprint_file l)
  | FMap m =>
      "map["
      +:+ String.concat " "
            (map (fun kv => fst kv +:+ ":" +:+ snd kv)
                 (merge_sort (fun a b => String.leb (fst a) (fst b))
                             (map_to_list (Sprint_file <$> m))))
      +:+ "]"
  | FOther _ repr => repr
  end.

(** ** config.go *)

(** A [*string] held in [flagValues]: nil, the variable of a flag of the
    flag set, or a string variable of its own (as the package's tests set). *)
Inductive StrPtr := NilPtr | FlagVar (name : string) | StrVar (s : string).

Record ConfigError := mkConfigError {
  Key : string; Source : string; Value_ : string; Message : string }.

Record OverrideWarning := mkOverrideWarning {
  ow_Key : string; ow_Command : string; ow_Source : string; ow_OverrideBy : string;
  ow_OldValue : string; ow_NewValue : string; ow_Message : string }.

Record Config := mkConfig {
  definitions : gmap string Definition_;
  values : gmap string any;
  secrets : gmap string addr;
  flagSet : Flag.FlagSet;
  flagValues : gmap string StrPtr;
  fileConfig : option FileConfig;
  overrideWarnings : list OverrideWarning;
  processed : bool;
}.

(** What the process gives the library: its environment and [os.Args]. *)
Record World := mkWorld {
  environ : gmap string string;
  program : string;            (** [os.Args[0]] *)
  args : list string;          (** [os.Args[1:]] *)
}.

Definition Getenv (w : World) (name : string) : string := default "" (environ w !! name).

Definition New (w : World) : Config :=
  mkConfig ∅ ∅ ∅ (Flag.mkFlagSet (program w) ∅) ∅ None [] false.

(** [c.Define(key)] followed by the chain [build] of builder calls: the
    chain mutates the definition registered under [key]. *)
Definition Define (k : string) (build : Definition_ -> Definition_) (c : Config) : Config :=
  mkConfig (<[k := build (newDefinition k)]> (definitions c)) (values c) (secrets c)
           (flagSet c) (flagValues c) (fileConfig c) (overrideWarnings c) (processed c).

Definition set_values (vs : gmap string any) (c : Config) : Config :=
  mkConfig (definitions c) vs (secrets c) (flagSet c) (flagValues c) (fileConfig c)
           (overrideWarnings c) (processed c).

Definition set_secrets (ss : gmap string addr) (c : Config) : Config :=
  mkConfig (definitions c) (values c) ss (flagSet c) (flagValues c) (fileConfig c)
           (overrideWarnings c) (processed c).

Definition set_flags (fs : Flag.FlagSet) (fv : gmap string StrPtr) (c : Config) : Config :=
  mkConfig (definitions c) (values c) (secrets c) fs fv (fileConfig c)
           (overrideWarnings c) (processed c).

Definition set_fileConfig (fc : option FileConfig) (c : Config) : Config :=
  mkConfig (definitions c) (values c) (secrets c) (flagSet c) (flagValues c) fc
           (overrideWarnings c) (processed c).

Definition set_overrideWarnings (ows : list OverrideWarning) (c : Config) : Config :=
  mkConfig (definitions c) (values c) (secrets c) (flagSet c) (flagValues c) (fileConfig c)
           ows (processed c).

Definition set_processed (b : bool) (c : Config) : Config :=
  mkConfig (definitions c) (values c) (secrets c) (flagSet c) (flagValues c) (fileConfig c)
           (overrideWarnings c) b.

(** [mergeFileData]: the new top-level keys overwrite the old ones. *)
Definition mergeFileData (newData : gmap string FileValue) (c : Config) : Config :=
  let fc := default (mkFileConfig ∅ "" "") (fileConfig c) in
  set_fileConfig (Some (mkFileConfig (newData ∪ data fc) (envPrefix fc) (environment fc))) c.

Definition SetEnvironment (env : string) (c : Config) : error * Config :=
  match fileConfig c with
  | None => (Some "no configuration files loaded", c)
  | Some fc => (None, set_fileConfig (Some (mkFileConfig (data fc) (envPrefix fc) env)) c)
  end.

Definition ToLower (s : string) : string := Strings.ToLower unicode_lower s.

(** [getFileValue] gets a value from file configuration with environment
    support; [Some FNil] is a key present with a nil value. *)
Definition getFileValue (c : Config) (k : string) : option FileValue :=
  match fileConfig c with
  | None => None
  | Some fc =>
      let scoped :=
        if negb (String.eqb (environment fc) "") then
          match data fc !! "environments" with
          | Some (FMap envMap) =>
              match envMap !! environment fc with
              | Some (FMap currentEnvMap) =>
                  match currentEnvMap !! k with
                  | Some value => Some value
                  | None => currentEnvMap !! ToLower k
                  end
              | _ => None
              end
          | _ => None
          end
        else None in
      match scoped with
      | Some value => Some value
      | None =>
          match data fc !! k with
          | Some value => Some value
          | None => data fc !! ToLower k
          end
      end
  end.

(** The conversion of a file value to the string to parse: [inr] is the
    [default] case of the type switch, with the [%T] of the value. *)
Definition fileValueString (def : Definition_) (fileValue : FileValue) : string + string :=
  match fileValue with
  | FString v => inl v
  | FBool v => inl (Fmt.Sprint_bool v)
  | FInt v => inl (Strconv.Itoa v)
  | FInt64 v => inl (Strconv.Itoa v)
  | FFloat64 v => inl (FormatFloat v)
  | FSlice v => inl (Strings.Join (map Sprint_file v) (delimiter def))
  | _ => inr (file_type_name fileValue)
  end.

(** [*flagVal] for the pointer registered under [k], or [""] when there is
    no pointer, it is nil, or the flag is not registered. *)
Definition flagString (c : Config) (k : string) : string :=
  match flagValues c !! k with
  | Some (FlagVar nm) => default "" (Flag.formal (flagSet c) !! nm)
  | Some (StrVar s) => s
  | _ => ""
  end.

(** The validation loop over a default value: the rule named "required"
    is skipped. *)
Fixpoint validateDefault (vs : list Validation) (value : any) : error :=
  match vs with
  | [] => None
  | v :: rest =>
      if String.eqb (Name v) "required" then validateDefault rest value
      else
        match Check v value with
        | Some err => Some err
        | None => validateDefault rest value
        end
  end.

(** The validation loop over a parsed value. *)
Fixpoint runValidations (vs : list Validation) (value : any) : error :=
  match vs with
  | [] => None
  | v :: rest =>
      match Check v value with
      | Some err => Some err
      | None => runValidations rest value
      end
  end.

(** [resolveValueWithFiles]: file, then environment variable, then flag,
    then default. *)
Definition resolveValueWithFiles (w : World) (c : Config) (k : string) (def : Definition_)
  : any * string * error :=
  (* Priority 1: Configuration files *)
  let fromFile := fileValueString def <$> getFileValue c k in
  match fromFile with
  | Some (inr ty) => (None, "file", Some ("unsupported file value type: " +:+ ty))
  | _ =>
      let '(rawValue, source) :=
        match fromFile with
        | Some (inl raw) => (raw, "file")
        | _ => ("", "")
        end in
      (* Priority 2: Environment variables *)
      let '(rawValue, source) :=
        if String.eqb rawValue "" && negb (String.eqb (envVar def) "") then
          let envVal := Getenv w (envVar def) in
          if negb (String.eqb envVal "") then (envVal, "env") else (rawValue, source)
        else (rawValue, source) in
      (* Priority 3: Command line flags *)
      let '(rawValue, source) :=
        if String.eqb rawValue "" && negb (String.eqb (flag def) "") then
          let flagVal := flagString c k in
          if negb (String.eqb flagVal "") then (flagVal, "flag") else (rawValue, source)
        else (rawValue, source) in
      (* Priority 4: Default value *)
      if String.eqb rawValue "" && bool_decide (is_Some (defaultValue def)) then
        (defaultValue def, "default", validateDefault (validations def) (defaultValue def))
      else if String.eqb rawValue "" then
        (* No value found *)
        if required def
        then (None, "none",
              Some ("required value not provided (set in file, " +:+ envVar def
                    +:+ " or --" +:+ flag def +:+ ")"))
        else (None, "none", None)
      else
        (* Parse the raw string value into the expected type *)
        match parseValue rawValue (valueType def) (delimiter def) with
        | (_, Some err) => (Some (VString rawValue), source, Some err)
        | (parsedValue, None) =>
            (parsedValue, source, runValidations (validations def) parsedValue)
        end
  end.

(** [resolveValue], the path that knows no files: flag, then environment
    variable, then default. *)
Definition resolveValue (w : World) (c : Config) (k : string) (def : Definition_)
  : any * string * error :=
  (* Priority 1: Command line flags *)
  let '(rawValue, source) :=
    if negb (String.eqb (flag def) "") then
      let flagVal := flagString c k in
      if negb (String.eqb flagVal "") then (flagVal, "flag") else ("", "")
    else ("", "") in
  (* Priority 2: Environment variables *)
  let '(rawValue, source) :=
    if String.eqb rawValue "" && negb (String.eqb (envVar def) "") then
      let envVal := Getenv w (envVar def) in
      if negb (String.eqb envVal "") then (envVal, "env") else (rawValue, source)
    else (rawValue, source) in
  (* Priority 3: Default value *)
  if String.eqb rawValue "" && bool_decide (is_Some (defaultValue def)) then
    (defaultValue def, "default", validateDefault (validations def) (defaultValue def))
  else if String.eqb rawValue "" then
    if required def
    then (None, "none",
          Some ("required value not provided (set " +:+ envVar def
                +:+ " or --" +:+ flag def +:+ ")"))
    else (None, "none", None)
  else
    match parseValue rawValue (valueType def) (delimiter def) with
    | (_, Some err) => (Some (VString rawValue), source, Some err)
    | (parsedValue, None) =>
        (parsedValue, source, runValidations (validations def) parsedValue)
    end.

(** ** errors.go *)

(** [maskSecret] masks a secret value for display. *)
Definition maskSecret (value : string) : string :=
  if (String.length value <=? 4)%nat then "****"
  else String.substring 0 2 value
       +:+ Strings.Repeat "*" (String.length value - 4)
       +:+ Strings.drop (String.length value - 2) value.

(** ** overrides.go *)

Definition maskValueIfNeeded (c : Config) (k value : string) : string :=
  match definitions c !! k with
  | Some def => if secret def then maskSecret value else value
  | None => value
  end.

(** [checkSourceOverridesForKey]: the warnings it adds for one key. *)
Definition checkSourceOverridesForKey (w : World) (c : Config)
    (warnings : list OverrideWarning) (kd : string * Definition_) : list OverrideWarning :=
  let '(k, def) := kd in
  let flagValue := if negb (String.eqb (flag def) "") then flagString c k else "" in
  let hasFlag := negb (String.eqb flagValue "") in
  let envValue := if negb (String.eqb (envVar def) "") then Getenv w (envVar def) else "" in
  let hasEnv := negb (String.eqb envValue "") in
  let hasDefault := bool_decide (is_Some (defaultValue def)) in
  let defaultString := if hasDefault then Sprint (defaultValue def) else "" in
  let warnings :=
    if hasFlag && hasEnv then
      warnings ++ [mkOverrideWarning k "" "environment" "flag"
                     (maskValueIfNeeded c k envValue) (maskValueIfNeeded c k flagValue)
                     "Command-line flag overrides environment variable"]
    else warnings in
  let warnings :=
    if hasFlag && hasDefault then
      warnings ++ [mkOverrideWarning k "" "default" "flag"
                     (maskValueIfNeeded c k defaultString) (maskValueIfNeeded c k flagValue)
                     "Command-line flag overrides default value"]
    else warnings in
  if hasEnv && hasDefault && negb hasFlag then
    warnings ++ [mkOverrideWarning k "" "default" "environment"
                   (maskValueIfNeeded c k defaultString) (maskValueIfNeeded c k envValue)
                   "Environment variable overrides default value"]
  else warnings.

Definition checkSourceOverrides (w : World) (c : Config)
    (order : list (string * Definition_)) : list OverrideWarning :=
  foldl (checkSourceOverridesForKey w c) [] order.

(** ** config.go: Process *)

(** The value a Go [panic] carries. *)
Inductive panic :=
| PanicString (msg : string)
| PanicFlagBeginsWithDash (nm : string)
| PanicFlagContainsEquals (nm : string).

(** What a call of [Process] does: it panics, or it returns the errors and
    leaves a heap and a configuration. *)
Inductive Outcome :=
| Panicked (p : panic)
| Returned (errs : list ConfigError) (h : gmap addr Secret) (c : Config).

(** Go leaves the order of a [range] over a map unspecified: the orders of
    the three loops of [Process] over [c.definitions] are an input. *)
Record RangeOrder := mkRangeOrder {
  register_order : list (string * Definition_);
  resolve_order : list (string * Definition_);
  override_order : list (string * Definition_);
}.

Definition ranges_over (ord : RangeOrder) (c : Config) : Prop :=
  register_order ord ≡ₚ map_to_list (definitions c)
  ∧ resolve_order ord ≡ₚ map_to_list (definitions c)
  ∧ override_order ord ≡ₚ map_to_list (definitions c).

(** One turn of the loop that registers the flags. *)
Definition registerFlag (st : panic + Config) (kd : string * Definition_) : panic + Config :=
  match st with
  | inl p => inl p
  | inr c =>
      let '(k, def) := kd in
      if negb (String.eqb (flag def) "") then
        match flagValues c !! k with
        | Some _ => inr c
        | None =>
            match Flag.String_ (flagSet c) (flag def) with
            | Flag.Defined_ fs => inr (set_flags fs (<[k := FlagVar (flag def)]> (flagValues c)) c)
            | Flag.Redefined msg => inl (PanicString msg)
            | Flag.BeginsWithDash => inl (PanicFlagBeginsWithDash (flag def))
            | Flag.ContainsEquals => inl (PanicFlagContainsEquals (flag def))
            end
        end
      else inr c
  end.

(** One turn of the loop that processes each definition. *)
Definition processDefinition (w : World)
    (st : list ConfigError * gmap addr Secret * Config) (kd : string * Definition_)
  : list ConfigError * gmap addr Secret * Config :=
  let '(errs, h, c) := st in
  let '(k, def) := kd in
  let '(value, source, err) := resolveValueWithFiles w c k def in
  match err with
  | Some msg =>
      let displayValue :=
        match value with
        | None => ""
        | Some _ => if secret def then maskSecret (Sprint value) else Sprint value
        end in
      (errs ++ [mkConfigError k source displayValue msg], h, c)
  | None =>
      (* Store the value *)
      if secret def && bool_decide (is_Some value) then
        let strValue := Sprint value in
        let '(h', ss) := SecretStore_Store h (secrets c) k strValue in
        (errs, h', set_values (<[k := Some (VString "[SECRET]")]> (values c)) (set_secrets ss c))
      else (errs, h, set_values (<[k := value]> (values c)) c)
  end.

(** The first block of [Process]: on a processed configuration the values
    are cleared and the secrets destroyed. *)
Definition clearPrevious (h : gmap addr Secret) (c : Config) : gmap addr Secret * Config :=
  if processed c then
    let '(h', ss) := SecretStore_DestroyAll h (secrets c) in
    (h', set_secrets ∅ (set_values ∅ c))
  else (h, c).

Definition registerFlags (order : list (string * Definition_)) (c : Config) : panic + Config :=
  foldl registerFlag (inr c) order.

(** [c.flagSet.Parse(filteredArgs)]: the arguments without the test flags. *)
Definition parseFlags (w : World) (c : Config) : Config :=
  let filteredArgs :=
    List.filter (fun arg => negb (Strings.HasPrefix arg "-test.")) (args w) in
  set_flags (Flag.Parse (flagSet c) filteredArgs) (flagValues c) c.

Definition storeWarnings (warnings : list OverrideWarning) (c : Config) : Config :=
  match warnings with
  | [] => c
  | _ => set_overrideWarnings warnings c
  end.

(** [Process] parses flags and environment variables, validates all
    definitions, and populates the values map. *)
Definition Process (w : World) (ord : RangeOrder) (h : gmap addr Secret) (c : Config)
  : Outcome :=
  (* Clear previous values if re-processing *)
  let '(h, c) := clearPrevious h c in
  let c := set_processed true c in
  (* Register all flags first (only if not already registered) *)
  match registerFlags (register_order ord) c with
  | inl p => Panicked p
  | inr c =>
      (* Parse command line flags *)
      let c := parseFlags w c in
      (* Process each definition *)
      let '(errs, h, c) := foldl (processDefinition w) ([], h, c) (resolve_order ord) in
      (* Check for source overrides and store warnings *)
      let c := storeWarnings (checkSourceOverrides w c (override_order ord)) c in
      Returned errs h c
  end.

Definition Destroy (h : gmap addr Secret) (c : Config) : gmap addr Secret * Config :=
  let '(h', ss) := SecretStore_DestroyAll h (secrets c) in (h', set_secrets ss c).

Definition IsSecret (c : Config) (k : string) : bool :=
  match definitions c !! k with
  | Some def => secret def
  | None => false
  end.

(** ** get.go *)

(** The type argument of the generic getters. *)
Inductive GoType :=
| TString | TInt64 | TInt | TFloat64 | TBool | TDuration | TStringSlice | TInt64Slice
| TAny                       (** the interface type [any] *)
| TNamed (name : string)     (** any other concrete type *).

(** [%T] of the zero value of [T]. *)
Definition zero_type_name (T : GoType) : string :=
  match T with
  | TString => "string"
  | TInt64 => "int64"
  | TInt => "int"
  | TFloat64 => "float64"
  | TBool => "bool"
  | TDuration => "time.Duration"
  | TStringSlice => "[]string"
  | TInt64Slice => "[]int64"
  | TAny => "<nil>"
  | TNamed n => n
  end.

(** The type assertion [value.(T)]: it fails on a nil interface value for
    every [T]. *)
Definition assert_type (T : GoType) (value : any) : option Value :=
  match value with
  | None => None
  | Some v =>
      match T, v with
      | TAny, _ => Some v
      | TString, VString _ => Some v
      | TInt64, VInt64 _ => Some v
      | TInt, VInt _ => Some v
      | TFloat64, VFloat64 _ => Some v
      | TBool, VBool _ => Some v
      | TDuration, VDuration _ => Some v
      | TStringSlice, VStringSlice _ => Some v
      | TInt64Slice, VInt64Slice _ => Some v
      | TNamed n, VOther ty _ => if String.eqb n ty then Some v else None
      | _, _ => None
      end
  end.

Inductive GetResult := GetPanic (msg : string) | GetValue (v : Value).

(** [Get] retrieves a configuration value with type safety using generics. *)
Definition Get (T : GoType) (c : Config) (k : string) : GetResult :=
  match values c !! k with
  | None => GetPanic ("commandkit: key '" +:+ k +:+ "' not found (did you define it?)")
  | Some value =>
      if IsSecret c k
      then GetPanic ("commandkit: key '" +:+ k +:+ "' is a secret, use GetSecret() instead")
      else
        match assert_type T value with
        | Some result => GetValue result
        | None =>
            GetPanic ("commandkit: key '" +:+ k +:+ "' has type " +:+ type_name_of value
                      +:+ ", not " +:+ zero_type_name T)
        end
  end.


(** [GetOr] retrieves a configuration value or returns a default if not set. *)
Definition GetOr (T : GoType) (c : Config) (k : string) (defaultValue : any) : any :=
  match values c !! k with
  | Some (Some v) =>
      match assert_type T (Some v) with
      | Some result => Some result
      | None => defaultValue
      end
  | _ => defaultValue
  end.

(** [Has] checks if a key exists and has a non-nil value. *)
Definition Has (c : Config) (k : string) : bool :=
  match values c !! k with
  | Some (Some _) => true
  | _ => false
  end.

Definition GetSecret (c : Config) (k : string) : SecretPtr := SecretStore_Get (secrets c) k.

End Commandkit.

(** * Properties *)

Section Properties.
Context `{Ext : External}.

Implicit Types (c : Config) (h : gmap addr Secret) (w : World) (k : string)
  (def : Definition_) (order : list (string * Definition_)).

(** ** What resolution reads *)

(** Resolution reads the file data and the flags of a configuration, and
    nothing else of it. *)
Definition same_sources c c' : Prop :=
  fileConfig c = fileConfig c' ∧ flagValues c = flagValues c' ∧ flagSet c = flagSet c'.

#[local] Instance same_sources_refl : Reflexive same_sources.
Proof. by intros c. Qed.

#[local] Instance same_sources_trans : Transitive same_sources.
Proof. intros c1 c2 c3 (?&?&?) (?&?&?). repeat split; congruence. Qed.

#[local] Instance same_sources_sym : Symmetric same_sources.
Proof. intros c1 c2 (?&?&?). by repeat split. Qed.

Lemma getFileValue_same c c' k :
  fileConfig c = fileConfig c' → getFileValue c k = getFileValue c' k.
Proof. unfold getFileValue. by intros ->. Qed.

Lemma flagString_same c c' k :
  same_sources c c' → flagString c k = flagString c' k.
Proof. intros (_ & Hv & Hs). unfold flagString. by rewrite Hv, Hs. Qed.

Lemma resolve_same_sources w c c' k def :
  same_sources c c' →
  resolveValueWithFiles w c k def = resolveValueWithFiles w c' k def.
Proof.
  intros Hs. unfold resolveValueWithFiles.
  rewrite (getFileValue_same c c' k) by apply Hs.
  by rewrite (flagString_same c c' k Hs).
Qed.

(** ** The resolution loop *)

(** The error record [Process] appends for a key whose resolution fails. *)
Definition error_record w c (kd : string * Definition_) : option ConfigError :=
  match resolveValueWithFiles w c kd.1 kd.2 with
  | (value, source, Some msg) =>
      Some (mkConfigError kd.1 source
              (match value with
               | None => ""
               | Some _ => if secret kd.2 then maskSecret (Sprint value) else Sprint value
               end) msg)
  | (_, _, None) => None
  end.

(** What one key leaves in the maps and on the heap, between a state
    [(h, c)] before its turn and a state [(h', c')] after it. *)
Definition key_post w c0 c h c' h' k def : Prop :=
  match resolveValueWithFiles w c0 k def with
  | (_, _, Some _) => values c' !! k = values c !! k ∧ secrets c' !! k = secrets c !! k
  | (value, _, None) =>
      if secret def && bool_decide (is_Some value)
      then values c' !! k = Some (Some (VString "[SECRET]"))
           ∧ (∃ a, secrets c' !! k = Some a ∧ (a ∉ dom h)
                   ∧ h' !! a = Some (newSecret (Sprint value)))
      else values c' !! k = Some value ∧ secrets c' !! k = secrets c !! k
  end.

Lemma processDefinition_step w errs h c k def errs' h' c' :
  processDefinition w (errs, h, c) (k, def) = (errs', h', c') →
  errs' = errs ++ option_list (error_record w c (k, def))
  ∧ definitions c' = definitions c ∧ same_sources c c'
  ∧ processed c' = processed c ∧ overrideWarnings c' = overrideWarnings c
  ∧ h ⊆ h'
  ∧ (∀ k', k' ≠ k → values c' !! k' = values c !! k' ∧ secrets c' !! k' = secrets c !! k')
  ∧ key_post w c c h c' h' k def.
Proof.
  unfold processDefinition, error_record, key_post. simpl.
  destruct (resolveValueWithFiles w c k def) as [[value source] [msg|]].
  - intros [= <- <- <-]. repeat split; try done.
  - destruct (secret def && bool_decide (is_Some value)) eqn:Hsec.
    + unfold SecretStore_Store, alloc.
      intros [= <- <- <-]. simpl.
      assert (Hfresh : fresh (dom h) ∉ dom h) by apply is_fresh.
      repeat split; try done.
      * by rewrite app_nil_r.
      * apply insert_subseteq. by apply not_elem_of_dom.
      * by rewrite lookup_insert_ne.
      * by rewrite lookup_insert_ne.
      * by rewrite lookup_insert_eq.
      * exists (fresh (dom h)). by rewrite !lookup_insert_eq.
    + intros [= <- <- <-]. simpl. repeat split; try done.
      * by rewrite app_nil_r.
      * by rewrite lookup_insert_ne.
      * by rewrite lookup_insert_eq.
Qed.

Lemma error_record_same w c c' kd :
  same_sources c c' → error_record w c kd = error_record w c' kd.
Proof. intros Hs. unfold error_record. by rewrite (resolve_same_sources w c c'). Qed.

Lemma omap_error_record_same w c c' order :
  same_sources c c' → omap (error_record w c) order = omap (error_record w c') order.
Proof.
  intros Hs. induction order as [|kd rest IH]; [done|].
  cbn [omap list_omap]. by rewrite IH, (error_record_same w c c' kd Hs).
Qed.

Lemma key_post_same w c0 c0' c h c' h' k def :
  same_sources c0 c0' → key_post w c0 c h c' h' k def → key_post w c0' c h c' h' k def.
Proof. intros Hs. unfold key_post. by rewrite (resolve_same_sources w c0 c0'). Qed.

(** Carrying a key's postcondition over the turns of the other keys. *)
Lemma key_post_later w c0 c h c1 h1 c' h' k def :
  h1 ⊆ h' →
  values c' !! k = values c1 !! k → secrets c' !! k = secrets c1 !! k →
  key_post w c0 c h c1 h1 k def → key_post w c0 c h c' h' k def.
Proof.
  intros Hh Hv Hs. unfold key_post.
  destruct (resolveValueWithFiles w c0 k def) as [[value source] [msg|]]; simpl.
  - rewrite Hv, Hs. done.
  - destruct (secret def && bool_decide (is_Some value)).
    + rewrite Hv, Hs. intros [? (a & ? & ? & Ha)]. split; [done|].
      exists a. repeat split; try done. by eapply lookup_weaken.
    + by rewrite Hv, Hs.
Qed.

Lemma key_post_earlier w c0 c h c1 h1 c' h' k def :
  h ⊆ h1 →
  values c1 !! k = values c !! k → secrets c1 !! k = secrets c !! k →
  key_post w c0 c1 h1 c' h' k def → key_post w c0 c h c' h' k def.
Proof.
  intros Hh Hv Hs. unfold key_post.
  destruct (resolveValueWithFiles w c0 k def) as [[value source] [msg|]]; simpl.
  - rewrite Hv, Hs. done.
  - destruct (secret def && bool_decide (is_Some value)).
    + intros [? (a & ? & Hd & Ha)]. split; [done|].
      exists a. repeat split; try done.
      intros Hin. apply Hd. by eapply (subseteq_dom h h1).
    + by rewrite Hs.
Qed.

(** The loop over the definitions: the errors of the failing keys in the
    order of the range, and for every key of the range its entries. *)
Lemma process_loop w order : ∀ errs h c errs' h' c',
  NoDup order.*1 →
  foldl (processDefinition w) (errs, h, c) order = (errs', h', c') →
  errs' = errs ++ omap (error_record w c) order
  ∧ definitions c' = definitions c ∧ same_sources c c'
  ∧ processed c' = processed c ∧ overrideWarnings c' = overrideWarnings c
  ∧ h ⊆ h'
  ∧ (∀ k, k ∉ order.*1 → values c' !! k = values c !! k ∧ secrets c' !! k = secrets c !! k)
  ∧ (∀ k def, (k, def) ∈ order → key_post w c c h c' h' k def).
Proof.
  induction order as [|[k0 def0] rest IH]; intros errs h c errs' h' c' Hnd Hfold.
  - simpl in Hfold. injection Hfold as <- <- <-.
    rewrite app_nil_r. repeat split; try done. intros k def Hin. by apply elem_of_nil in Hin.
  - cbn [foldl] in Hfold. rewrite fmap_cons in Hnd. apply NoDup_cons in Hnd as [Hk0 Hnd].
    destruct (processDefinition w (errs, h, c) (k0, def0)) as [[e1 h1] c1] eqn:E1.
    apply processDefinition_step in E1 as (-> & Hd1 & Hs1 & Hp1 & Ho1 & Hh1 & Hother & Hpost).
    destruct (IH _ _ _ _ _ _ Hnd Hfold) as (-> & Hd & Hs & Hp & Ho & Hh & Hout & Hin).
    split; [|split; [congruence|split; [by etrans|split; [congruence|split;
      [congruence|split; [by etrans|split]]]]]].
    + rewrite <- app_assoc. f_equal.
      rewrite (omap_error_record_same w c1 c) by (by symmetry).
      cbn [omap list_omap]. by destruct (error_record w c (k0, def0)).
    + intros k [Hne Hk]%not_elem_of_cons. simpl in Hne.
      destruct (Hout k Hk) as [-> ->]. by apply Hother.
    + intros k def [Heq|Hin']%elem_of_cons.
      * injection Heq as -> ->.
        destruct (Hout k0 Hk0) as [Hv' Hs'].
        by apply (key_post_later w c c h c1 h1 c' h').
      * assert (k ≠ k0) as Hne.
        { intros ->. apply Hk0. apply list_elem_of_fmap. by exists (k0, def). }
        destruct (Hother k Hne) as [Hv1 Hs1'].
        apply (key_post_earlier w c c h c1 h1 c' h'); try done.
        apply (key_post_same w c1 c); [by symmetry|]. by apply Hin.
Qed.

(** ** Flag registration and parsing *)

(** An update of a configuration that leaves its flags alone. *)
Definition flag_neutral (g : Config → Config) : Prop :=
  ∀ c, flagSet (g c) = flagSet c ∧ flagValues (g c) = flagValues c
       ∧ ∀ fs fv, g (set_flags fs fv c) = set_flags fs fv (g c).

Lemma registerFlag_neutral g st kd :
  flag_neutral g →
  registerFlag (sum_map id g st) kd = sum_map id g (registerFlag st kd).
Proof.
  intros Hg. destruct st as [p|c]; [done|]. destruct kd as [k def]. simpl.
  destruct (Hg c) as (Hs & Hv & Hset). rewrite Hs, Hv.
  destruct (negb (String.eqb (flag def) "")); [|done].
  destruct (flagValues c !! k); [done|].
  destruct (Flag.String_ (flagSet c) (flag def)); simpl; try done.
  by rewrite Hset.
Qed.

Lemma registerFlags_neutral g order c :
  flag_neutral g →
  registerFlags order (g c) = sum_map id g (registerFlags order c).
Proof.
  intros Hg. unfold registerFlags.
  change (inr (g c)) with (sum_map id g (inr c : panic + Config)).
  generalize (inr c : panic + Config). induction order as [|kd rest IH]; intros st; [done|].
  cbn [foldl]. by rewrite registerFlag_neutral, IH.
Qed.

Lemma registerFlag_frame c kd c' :
  registerFlag (inr c) kd = inr c' →
  definitions c' = definitions c ∧ values c' = values c ∧ secrets c' = secrets c
  ∧ fileConfig c' = fileConfig c ∧ processed c' = processed c
  ∧ overrideWarnings c' = overrideWarnings c
  ∧ flagValues c ⊆ flagValues c'
  ∧ (negb (String.eqb (flag kd.2) "") = true → is_Some (flagValues c' !! kd.1)).
Proof.
  destruct kd as [k def]. simpl.
  destruct (negb (String.eqb (flag def) "")).
  - destruct (flagValues c !! k) eqn:Hk.
    + intros [= <-]. by rewrite Hk.
    + destruct (Flag.String_ (flagSet c) (flag def)); try done.
      intros [= <-]. simpl. repeat split; try done.
      * by apply insert_subseteq.
      * by rewrite lookup_insert_eq.
  - intros [= <-]. by repeat split.
Qed.

Lemma registerFlag_panic p kd : registerFlag (inl p) kd = inl p.
Proof. done. Qed.

Lemma registerFlags_panic p order : foldl registerFlag (inl p) order = inl p.
Proof. induction order as [|kd rest IH]; [done|]. by cbn [foldl]. Qed.

Lemma registerFlags_frame order : ∀ c c',
  registerFlags order c = inr c' →
  definitions c' = definitions c ∧ values c' = values c ∧ secrets c' = secrets c
  ∧ fileConfig c' = fileConfig c ∧ processed c' = processed c
  ∧ overrideWarnings c' = overrideWarnings c
  ∧ flagValues c ⊆ flagValues c'
  ∧ (∀ kd, kd ∈ order → negb (String.eqb (flag kd.2) "") = true →
           is_Some (flagValues c' !! kd.1)).
Proof.
  unfold registerFlags. induction order as [|kd rest IH]; intros c c' Hreg.
  - injection Hreg as <-. repeat split; try done. intros kd Hin. by apply elem_of_nil in Hin.
  - cbn [foldl] in Hreg. destruct (registerFlag (inr c) kd) as [p|c1] eqn:E1.
    { by rewrite registerFlags_panic in Hreg. }
    apply registerFlag_frame in E1 as (?&?&?&?&?&?&Hsub1&Hkd).
    destruct (IH _ _ Hreg) as (?&?&?&?&?&?&Hsub&Hrest).
    split; [congruence|]. split; [congruence|]. split; [congruence|].
    split; [congruence|]. split; [congruence|]. split; [congruence|].
    split; [by etrans|].
    intros kd' [->|Hin]%elem_of_cons Hflag; [|by apply Hrest].
    destruct (Hkd Hflag) as [p Hp]. exists p. by eapply lookup_weaken.
Qed.

(** Registration does nothing once every key with a flag has its pointer. *)
Lemma registerFlags_registered order c :
  (∀ kd, kd ∈ order → negb (String.eqb (flag kd.2) "") = true →
         is_Some (flagValues c !! kd.1)) →
  registerFlags order c = inr c.
Proof.
  unfold registerFlags. induction order as [|[k def] rest IH]; intros Hall; [done|].
  cbn [foldl]. assert (registerFlag (inr c) (k, def) = inr c) as ->.
  { simpl. destruct (negb (String.eqb (flag def) "")) eqn:Hf; [|done].
    destruct (Hall (k, def)) as [p Hp]; [by left|done|]. simpl in Hp. by rewrite Hp. }
  apply IH. intros kd Hin. apply Hall. by right.
Qed.

(** The configuration whose sources the resolution loop reads: flags
    registered and parsed. *)
Definition entryConfig w (ord : RangeOrder) c : panic + Config :=
  match registerFlags (register_order ord) c with
  | inl p => inl p
  | inr c' => inr (parseFlags w c')
  end.

(** A configuration as the API leaves it: before the first [Process] it
    holds no value and no secret. *)
Definition initial_or_processed c : Prop :=
  processed c = false → values c = ∅ ∧ secrets c = ∅.

Lemma clearPrevious_maps h c :
  initial_or_processed c →
  values (clearPrevious h c).2 = ∅ ∧ secrets (clearPrevious h c).2 = ∅.
Proof.
  intros Hwf. unfold clearPrevious. destruct (processed c) eqn:Hp; [done|]. by apply Hwf.
Qed.

Lemma clear_neutral h :
  flag_neutral (fun c => set_processed true (clearPrevious h c).2).
Proof.
  intros c. unfold clearPrevious. simpl. by destruct (processed c).
Qed.

Lemma storeWarnings_frame ws c :
  definitions (storeWarnings ws c) = definitions c
  ∧ values (storeWarnings ws c) = values c
  ∧ secrets (storeWarnings ws c) = secrets c
  ∧ same_sources c (storeWarnings ws c)
  ∧ processed (storeWarnings ws c) = processed c.
Proof. by destruct ws. Qed.

Lemma Process_eq w ord h c :
  Process w ord h c =
  match registerFlags (register_order ord) (set_processed true (clearPrevious h c).2) with
  | inl p => Panicked p
  | inr cr =>
      let '(errs, h', c') :=
        foldl (processDefinition w) ([], (clearPrevious h c).1, parseFlags w cr)
              (resolve_order ord) in
      Returned errs h' (storeWarnings (checkSourceOverrides w c' (override_order ord)) c')
  end.
Proof. unfold Process. by destruct (clearPrevious h c). Qed.

(** [Process] panics exactly when the registration of a flag does. *)
Lemma Process_panics w ord h c p :
  entryConfig w ord c = inl p → Process w ord h c = Panicked p.
Proof.
  unfold entryConfig. intros Hreg. rewrite Process_eq.
  rewrite (registerFlags_neutral _ _ _ (clear_neutral h)).
  destruct (registerFlags (register_order ord) c); [|done].
  by injection Hreg as ->.
Qed.

(** Otherwise it returns one error record per failing key, in the order of
    the range, and leaves the entries of every key of the range. *)
Lemma Process_returns w ord h c cP :
  entryConfig w ord c = inr cP →
  NoDup (resolve_order ord).*1 →
  ∃ h' c',
    Process w ord h c = Returned (omap (error_record w cP) (resolve_order ord)) h' c'
    ∧ definitions c' = definitions c
    ∧ same_sources cP c'
    ∧ processed c' = true
    ∧ (clearPrevious h c).1 ⊆ h'
    ∧ (∀ k, k ∉ (resolve_order ord).*1 →
            values c' !! k = values (clearPrevious h c).2 !! k
            ∧ secrets c' !! k = secrets (clearPrevious h c).2 !! k)
    ∧ (∀ k def, (k, def) ∈ resolve_order ord →
            key_post w cP (clearPrevious h c).2 (clearPrevious h c).1 c' h' k def).
Proof.
  unfold entryConfig. intros Hreg Hnd. rewrite Process_eq.
  rewrite (registerFlags_neutral _ _ _ (clear_neutral h)).
  set (h0 := (clearPrevious h c).1). set (c0 := (clearPrevious h c).2).
  assert (c0 = (clearPrevious h c).2) as Hc0 by done.
  destruct (registerFlags (register_order ord) c) as [p|cr] eqn:Er; [done|].
  injection Hreg as <-. cbn [sum_map].
  set (cs := parseFlags w (set_processed true (clearPrevious h cr).2)).
  assert (same_sources (parseFlags w cr) cs) as Hsrc.
  { unfold cs, parseFlags, clearPrevious. simpl. by destruct (processed cr). }
  apply registerFlags_frame in Er as (Hd & Hv & Hs & Hf & Hp & Ho & _).
  assert (values cs = values c0 ∧ secrets cs = secrets c0 ∧ definitions cs = definitions c
          ∧ processed cs = true) as (Hv0 & Hs0 & Hd0 & Hp0).
  { rewrite Hc0. unfold cs, parseFlags, clearPrevious. rewrite Hp. simpl.
    destruct (processed c); simpl; by rewrite ?Hv, ?Hs, ?Hd. }
  destruct (foldl (processDefinition w) ([], h0, cs) (resolve_order ord))
    as [[errs h'] c'] eqn:Eloop.
  apply process_loop in Eloop as (-> & Hd' & Hs' & Hp' & Ho' & Hh' & Hout & Hin); [|done].
  eexists h', _. split; [|split; [|split; [|split; [|split; [|split]]]]].
  - simpl. f_equal. apply omap_error_record_same. by symmetry.
  - destruct (storeWarnings_frame
                (checkSourceOverrides w c' (override_order ord)) c') as (-> & _). congruence.
  - destruct (storeWarnings_frame
                (checkSourceOverrides w c' (override_order ord)) c') as (_ & _ & _ & Hsw & _).
    etrans; [exact Hsrc|]. by etrans.
  - destruct (storeWarnings_frame
                (checkSourceOverrides w c' (override_order ord)) c') as (_ & _ & _ & _ & ->).
    congruence.
  - done.
  - intros k Hk. destruct (storeWarnings_frame
                (checkSourceOverrides w c' (override_order ord)) c') as (_ & -> & -> & _).
    destruct (Hout k Hk) as [-> ->]. by rewrite Hv0, Hs0.
  - intros k def Hkd. specialize (Hin k def Hkd).
    apply (key_post_same w cs); [by symmetry|].
    unfold key_post in *. simpl.
    destruct (storeWarnings_frame
                (checkSourceOverrides w c' (override_order ord)) c') as (_ & -> & -> & _).
    by rewrite <- Hv0, <- Hs0.
Qed.

Lemma entryConfig_frame w ord c cP :
  entryConfig w ord c = inr cP →
  definitions cP = definitions c ∧ fileConfig cP = fileConfig c
  ∧ (∀ k def, (k, def) ∈ register_order ord → flag def ≠ "" →
              is_Some (flagValues cP !! k)).
Proof.
  unfold entryConfig. destruct (registerFlags (register_order ord) c) as [p|cr] eqn:Er; [done|].
  intros [= <-]. apply registerFlags_frame in Er as (Hd & _ & _ & Hf & _ & _ & _ & Hreg).
  repeat split; try done. intros k def Hin Hflag.
  apply (Hreg (k, def) Hin). simpl. apply negb_true_iff. by apply String.eqb_neq.
Qed.

Lemma ranges_over_resolve ord c :
  ranges_over ord c →
  NoDup (resolve_order ord).*1
  ∧ ∀ k def, (k, def) ∈ resolve_order ord ↔ definitions c !! k = Some def.
Proof.
  intros (_ & Hr & _). split.
  - rewrite Hr. apply NoDup_fst_map_to_list.
  - intros k def. rewrite Hr. apply elem_of_map_to_list.
Qed.

Lemma ranges_over_register ord c k def :
  ranges_over ord c → definitions c !! k = Some def → (k, def) ∈ register_order ord.
Proof. intros (Hr & _ & _) Hk. rewrite Hr. by apply elem_of_map_to_list. Qed.

(** ** Single resolutions *)

Lemma eqb_empty_false (s : string) : s ≠ "" → String.eqb s "" = false.
Proof. intros Hs. by apply String.eqb_neq. Qed.

(** No source and no default: absence, or the error of a required key. *)
Lemma resolve_absent w c k def :
  getFileValue c k = None →
  (envVar def = "" ∨ Getenv w (envVar def) = "") →
  (flag def = "" ∨ flagString c k = "") →
  defaultValue def = None →
  resolveValueWithFiles w c k def =
    if required def
    then (None, "none",
          Some ("required value not provided (set in file, " +:+ envVar def
                +:+ " or --" +:+ flag def +:+ ")"))
    else (None, "none", None).
Proof.
  intros Hfile Henv Hflag Hdef. unfold resolveValueWithFiles.
  rewrite Hfile, Hdef. cbn [fmap option_fmap option_map].
  assert ((if String.eqb "" "" && negb (String.eqb (envVar def) "")
           then if negb (String.eqb (Getenv w (envVar def)) "")
                then (Getenv w (envVar def), "env") else ("", "")
           else ("", "")) = ("", "")) as ->.
  { destruct Henv as [-> | ->]; [done|]. simpl. by destruct (negb _). }
  assert ((if String.eqb "" "" && negb (String.eqb (flag def) "")
           then if negb (String.eqb (flagString c k) "")
                then (flagString c k, "flag") else ("", "")
           else ("", "")) = ("", "")) as ->.
  { destruct Hflag as [-> | ->]; [done|]. simpl. by destruct (negb _). }
  done.
Qed.

(** A non-empty environment variable and no file value: the variable is
    parsed and validated, whatever the flag holds. *)
Lemma resolve_env w c k def :
  getFileValue c k = None →
  envVar def ≠ "" → Getenv w (envVar def) ≠ "" →
  resolveValueWithFiles w c k def =
    match parseValue (Getenv w (envVar def)) (valueType def) (delimiter def) with
    | (_, Some err) => (Some (VString (Getenv w (envVar def))), "env", Some err)
    | (parsedValue, None) =>
        (parsedValue, "env", runValidations (validations def) parsedValue)
    end.
Proof.
  intros Hfile Hvar Henv. unfold resolveValueWithFiles.
  rewrite Hfile. cbn [fmap option_fmap option_map].
  rewrite (eqb_empty_false _ Hvar), (eqb_empty_false _ Henv). simpl.
  rewrite (eqb_empty_false _ Henv). simpl.
  by rewrite (eqb_empty_false _ Henv).
Qed.

Lemma parseValue_string raw delim :
  raw ≠ "" → parseValue raw TypeString delim = (Some (VString raw), None).
Proof. intros Hraw. unfold parseValue. by rewrite (eqb_empty_false _ Hraw). Qed.

(** ** The entries of a key after [Process] *)

Lemma key_post_resolved w cP c0 h0 c' h' k def value source :
  key_post w cP c0 h0 c' h' k def →
  resolveValueWithFiles w cP k def = (value, source, None) →
  if secret def && bool_decide (is_Some value)
  then values c' !! k = Some (Some (VString "[SECRET]"))
       ∧ (∃ a, secrets c' !! k = Some a ∧ (a ∉ dom h0)
               ∧ h' !! a = Some (newSecret (Sprint value)))
  else values c' !! k = Some value ∧ secrets c' !! k = secrets c0 !! k.
Proof. unfold key_post. intros Hpost Hres. by rewrite Hres in Hpost. Qed.

Lemma string_length_pos (s : string) : s ≠ "" → (0 <? Z.of_nat (String.length s))%Z = true.
Proof. destruct s; [done|]. intros _. simpl. apply Z.ltb_lt. lia. Qed.

(** C10: a defined, optional, non-secret key with no source and no default
    is stored with a nil value: [Has] is false, [GetOr] returns its
    default, and [Get] panics in its type assertion, not in its
    key-not-found branch. *)
Theorem unset_key_is_stored_nil w ord h c cP k def T (d : any) :
  ranges_over ord c →
  entryConfig w ord c = inr cP →
  definitions c !! k = Some def →
  required def = false → secret def = false → defaultValue def = None →
  getFileValue c k = None →
  (envVar def = "" ∨ Getenv w (envVar def) = "") →
  (flag def = "" ∨ flagString cP k = "") →
  ∃ errs h' c',
    Process w ord h c = Returned errs h' c'
    ∧ values c' !! k = Some None
    ∧ Has c' k = false
    ∧ GetOr T c' k d = d
    ∧ Get T c' k = GetPanic ("commandkit: key '" +:+ k +:+ "' has type <nil>, not "
                             +:+ zero_type_name T).
Proof.
  intros Hord Hentry Hk Hreq Hsec Hdef Hfile Henv Hflag.
  destruct (ranges_over_resolve ord c Hord) as [Hnd Hmem].
  destruct (entryConfig_frame w ord c cP Hentry) as (HdP & HfP & _).
  destruct (Process_returns w ord h c cP Hentry Hnd)
    as (h' & c' & HP & Hd' & Hs' & Hp' & Hh' & Hout & Hin).
  exists (omap (error_record w cP) (resolve_order ord)), h', c'.
  split; [done|].
  assert (resolveValueWithFiles w cP k def = (None, "none", None)) as Hres.
  { rewrite (resolve_absent w cP k def); try done.
    - by rewrite Hreq.
    - by rewrite (getFileValue_same cP c). }
  pose proof (key_post_resolved _ _ _ _ _ _ _ _ _ _
                (Hin k def (proj2 (Hmem k def) Hk)) Hres) as Hpost.
  rewrite Hsec in Hpost. simpl in Hpost. destruct Hpost as [Hv _].
  assert (IsSecret c' k = false) as Hnot.
  { unfold IsSecret. by rewrite Hd', Hk. }
  unfold Has, GetOr, Get. rewrite Hv, Hnot. done.
Qed.

(** C3: a secret String key whose value comes from a non-empty environment
    variable [v] (no file value, the validation chain, which holds the
    required rule of a required key, accepting [v]): the values map holds
    the placeholder only, the handle of the vault is set, has the size of
    [v] and reads [v], and [Get] panics. *)
Theorem secret_from_environment w ord h c cP k def v T :
  ranges_over ord c →
  entryConfig w ord c = inr cP →
  definitions c !! k = Some def →
  valueType def = TypeString → secret def = true →
  getFileValue c k = None →
  envVar def ≠ "" → Getenv w (envVar def) = v → v ≠ "" →
  runValidations (validations def) (Some (VString v)) = None →
  ∃ errs h' c',
    Process w ord h c = Returned errs h' c'
    ∧ values c' !! k = Some (Some (VString "[SECRET]"))
    ∧ Secret_IsSet (load h' (GetSecret c' k)) = true
    ∧ Secret_Size (load h' (GetSecret c' k)) = Z.of_nat (String.length v)
    ∧ Secret_String (load h' (GetSecret c' k)) = v
    ∧ Get T c' k = GetPanic ("commandkit: key '" +:+ k
                             +:+ "' is a secret, use GetSecret() instead").
Proof.
  intros Hord Hentry Hk Hty Hsec Hfile Hvar Henv Hv Hvalid.
  destruct (ranges_over_resolve ord c Hord) as [Hnd Hmem].
  destruct (entryConfig_frame w ord c cP Hentry) as (HdP & HfP & _).
  destruct (Process_returns w ord h c cP Hentry Hnd)
    as (h' & c' & HP & Hd' & Hs' & Hp' & Hh' & Hout & Hin).
  exists (omap (error_record w cP) (resolve_order ord)), h', c'.
  split; [done|].
  assert (resolveValueWithFiles w cP k def = (Some (VString v), "env", None)) as Hres.
  { rewrite (resolve_env w cP k def); try done.
    - rewrite Henv, Hty, (parseValue_string v _ Hv). by rewrite Hvalid.
    - by rewrite (getFileValue_same cP c).
    - by rewrite Henv. }
  pose proof (key_post_resolved _ _ _ _ _ _ _ _ _ _
                (Hin k def (proj2 (Hmem k def) Hk)) Hres) as Hpost.
  rewrite Hsec in Hpost. simpl in Hpost.
  destruct Hpost as [Hval (a & Ha & _ & Hha)].
  assert (load h' (GetSecret c' k) = mkSecret (Some v)) as ->.
  { unfold GetSecret, SecretStore_Get, load. rewrite Ha, Hha. simpl.
    unfold newSecret. by rewrite (eqb_empty_false _ Hv). }
  assert (IsSecret c' k = true) as Hyes.
  { unfold IsSecret. by rewrite Hd', Hk. }
  unfold Get. rewrite Hval, Hyes.
  repeat split; try done. by apply string_length_pos.
Qed.

(** ** Registration succeeds on well-formed flag names *)

(** The flags that [Process] still has to register are well-formed: no
    name begins with [-] or contains [=], none is defined in the flag set
    already, and no two keys share a name.  (Anything else is a mistake in
    the program that builds the definitions, and makes the flag package
    panic.) *)
Definition unregistered c k def : Prop := flag def ≠ "" ∧ flagValues c !! k = None.

Definition registrable_in c order : Prop :=
  (∀ k def, (k, def) ∈ order → unregistered c k def →
     Strings.HasPrefix (flag def) "-" = false
     ∧ Strings.Contains (flag def) "=" = false
     ∧ Flag.formal (flagSet c) !! flag def = None)
  ∧ (∀ k1 d1 k2 d2, (k1, d1) ∈ order → (k2, d2) ∈ order → k1 ≠ k2 →
       unregistered c k1 d1 → unregistered c k2 d2 → flag d1 ≠ flag d2).

Definition registrable c : Prop := registrable_in c (map_to_list (definitions c)).

Lemma registerFlags_succeeds order : ∀ c,
  NoDup order.*1 → registrable_in c order → ∃ c', registerFlags order c = inr c'.
Proof.
  unfold registerFlags.
  induction order as [|[k def] rest IH]; intros c Hnd [Hok Hdist]; [by eexists|].
  rewrite fmap_cons in Hnd. apply NoDup_cons in Hnd as [Hk Hnd]. cbn [foldl].
  assert (∀ k2 d2, (k2, d2) ∈ rest → k2 ≠ k) as Hne.
  { intros k2 d2 Hin ->. apply Hk. apply list_elem_of_fmap. by exists (k, d2). }
  assert (registrable_in c rest) as Hrest.
  { split.
    - intros k2 d2 Hin. apply Hok. by right.
    - intros k1 d1 k2 d2 H1 H2. apply Hdist; by right. }
  unfold registerFlag at 2.
  destruct (negb (String.eqb (flag def) "")) eqn:Hflag; [|by apply IH].
  destruct (flagValues c !! k) eqn:Hfv; [by apply IH|].
  assert (unregistered c k def) as Hun.
  { split; [|done]. apply String.eqb_neq. by apply negb_true_iff. }
  destruct (Hok k def (list_elem_of_here _ _) Hun) as (Hdash & Heq & Hformal).
  unfold Flag.String_. rewrite Hdash, Heq, Hformal.
  apply IH; [done|]. split.
  - intros k2 d2 Hin [Hf2 Hv2]. simpl in Hv2.
    rewrite lookup_insert_ne in Hv2 by (symmetry; by eapply Hne).
    destruct (Hok k2 d2 (list_elem_of_further _ _ _ Hin) (conj Hf2 Hv2)) as (? & ? & Hform2).
    repeat split; try done. simpl. rewrite lookup_insert_ne; [done|].
    apply (Hdist k def k2 d2); try done; [by left|by right|].
    intros ->. by eapply Hne.
  - intros k1 d1 k2 d2 H1 H2 Hk12 [Hf1 Hv1] [Hf2 Hv2]. simpl in Hv1, Hv2.
    rewrite lookup_insert_ne in Hv1 by (symmetry; by eapply Hne).
    rewrite lookup_insert_ne in Hv2 by (symmetry; by eapply Hne).
    apply (Hdist k1 d1 k2 d2); try done; by right.
Qed.

Lemma registrable_in_perm c order order' :
  order ≡ₚ order' → registrable_in c order' → registrable_in c order.
Proof.
  intros Hp [Hok Hdist]. split.
  - intros k def Hin. apply Hok. by rewrite <- Hp.
  - intros k1 d1 k2 d2 H1 H2. apply Hdist; by rewrite <- Hp.
Qed.

Lemma entryConfig_succeeds w ord c :
  ranges_over ord c → registrable c → ∃ cP, entryConfig w ord c = inr cP.
Proof.
  intros (Hr & _ & _) Hreg. unfold entryConfig.
  destruct (registerFlags_succeeds (register_order ord) c) as [c' ->]; [| |by eexists].
  - rewrite Hr. apply NoDup_fst_map_to_list.
  - by eapply registrable_in_perm.
Qed.

(** ** One error record per failing key *)

Lemma error_record_key w c kd e : error_record w c kd = Some e → Key e = kd.1.
Proof.
  unfold error_record.
  destruct (resolveValueWithFiles w c kd.1 kd.2) as [[value source] [msg|]]; [|done].
  by intros [= <-].
Qed.

Lemma errors_of_key w c order k def :
  NoDup order.*1 → (k, def) ∈ order →
  filter (fun e => Key e = k) (omap (error_record w c) order)
  = option_list (error_record w c (k, def)).
Proof.
  induction order as [|[k0 d0] rest IH]; intros Hnd Hin; [by apply elem_of_nil in Hin|].
  rewrite fmap_cons in Hnd. apply NoDup_cons in Hnd as [Hk0 Hnd].
  assert (∀ d, (k0, d) ∉ rest) as Hfresh.
  { intros d Hd. apply Hk0. apply list_elem_of_fmap. by exists (k0, d). }
  assert (∀ l, (∀ kd, kd ∈ l → kd.1 ≠ k0) →
               filter (fun e => Key e = k0) (omap (error_record w c) l) = []) as Hnone.
  { induction l as [|kd l IHl]; intros Hl; [done|]. cbn [omap list_omap].
    destruct (error_record w c kd) as [e|] eqn:He.
    - rewrite filter_cons_False.
      + apply IHl. intros kd' Hkd'. apply Hl. by right.
      + rewrite (error_record_key w c kd e He). apply Hl. by left.
    - apply IHl. intros kd' Hkd'. apply Hl. by right. }
  cbn [omap list_omap]. apply elem_of_cons in Hin as [[= -> ->]|Hin].
  - destruct (error_record w c (k0, d0)) as [e|] eqn:He; simpl.
    + rewrite filter_cons_True by by apply (error_record_key w c (k0, d0)).
      f_equal. apply Hnone. intros [k1 d1] Hin Heq. simpl in Heq. subst k1. by apply (Hfresh d1).
    + apply Hnone. intros [k1 d1] Hin Heq. simpl in Heq. subst k1. by apply (Hfresh d1).
  - assert (k ≠ k0) as Hne by (intros ->; by apply (Hfresh def)).
    destruct (error_record w c (k0, d0)) as [e|] eqn:He.
    + rewrite filter_cons_False; [by apply IH|].
      rewrite (error_record_key w c (k0, d0) e He). simpl. congruence.
    + by apply IH.
Qed.

(** C4: on definitions with well-formed flags, [Process] returns for every
    environment, command line, file data, heap and order of iteration; its
    list holds exactly one record for every key whose resolution fails and
    none for the others, whose entries are stored; a required key with no
    file, flag, environment or default value is one of the failing keys,
    with the required-missing message. *)
Theorem process_collects_all_errors w ord h c :
  ranges_over ord c → registrable c →
  ∃ cP errs h' c',
    entryConfig w ord c = inr cP
    ∧ Process w ord h c = Returned errs h' c'
    ∧ errs = omap (error_record w cP) (resolve_order ord)
    ∧ ∀ k def, definitions c !! k = Some def →
        filter (fun e => Key e = k) errs = option_list (error_record w cP (k, def))
        ∧ (error_record w cP (k, def) = None → is_Some (values c' !! k))
        ∧ (required def = true → defaultValue def = None →
           getFileValue c k = None →
           (envVar def = "" ∨ Getenv w (envVar def) = "") →
           (flag def = "" ∨ flagString cP k = "") →
           error_record w cP (k, def)
           = Some (mkConfigError k "none" ""
                     ("required value not provided (set in file, " +:+ envVar def
                      +:+ " or --" +:+ flag def +:+ ")"))).
Proof.
  intros Hord Hreg.
  destruct (entryConfig_succeeds w ord c Hord Hreg) as [cP Hentry].
  destruct (ranges_over_resolve ord c Hord) as [Hnd Hmem].
  destruct (entryConfig_frame w ord c cP Hentry) as (HdP & HfP & _).
  destruct (Process_returns w ord h c cP Hentry Hnd)
    as (h' & c' & HP & Hd' & Hs' & Hp' & Hh' & Hout & Hin).
  exists cP, (omap (error_record w cP) (resolve_order ord)), h', c'.
  split; [done|]. split; [done|]. split; [done|].
  intros k def Hk. pose proof (proj2 (Hmem k def) Hk) as Hkd.
  split; [by apply errors_of_key|]. split.
  - intros Hnone. specialize (Hin k def Hkd). unfold key_post in Hin.
    unfold error_record in Hnone. simpl in Hnone.
    destruct (resolveValueWithFiles w cP k def) as [[value source] [msg|]]; [done|].
    destruct (secret def && bool_decide (is_Some value)); destruct Hin as [-> _]; by eexists.
  - intros Hreq Hdef Hfile Henv Hflag. unfold error_record. simpl.
    rewrite (resolve_absent w cP k def); try done.
    + by rewrite Hreq.
    + by rewrite (getFileValue_same cP c).
Qed.

Lemma omap_nil_inv {A B} (f : A → option B) (l : list A) x :
  omap f l = [] → x ∈ l → f x = None.
Proof.
  induction l as [|y l IH]; intros Hnil Hin; [by apply elem_of_nil in Hin|].
  cbn [omap list_omap] in Hnil. destruct (f y) eqn:Hy; [done|].
  apply elem_of_cons in Hin as [->|Hin]; [done|]. by apply IH.
Qed.

(** C2, as the code has it: after a successful [Process] every defined
    key has an entry in the values map: its resolved value (nil when no
    source gave one) or, for a secret key with a value, the placeholder;
    and the vault has an entry exactly for the secret keys with a value. *)
Theorem successful_process_entries w ord h c h' c' :
  ranges_over ord c → initial_or_processed c →
  Process w ord h c = Returned [] h' c' →
  ∃ cP, entryConfig w ord c = inr cP
    ∧ ∀ k def, definitions c !! k = Some def →
        ∃ value source,
          resolveValueWithFiles w cP k def = (value, source, None)
          ∧ values c' !! k
            = Some (if secret def && bool_decide (is_Some value)
                    then Some (VString "[SECRET]") else value)
          ∧ (is_Some (secrets c' !! k) ↔ secret def = true ∧ is_Some value).
Proof.
  intros Hord Hinit HP.
  destruct (entryConfig w ord c) as [p|cP] eqn:Hentry.
  { by rewrite (Process_panics w ord h c p Hentry) in HP. }
  exists cP. split; [done|].
  destruct (ranges_over_resolve ord c Hord) as [Hnd Hmem].
  destruct (Process_returns w ord h c cP Hentry Hnd)
    as (h2 & c2 & HP2 & Hd' & Hs' & Hp' & Hh' & Hout & Hin).
  rewrite HP in HP2. injection HP2 as Herrs <- <-.
  destruct (clearPrevious_maps h c Hinit) as [_ Hsec0].
  intros k def Hk. pose proof (proj2 (Hmem k def) Hk) as Hkd.
  pose proof (omap_nil_inv _ _ _ (eq_sym Herrs) Hkd) as Hnone.
  specialize (Hin k def Hkd). unfold key_post in Hin.
  unfold error_record in Hnone. simpl in Hnone.
  destruct (resolveValueWithFiles w cP k def) as [[value source] [msg|]]; [done|].
  exists value, source. split; [done|].
  destruct (secret def) eqn:Hsec; simpl in *.
  - destruct (bool_decide (is_Some value)) eqn:Hval.
    + destruct Hin as [-> (a & -> & _)]. split; [done|]. split; [|by eexists].
      intros _. split; [done|]. by apply bool_decide_eq_true in Hval.
    + destruct Hin as [-> ->]. split; [done|]. rewrite Hsec0, lookup_empty.
      apply bool_decide_eq_false in Hval. split; [by intros [? ?]|by intros [_ ?]].
  - destruct Hin as [-> ->]. split; [done|]. rewrite Hsec0, lookup_empty.
    split; [by intros [? ?]|by intros [? _]].
Qed.

(** ** Default values *)

(** What the validation of a default value returns: the error of the
    first rule, among those not named "required", that rejects it. *)
Lemma validateDefault_None vs value :
  validateDefault vs value = None
  ↔ ∀ r, r ∈ vs → Name r ≠ "required" → Check r value = None.
Proof.
  induction vs as [|v rest IH]; simpl.
  - split; [|done]. intros _ r Hr. by apply elem_of_nil in Hr.
  - destruct (String.eqb (Name v) "required") eqn:Hn.
    + apply String.eqb_eq in Hn. rewrite IH. split.
      * intros H r [->|Hr]%elem_of_cons; [done|]. by apply H.
      * intros H r Hr. apply H. by right.
    + apply String.eqb_neq in Hn. destruct (Check v value) as [e|] eqn:Hc.
      * split; [done|]. intros H. specialize (H v (list_elem_of_here _ _) Hn). congruence.
      * rewrite IH. split.
        -- intros H r [->|Hr]%elem_of_cons; [done|]. by apply H.
        -- intros H r Hr. apply H. by right.
Qed.

Lemma validateDefault_Some vs value e :
  validateDefault vs value = Some e
  ↔ ∃ pre r post, vs = pre ++ r :: post ∧ Name r ≠ "required" ∧ Check r value = Some e
      ∧ ∀ r', r' ∈ pre → Name r' ≠ "required" → Check r' value = None.
Proof.
  induction vs as [|v rest IH]; simpl.
  - split; [done|]. intros (pre & r & post & Heq & _). by destruct pre.
  - destruct (String.eqb (Name v) "required") eqn:Hn.
    + apply String.eqb_eq in Hn. rewrite IH. split.
      * intros (pre & r & post & -> & Hr & Hc & Hpre).
        exists (v :: pre), r, post. repeat split; try done.
        intros r' [->|Hin]%elem_of_cons; [done|]. by apply Hpre.
      * intros (pre & r & post & Heq & Hr & Hc & Hpre).
        destruct pre as [|v' pre]; simpl in Heq; injection Heq as <- ->; [congruence|].
        exists pre, r, post. repeat split; try done.
        intros r' Hin. apply Hpre. by right.
    + apply String.eqb_neq in Hn. destruct (Check v value) as [e'|] eqn:Hc.
      * split.
        -- intros [= ->]. exists [], v, rest. repeat split; try done.
           intros r' Hin. by apply elem_of_nil in Hin.
        -- intros (pre & r & post & Heq & Hr & Hcr & Hpre).
           destruct pre as [|v' pre]; simpl in Heq; injection Heq as <- ->; [congruence|].
           specialize (Hpre v (list_elem_of_here _ _) Hn). congruence.
      * rewrite IH. split.
        -- intros (pre & r & post & -> & Hr & Hcr & Hpre).
           exists (v :: pre), r, post. repeat split; try done.
           intros r' [->|Hin]%elem_of_cons; [done|]. by apply Hpre.
        -- intros (pre & r & post & Heq & Hr & Hcr & Hpre).
           destruct pre as [|v' pre]; simpl in Heq; injection Heq as <- ->; [congruence|].
           exists pre, r, post. repeat split; try done.
           intros r' Hin. apply Hpre. by right.
Qed.

(** C6: with a default and no value from file, environment or flag, the
    resolution returns the default with source "default"; its error is
    nil exactly when every rule not named "required" accepts the default,
    and otherwise the error of the first such rule that rejects it. *)
Theorem default_is_validated_without_required w c k def d :
  defaultValue def = Some d →
  (∀ fv, getFileValue c k = Some fv → fileValueString def fv = inl "") →
  (envVar def = "" ∨ Getenv w (envVar def) = "") →
  (flag def = "" ∨ flagString c k = "") →
  ∃ err,
    resolveValueWithFiles w c k def = (Some d, "default", err)
    ∧ (err = None ↔
       ∀ r, r ∈ validations def → Name r ≠ "required" → Check r (Some d) = None)
    ∧ (∀ e, err = Some e ↔
       ∃ pre r post, validations def = pre ++ r :: post
         ∧ Name r ≠ "required" ∧ Check r (Some d) = Some e
         ∧ ∀ r', r' ∈ pre → Name r' ≠ "required" → Check r' (Some d) = None).
Proof.
  intros Hdef Hfile Henv Hflag.
  exists (validateDefault (validations def) (Some d)).
  split; [|split; [apply validateDefault_None|intros e; apply validateDefault_Some]].
  unfold resolveValueWithFiles.
  assert (fileValueString def <$> getFileValue c k = None
          ∨ fileValueString def <$> getFileValue c k = Some (inl "")) as Hraw.
  { destruct (getFileValue c k) as [fv|]; [|by left]. right. simpl. by rewrite (Hfile fv). }
  assert ((if String.eqb "" "" && negb (String.eqb (envVar def) "")
           then if negb (String.eqb (Getenv w (envVar def)) "")
                then (Getenv w (envVar def), "env") else ("", "")
           else ("", "")) = ("", "")) as Henv0.
  { destruct Henv as [-> | ->]; [done|]. simpl. by destruct (negb _). }
  assert ((if String.eqb "" "" && negb (String.eqb (envVar def) "")
           then if negb (String.eqb (Getenv w (envVar def)) "")
                then (Getenv w (envVar def), "env") else ("", "file")
           else ("", "file")) = ("", "file")) as Henv1.
  { destruct Henv as [-> | ->]; [done|]. simpl. by destruct (negb _). }
  assert (∀ src, (if String.eqb "" "" && negb (String.eqb (flag def) "")
           then if negb (String.eqb (flagString c k) "")
                then (flagString c k, "flag") else ("", src)
           else ("", src)) = ("", src)) as Hflag0.
  { intros src. destruct Hflag as [-> | ->]; [done|]. simpl.
    by destruct (negb (String.eqb (flag def) "")). }
  destruct Hraw as [-> | ->].
  - rewrite Henv0, Hflag0, Hdef. done.
  - rewrite Henv1, Hflag0, Hdef. done.
Qed.

(** ** File values *)

(** C5, as the code has it: a file value whose string is not empty is the
    value parsed and validated, with source "file", whatever the
    environment and the flags hold. *)
Theorem file_value_wins w c k def fv raw :
  getFileValue c k = Some fv →
  fileValueString def fv = inl raw →
  raw ≠ "" →
  resolveValueWithFiles w c k def =
    match parseValue raw (valueType def) (delimiter def) with
    | (_, Some err) => (Some (VString raw), "file", Some err)
    | (parsedValue, None) =>
        (parsedValue, "file", runValidations (validations def) parsedValue)
    end.
Proof.
  intros Hfile Hstr Hraw. unfold resolveValueWithFiles.
  rewrite Hfile. cbn [fmap option_fmap option_map]. rewrite Hstr.
  repeat (rewrite (eqb_empty_false _ Hraw); simpl). done.
Qed.

(** ** parseValue *)

Lemma collect_strings_filter parts :
  collect_strings parts
  = List.filter (fun p => negb (String.eqb p "")) (map Strings.TrimSpace parts).
Proof.
  induction parts as [|p rest IH]; [done|]. simpl.
  destruct (negb (String.eqb (Strings.TrimSpace p) "")); by rewrite IH.
Qed.

(** C9: "a,,b" split at "," is the list of "a" and "b"; the empty string is
    nil without error for every type; and every other string list is the
    non-empty trimmed pieces of the split. *)
Theorem string_list_parsing :
  parseValue "a,,b" TypeStringSlice "," = (Some (VStringSlice ["a"; "b"]), None)
  ∧ (∀ valueType delim, parseValue "" valueType delim = (None, None))
  ∧ (∀ raw delim,
       parseValue raw TypeStringSlice delim
       = if String.eqb raw "" then (None, None)
         else (Some (VStringSlice
                       (List.filter (fun p => negb (String.eqb p ""))
                                    (map Strings.TrimSpace (Strings.Split raw delim)))),
               None)).
Proof.
  split; [by vm_compute|]. split; [done|].
  intros raw delim. unfold parseValue.
  destruct (String.eqb raw ""); [done|]. by rewrite collect_strings_filter.
Qed.

(** ** Parsing the same command line twice *)

(** The assignments [Flag.parse] makes, given the set of defined flags. *)
Fixpoint parse_trace (D : gset string) (args : list string) : list (string * string) :=
  match args with
  | [] => []
  | s :: rest =>
      match Flag.flag_syntax s with
      | None => []
      | Some (nm, oval) =>
          if bool_decide (nm ∈ D) then
            match oval, rest with
            | Some v, _ => (nm, v) :: parse_trace D rest
            | None, v :: rest' => (nm, v) :: parse_trace D rest'
            | None, [] => []
            end
          else []
      end
  end.

Definition assign (m : gmap string string) (nv : string * string) : gmap string string :=
  <[nv.1 := nv.2]> m.

(** The last value a trace assigns to a name. *)
Fixpoint assigned (tr : list (string * string)) (nm : string) : option string :=
  match tr with
  | [] => None
  | nv :: tr' =>
      match assigned tr' nm with
      | Some v => Some v
      | None => if bool_decide (nv.1 = nm) then Some nv.2 else None
      end
  end.

Lemma lookup_assign_trace tr : ∀ m nm,
  foldl assign m tr !! nm = match assigned tr nm with Some v => Some v | None => m !! nm end.
Proof.
  induction tr as [|[n v] tr IH]; intros m nm; [done|].
  cbn [foldl assigned]. rewrite IH. destruct (assigned tr nm); [done|].
  unfold assign. simpl. case_bool_decide as Hn.
  - subst. by rewrite lookup_insert_eq.
  - by rewrite lookup_insert_ne.
Qed.

Lemma assign_trace_idem tr m : foldl assign (foldl assign m tr) tr = foldl assign m tr.
Proof.
  apply map_eq. intros nm. rewrite !lookup_assign_trace. by destruct (assigned tr nm).
Qed.

Lemma dom_assign_trace tr : ∀ m,
  (∀ nv, nv ∈ tr → nv.1 ∈ dom m) → dom (foldl assign m tr) = dom m.
Proof.
  induction tr as [|[n v] tr IH]; intros m Hin; [done|].
  cbn [foldl]. assert (dom (assign m (n, v)) = dom m) as Hd.
  { unfold assign. simpl. rewrite dom_insert_L.
    specialize (Hin (n, v) (list_elem_of_here _ _)). simpl in Hin.
    apply subseteq_union_1_L. by apply singleton_subseteq_l. }
  rewrite IH; [done|]. intros nv Hnv. rewrite Hd. apply Hin. by right.
Qed.

Lemma parse_trace_defined D args : ∀ nv, nv ∈ parse_trace D args → nv.1 ∈ D.
Proof.
  induction args as [args IH] using (induction_ltof1 _ (@List.length string)).
  unfold ltof in IH. destruct args as [|s rest]; intros nv Hnv; [by apply elem_of_nil in Hnv|].
  simpl in Hnv. destruct (Flag.flag_syntax s) as [[nm oval]|]; [|by apply elem_of_nil in Hnv].
  case_bool_decide as HD; [|by apply elem_of_nil in Hnv].
  destruct oval as [v|].
  - apply elem_of_cons in Hnv as [->|Hnv]; [done|]. apply (IH rest); [simpl; lia|done].
  - destruct rest as [|v rest']; [by apply elem_of_nil in Hnv|].
    apply elem_of_cons in Hnv as [->|Hnv]; [done|]. apply (IH rest'); [simpl; lia|done].
Qed.

Lemma parse_as_trace args : ∀ fm,
  Flag.parse fm args = foldl assign fm (parse_trace (dom fm) args).
Proof.
  induction args as [args IH] using (induction_ltof1 _ (@List.length string)).
  unfold ltof in IH. destruct args as [|s rest]; intros fm; [done|].
  simpl. destruct (Flag.flag_syntax s) as [[nm oval]|]; [|done].
  destruct (fm !! nm) as [old|] eqn:Hnm.
  - assert (nm ∈ dom fm) as Hin by (apply elem_of_dom; by eexists).
    rewrite (bool_decide_eq_true_2 _ Hin).
    assert (∀ v, dom (<[nm := v]> fm) = dom fm) as Hdom.
    { intros v. rewrite dom_insert_L.
      apply subseteq_union_1_L. by apply singleton_subseteq_l. }
    destruct oval as [v|].
    + cbn [foldl]. unfold assign at 2. simpl.
      rewrite (IH rest) by (simpl; lia). by rewrite Hdom.
    + destruct rest as [|v rest']; [done|].
      cbn [foldl]. unfold assign at 2. simpl.
      rewrite (IH rest') by (simpl; lia). by rewrite Hdom.
  - assert (nm ∉ dom fm) as Hout by by apply not_elem_of_dom.
    by rewrite (bool_decide_eq_false_2 _ Hout).
Qed.

Lemma parse_idempotent fm args :
  Flag.parse (Flag.parse fm args) args = Flag.parse fm args.
Proof.
  rewrite (parse_as_trace args (Flag.parse fm args)), (parse_as_trace args fm).
  rewrite dom_assign_trace by apply parse_trace_defined.
  apply assign_trace_idem.
Qed.

(** ** Destroying the vault *)

Lemma DestroyAll_lookup h (ss : gmap string addr) :
  dom (SecretStore_DestroyAll h ss).1 = dom h
  ∧ (∀ k a, ss !! k = Some a → is_Some (h !! a) →
            (SecretStore_DestroyAll h ss).1 !! a = Some (mkSecret None)).
Proof.
  unfold SecretStore_DestroyAll. simpl.
  cut (dom (map_fold (fun (_ : string) a h' => alter Secret_Destroy a h') h ss) = dom h
       ∧ (∀ a, is_Some (h !! a) →
               is_Some (map_fold (fun (_ : string) a h' => alter Secret_Destroy a h') h ss !! a))
       ∧ ∀ k a, ss !! k = Some a → is_Some (h !! a) →
           map_fold (fun (_ : string) a h' => alter Secret_Destroy a h') h ss !! a
           = Some (mkSecret None)).
  { intros (? & _ & ?). by split. }
  apply (map_fold_weak_ind
           (fun r (m : gmap string addr) =>
              dom r = dom h
              ∧ (∀ a, is_Some (h !! a) → is_Some (r !! a))
              ∧ ∀ k a, m !! k = Some a → is_Some (h !! a) → r !! a = Some (mkSecret None))).
  - repeat split; try done.
  - intros k a m r Hk (Hdom & Hsome & Hdestroyed).
    split; [|split].
    + apply set_eq. intros x. rewrite <- Hdom, !elem_of_dom, lookup_alter.
      case_decide; [|done]. subst. by rewrite fmap_is_Some.
    + intros x Hx. rewrite lookup_alter. case_decide; [|by apply Hsome].
      subst. rewrite fmap_is_Some. by apply Hsome.
    + intros k' a' Hk' Ha'. rewrite lookup_alter. case_decide as Heq.
      * subst. destruct (Hsome a' Ha') as [s ->]. done.
      * apply lookup_insert_Some in Hk' as [[_ ->]|[_ Hk']]; [done|]. by eapply Hdestroyed.
Qed.

(** ** The maps a call of [Process] leaves *)

(** The entry of the values map for a key, if its resolution succeeds. *)
Definition stored_entry w cP k def : option any :=
  match resolveValueWithFiles w cP k def with
  | (value, _, None) =>
      Some (if secret def && bool_decide (is_Some value)
            then Some (VString "[SECRET]") else value)
  | _ => None
  end.

(** The text the vault stores for a key, if it stores one. *)
Definition secret_text w cP k def : option string :=
  match resolveValueWithFiles w cP k def with
  | (value, _, None) =>
      if secret def && bool_decide (is_Some value) then Some (Sprint value) else None
  | _ => None
  end.

Lemma stored_entry_same w c c' k def :
  same_sources c c' → stored_entry w c k def = stored_entry w c' k def.
Proof. intros Hs. unfold stored_entry. by rewrite (resolve_same_sources w c c'). Qed.

Lemma secret_text_same w c c' k def :
  same_sources c c' → secret_text w c k def = secret_text w c' k def.
Proof. intros Hs. unfold secret_text. by rewrite (resolve_same_sources w c c'). Qed.

Lemma Process_maps w ord h c cP errs h' c' :
  ranges_over ord c → initial_or_processed c →
  entryConfig w ord c = inr cP →
  Process w ord h c = Returned errs h' c' →
  errs = omap (error_record w cP) (resolve_order ord)
  ∧ definitions c' = definitions c ∧ same_sources cP c' ∧ processed c' = true
  ∧ (clearPrevious h c).1 ⊆ h'
  ∧ (∀ k, values c' !! k = definitions c !! k ≫= stored_entry w cP k)
  ∧ (∀ k, match definitions c !! k ≫= secret_text w cP k with
          | Some s => ∃ a, secrets c' !! k = Some a
                           ∧ (a ∉ dom (clearPrevious h c).1)
                           ∧ h' !! a = Some (newSecret s)
          | None => secrets c' !! k = None
          end).
Proof.
  intros Hord Hinit Hentry HP.
  destruct (ranges_over_resolve ord c Hord) as [Hnd Hmem].
  destruct (Process_returns w ord h c cP Hentry Hnd)
    as (h2 & c2 & HP2 & Hd' & Hs' & Hp' & Hh' & Hout & Hin).
  rewrite HP in HP2. injection HP2 as -> <- <-.
  destruct (clearPrevious_maps h c Hinit) as [Hval0 Hsec0].
  split; [done|]. split; [done|]. split; [done|]. split; [done|]. split; [done|].
  assert (∀ k, definitions c !! k = None → k ∉ (resolve_order ord).*1) as Hnot.
  { intros k Hk [[k' def] [-> Hkd]]%list_elem_of_fmap. apply Hmem in Hkd.
    simpl in Hk. congruence. }
  split.
  - intros k. destruct (definitions c !! k) as [def|] eqn:Hk; simpl.
    + specialize (Hin k def (proj2 (Hmem k def) Hk)).
      unfold key_post in Hin. unfold stored_entry.
      destruct (resolveValueWithFiles w cP k def) as [[value source] [msg|]].
      * destruct Hin as [-> _]. by rewrite Hval0.
      * destruct (secret def && bool_decide (is_Some value)); by destruct Hin as [-> _].
    + destruct (Hout k (Hnot k Hk)) as [-> _]. by rewrite Hval0.
  - intros k. destruct (definitions c !! k) as [def|] eqn:Hk; simpl.
    + specialize (Hin k def (proj2 (Hmem k def) Hk)).
      unfold key_post in Hin. unfold secret_text.
      destruct (resolveValueWithFiles w cP k def) as [[value source] [msg|]].
      * destruct Hin as [_ ->]. by rewrite Hsec0.
      * destruct (secret def && bool_decide (is_Some value)).
        -- by destruct Hin as [_ ?].
        -- destruct Hin as [_ ->]. by rewrite Hsec0.
    + destruct (Hout k (Hnot k Hk)) as [_ ->]. by rewrite Hsec0.
Qed.

(** A processed configuration has every flag registered, so a second
    [Process] registers nothing and cannot panic. *)
Lemma entryConfig_again w w' ord ord' c cP c1 :
  ranges_over ord c → ranges_over ord' c →
  entryConfig w ord c = inr cP →
  definitions c1 = definitions c → same_sources cP c1 →
  entryConfig w' ord' c1 = inr (parseFlags w' c1).
Proof.
  intros Hord Hord' Hentry Hd Hs. unfold entryConfig.
  rewrite registerFlags_registered; [done|].
  intros [k def] Hin Hflag. simpl in *.
  destruct (entryConfig_frame w ord c cP Hentry) as (_ & _ & Hreg).
  destruct Hs as (_ & <- & _). apply (Hreg k def).
  - destruct Hord as (-> & _). destruct Hord' as (Hr' & _). by rewrite <- Hr'.
  - apply String.eqb_neq. by apply negb_true_iff.
Qed.

Lemma parseFlags_again w c cr :
  same_sources (parseFlags w cr) c → same_sources (parseFlags w cr) (parseFlags w c).
Proof.
  intros (Hf & Hv & Hs). unfold parseFlags in *. simpl in *.
  repeat split; try done. rewrite <- Hs. unfold Flag.Parse. simpl.
  by rewrite parse_idempotent.
Qed.

(** C8: a second [Process] on a processed configuration returns (it cannot
    panic); under any new environment and command line its values map is
    exactly that of the new resolution, nothing of the previous one being
    left; with the same inputs it gives the same values and the same errors,
    the handle of every key reads the same, and every handle of the first
    call is destroyed and is not the handle the second call stores. *)
Theorem reprocess_is_idempotent w ord ord' h c errs h1 c1 :
  ranges_over ord c → ranges_over ord' c → initial_or_processed c →
  Process w ord h c = Returned errs h1 c1 →
  (∀ w', ∃ errs'' h'' c'',
      Process w' ord' h1 c1 = Returned errs'' h'' c''
      ∧ ∀ k, values c'' !! k
             = definitions c !! k ≫= stored_entry w' (parseFlags w' c1) k)
  ∧ ∃ errs' h2 c2,
      Process w ord' h1 c1 = Returned errs' h2 c2
      ∧ values c2 = values c1
      ∧ errs' ≡ₚ errs
      ∧ (∀ k, load h2 (GetSecret c2 k) = load h1 (GetSecret c1 k))
      ∧ (∀ k a, secrets c1 !! k = Some a →
                h2 !! a = Some (mkSecret None) ∧ secrets c2 !! k ≠ Some a).
Proof.
  intros Hord Hord' Hinit HP.
  destruct (entryConfig w ord c) as [p|cP] eqn:Hentry.
  { by rewrite (Process_panics w ord h c p Hentry) in HP. }
  destruct (Process_maps w ord h c cP errs h1 c1 Hord Hinit Hentry HP)
    as (Herrs & Hd1 & Hs1 & Hp1 & Hh1 & Hval1 & Hsec1).
  assert (ranges_over ord' c1) as Hord1.
  { unfold ranges_over. rewrite Hd1. apply Hord'. }
  assert (initial_or_processed c1) as Hinit1.
  { intros Hf. congruence. }
  assert (∀ w', entryConfig w' ord' c1 = inr (parseFlags w' c1)) as Hentry1.
  { intros w'. by apply (entryConfig_again w w' ord ord' c cP c1). }
  destruct (ranges_over_resolve ord' c1 Hord1) as [Hnd1 Hmem1].
  split.
  - intros w'.
    destruct (Process_returns w' ord' h1 c1 _ (Hentry1 w') Hnd1) as (h'' & c'' & HP'' & _).
    eexists _, h'', c''. split; [exact HP''|].
    destruct (Process_maps w' ord' h1 c1 _ _ h'' c'' Hord1 Hinit1 (Hentry1 w') HP'')
      as (_ & _ & _ & _ & _ & Hval'' & _).
    intros k. by rewrite Hval'', Hd1.
  - destruct (Process_returns w ord' h1 c1 _ (Hentry1 w) Hnd1) as (h2 & c2 & HP2 & _).
    destruct (Process_maps w ord' h1 c1 _ _ h2 c2 Hord1 Hinit1 (Hentry1 w) HP2)
      as (Herrs2 & Hd2 & Hs2 & Hp2 & Hh2 & Hval2 & Hsec2).
    assert (same_sources cP (parseFlags w c1)) as Hsame.
    { revert Hentry Hs1. unfold entryConfig.
      destruct (registerFlags (register_order ord) c) as [p|cr]; [done|].
      intros [= <-] Hs1. by apply parseFlags_again. }
    eexists _, h2, c2. split; [exact HP2|].
    assert (clearPrevious h1 c1 = ((SecretStore_DestroyAll h1 (secrets c1)).1,
                                   set_secrets ∅ (set_values ∅ c1))) as Hclear.
    { unfold clearPrevious. rewrite Hp1. by destruct (SecretStore_DestroyAll h1 (secrets c1)). }
    rewrite Hclear in Hh2, Hsec2. cbn [fst] in Hh2, Hsec2.
    destruct (DestroyAll_lookup h1 (secrets c1)) as [Hdom Hdestroyed].
    split; [|split; [|split]].
    + apply map_eq. intros k. rewrite Hval2, Hval1, Hd1.
      destruct (definitions c !! k) as [def|]; [|done]. simpl.
      symmetry. by apply stored_entry_same.
    + rewrite Herrs.
      rewrite <- (omap_error_record_same w cP (parseFlags w c1)) by done.
      destruct Hord as (_ & Hr & _). destruct Hord' as (_ & Hr' & _).
      by rewrite Hr, Hr'.
    + intros k. specialize (Hsec1 k). specialize (Hsec2 k). rewrite Hd1 in Hsec2.
      destruct (definitions c !! k) as [def|]; simpl in *.
      * rewrite <- (secret_text_same w cP (parseFlags w c1)) in Hsec2 by done.
        unfold GetSecret, SecretStore_Get, load.
        destruct (secret_text w cP k def) as [s|].
        -- destruct Hsec1 as (a1 & -> & _ & ->). destruct Hsec2 as (a2 & -> & _ & ->). done.
        -- by rewrite Hsec1, Hsec2.
      * unfold GetSecret, SecretStore_Get, load. by rewrite Hsec1, Hsec2.
    + intros k a Hka.
      assert (is_Some (h1 !! a)) as Hlive.
      { specialize (Hsec1 k). destruct (definitions c !! k ≫= secret_text w cP k).
        - destruct Hsec1 as (a1 & Ha1 & _ & Hh). rewrite Hka in Ha1.
          injection Ha1 as <-. by eexists.
        - congruence. }
      split.
      * eapply lookup_weaken; [|exact Hh2]. by apply (Hdestroyed k).
      * intros Hk2. specialize (Hsec2 k).
        destruct (definitions c1 !! k ≫= secret_text w (parseFlags w c1) k); [|congruence].
        destruct Hsec2 as (a2 & Ha2 & Hfresh & _). rewrite Hk2 in Ha2. injection Ha2 as <-.
        apply Hfresh. rewrite Hdom. by apply elem_of_dom.
Qed.

(** ** Durations with a day suffix *)

Lemma length_append (s t : string) :
  String.length (s +:+ t) = (String.length s + String.length t)%nat.
Proof. induction s as [|c s IH]; [done|]. simpl. by rewrite IH. Qed.

Lemma drop_append (s t : string) : Strings.drop (String.length s) (s +:+ t) = t.
Proof. induction s as [|c s IH]; [by destruct t|]. done. Qed.

Lemma substring_append (s t : string) : String.substring 0 (String.length s) (s +:+ t) = s.
Proof. induction s as [|c s IH]; [by destruct t|]. simpl. by rewrite IH. Qed.

Lemma HasSuffix_append (s t : string) : Strings.HasSuffix (s +:+ t) t = true.
Proof.
  unfold Strings.HasSuffix. rewrite length_append.
  replace (String.length s + String.length t - String.length t)%nat
    with (String.length s) by lia.
  rewrite drop_append, String.eqb_refl, andb_true_r. apply Nat.leb_le. lia.
Qed.

Lemma TrimSuffix_append (s t : string) : Strings.TrimSuffix (s +:+ t) t = s.
Proof.
  unfold Strings.TrimSuffix. rewrite HasSuffix_append, length_append.
  replace (String.length s + String.length t - String.length t)%nat
    with (String.length s) by lia.
  apply substring_append.
Qed.

Definition digit_char (d : Z) : ascii := ascii_of_N (48 + Z.to_N d).

Lemma digit_char_spec d :
  (0 ≤ d < 10)%Z →
  is_digit (digit_char d) = true ∧ digit_val (digit_char d) = d
  ∧ byte_is 46 (digit_char d) = false ∧ byte_is 45 (digit_char d) = false
  ∧ byte_is 43 (digit_char d) = false.
Proof.
  intros Hd.
  assert (d = 0 ∨ d = 1 ∨ d = 2 ∨ d = 3 ∨ d = 4 ∨ d = 5 ∨ d = 6 ∨ d = 7 ∨ d = 8 ∨ d = 9)%Z
    as Hcases by lia.
  repeat (destruct Hcases as [-> | Hcases]; [by vm_compute|]). subst. by vm_compute.
Qed.

Lemma digits_of_append fuel : ∀ n acc s,
  Strconv.digits_of fuel n acc +:+ s = Strconv.digits_of fuel n (acc +:+ s).
Proof.
  induction fuel as [|f IH]; intros n acc s; [done|]. simpl.
  destruct (n <? 10)%Z; [done|]. by rewrite IH.
Qed.

(** Reading back the digits [strconv] writes. *)
Lemma leadingInt_digits fuel : ∀ n acc,
  (0 ≤ n < 10 ^ Z.of_nat fuel)%Z →
  ∃ p, (1 ≤ p)%Z ∧ ∀ x, (0 ≤ x)%Z → (x * p + n ≤ 2 ^ 63)%Z →
    Time.leadingInt x (Strconv.digits_of fuel n acc) = Time.leadingInt (x * p + n) acc.
Proof.
  induction fuel as [|f IH]; intros n acc Hn.
  - exists 1%Z. split; [lia|]. intros x Hx Hb. simpl in *.
    replace (x * 1 + n)%Z with x by lia. done.
  - assert (0 ≤ n mod 10 < 10)%Z as Hd by (apply Z.mod_pos_bound; lia).
    destruct (digit_char_spec _ Hd) as (Hdig & Hval & _).
    assert (∀ x acc', (0 ≤ x)%Z → (x * 10 + n mod 10 ≤ 2 ^ 63)%Z →
              Time.leadingInt x (String (digit_char (n mod 10)) acc')
              = Time.leadingInt (x * 10 + n mod 10) acc') as Hstep.
    { intros x acc' Hx Hb. simpl. fold (digit_char (n mod 10)). rewrite Hdig, Hval.
      assert ((2 ^ 63 / 10 <? x)%Z = false) as ->.
      { apply Z.ltb_ge. apply Z.div_le_lower_bound; lia. }
      assert ((2 ^ 63 <? x * 10 + n mod 10)%Z = false) as -> by (apply Z.ltb_ge; lia).
      done. }
    simpl. fold (digit_char (n mod 10)). destruct (n <? 10)%Z eqn:Hlt.
    + apply Z.ltb_lt in Hlt. exists 10%Z. split; [lia|]. intros x Hx Hb.
      pose proof (Z.mod_small n 10 ltac:(lia)) as Hsmall.
      rewrite Hstep; [by rewrite Hsmall|done|lia].
    + apply Z.ltb_ge in Hlt.
      assert (0 ≤ n / 10 < 10 ^ Z.of_nat f)%Z as Hq.
      { split; [apply Z.div_pos; lia|]. apply Z.div_lt_upper_bound; [lia|].
        replace (Z.of_nat (S f)) with (Z.succ (Z.of_nat f)) in Hn by lia.
        rewrite Z.pow_succ_r in Hn by lia. lia. }
      destruct (IH (n / 10)%Z (String (digit_char (n mod 10)) acc) Hq) as (p & Hp & Hrec).
      exists (p * 10)%Z. split; [lia|]. intros x Hx Hb.
      pose proof (Z.div_mod n 10 ltac:(lia)) as Hdm.
      rewrite Hrec; [|done|nia].
      rewrite Hstep; [f_equal; lia|nia|nia].
Qed.

Lemma digits_of_head f n acc :
  ∃ ch rest, Strconv.digits_of (S f) n acc = String ch rest ∧ is_digit ch = true.
Proof.
  revert n acc. induction f as [|f IH]; intros n acc.
  - assert (0 ≤ n mod 10 < 10)%Z as Hd by (apply Z.mod_pos_bound; lia).
    destruct (digit_char_spec _ Hd) as (Hdig & _).
    simpl. fold (digit_char (n mod 10)). destruct (n <? 10)%Z; by eexists _, _.
  - assert (0 ≤ n mod 10 < 10)%Z as Hd by (apply Z.mod_pos_bound; lia).
    destruct (digit_char_spec _ Hd) as (Hdig & _).
    change (Strconv.digits_of (S (S f)) n acc)
      with (if (n <? 10)%Z then String (digit_char (n mod 10)) acc
            else Strconv.digits_of (S f) (n / 10)%Z (String (digit_char (n mod 10)) acc)).
    destruct (n <? 10)%Z; [by eexists _, _|]. apply IH.
Qed.

Lemma FormatUint_fuel n : (0 ≤ n)%Z → (0 ≤ n < 10 ^ Z.of_nat (S (Z.to_nat (Z.log2 n))))%Z.
Proof.
  intros Hn. split; [done|].
  destruct (decide (n = 0%Z)) as [->|Hne]; [by vm_compute|].
  pose proof (Z.log2_spec n ltac:(lia)) as [_ Hlog].
  pose proof (Z.log2_nonneg n) as Hnn.
  replace (Z.of_nat (S (Z.to_nat (Z.log2 n)))) with (Z.succ (Z.log2 n)) by lia.
  eapply Z.lt_le_trans; [exact Hlog|]. apply Z.pow_le_mono_l. lia.
Qed.

Lemma byte_is_digit_false n (ch : ascii) :
  is_digit ch = true → (n < 48)%N → byte_is n ch = false.
Proof.
  unfold is_digit, byte_between, byte_is. intros [Hlo _]%andb_true_iff Hn.
  apply N.leb_le in Hlo. apply N.eqb_neq. lia.
Qed.

Lemma parse_terms_done fuel d : Time.parse_terms fuel d "" = Some d.
Proof. by destruct fuel. Qed.

Lemma Hour_bounds N :
  (0 ≤ N ≤ 2562047)%Z →
  (2 ^ 63 / Time.Hour <? N)%Z = false
  ∧ ((0 + N * Time.Hour) mod 2 ^ 64)%Z = (N * Time.Hour)%Z
  ∧ (2 ^ 63 <? N * Time.Hour)%Z = false
  ∧ (2 ^ 63 - 1 <? N * Time.Hour)%Z = false.
Proof.
  intros HN. change Time.Hour with 3600000000000%Z.
  change (2 ^ 63 / 3600000000000)%Z with 2562047%Z.
  split; [apply Z.ltb_ge; lia|]. split; [apply Z.mod_small; lia|].
  split; apply Z.ltb_ge; lia.
Qed.

Lemma ParseDuration_unsigned (ch : ascii) (s : string) :
  is_digit ch = true →
  Time.ParseDuration (String ch s)
  = if String.eqb (String ch s) "0" then Some 0%Z
    else match Time.parse_terms (String.length (String ch s)) 0 (String ch s) with
         | None => None
         | Some d => if (2 ^ 63 - 1 <? d)%Z then None else Some d
         end.
Proof.
  intros Hc. unfold Time.ParseDuration. cbv beta iota.
  rewrite (byte_is_digit_false 45 ch Hc), (byte_is_digit_false 43 ch Hc) by lia.
  cbv beta iota zeta. destruct (String.eqb (String ch s) "0"); [done|].
  by replace (String.eqb (String ch s) "") with false.
Qed.

Lemma ParseDuration_minus (s : string) :
  Time.ParseDuration (String "-" s)
  = if String.eqb s "0" then Some 0%Z
    else if String.eqb s "" then None
    else match Time.parse_terms (String.length s) 0 s with
         | None => None
         | Some d => Some (- d)%Z
         end.
Proof. done. Qed.

(** A whole number of hours, written by [strconv] and read by
    [time.ParseDuration]. *)
Lemma ParseDuration_hours (neg : bool) N :
  (0 ≤ N ≤ 2562047)%Z →
  Time.ParseDuration ((if neg then "-" else "") +:+ Strconv.FormatUint N +:+ "h")
  = Some ((if neg then - N else N) * Time.Hour)%Z.
Proof.
  intros HN. unfold Strconv.FormatUint.
  set (fuel := Z.to_nat (Z.log2 N)).
  destruct (digits_of_head fuel N "") as (c & r & Hhead & Hc).
  destruct (leadingInt_digits (S fuel) N "h" (FormatUint_fuel N ltac:(lia)))
    as (p & Hp & Hread).
  specialize (Hread 0%Z ltac:(lia) ltac:(lia)).
  pose proof (digits_of_append (S fuel) N "" "h") as Happ.
  change ("" +:+ "h") with "h" in Happ.
  rewrite <- Happ in Hread. rewrite Hhead in Hread |- *.
  replace (0 * p + N)%Z with N in Hread by lia.
  change (Time.leadingInt N "h") with (Some (N, "h")) in Hread.
  change (String c r +:+ "h") with (String c (r +:+ "h")) in *.
  destruct (Hour_bounds N HN) as (Hb1 & Hb2 & Hb3 & Hb4).
  assert (Time.parse_terms (String.length (String c (r +:+ "h"))) 0 (String c (r +:+ "h"))
          = Some (N * Time.Hour)%Z) as Hterms.
  { cbn [String.length Time.parse_terms].
    rewrite Hc, orb_true_r, Hread. cbn [negb].
    change (Time.read_unit [] "h") with ("h", "").
    cbn [byte_is N_of_ascii]. simpl.
    rewrite length_append, Hb1, Hb2, Hb3, parse_terms_done.
    by replace (String.length r + String.length "h" =? 0)%nat with false
      by (symmetry; apply Nat.eqb_neq; simpl; lia). }
  assert (String.eqb (String c (r +:+ "h")) "0" = false) as Hne0.
  { apply String.eqb_neq. by destruct r. }
  destruct neg.
  - change ("-" +:+ String c (r +:+ "h")) with (String "-" (String c (r +:+ "h"))).
    rewrite ParseDuration_minus, Hne0, Hterms.
    replace (String.eqb (String c (r +:+ "h")) "") with false by done.
    f_equal. lia.
  - change ("" +:+ String c (r +:+ "h")) with (String c (r +:+ "h")).
    by rewrite (ParseDuration_unsigned c _ Hc), Hne0, Hterms, Hb4.
Qed.

(** The whole number of hours nearest to a float64 (ties to even), if it
    is finite: what [%.0f] prints. *)
Definition whole_hours (f : float64) : option Z :=
  match f with
  | S754_zero _ => Some 0%Z
  | S754_finite s m e =>
      Some (if s then - F64.round_half_even m e else F64.round_half_even m e)%Z
  | _ => None
  end.

Lemma round_half_even_nonneg m e : (0 ≤ F64.round_half_even m e)%Z.
Proof.
  unfold F64.round_half_even. destruct e as [|p|p].
  - lia.
  - pose proof (Z.pow_pos_nonneg 2 (Z.pos p)). lia.
  - assert (0 ≤ Z.pos m / 2 ^ Z.pos p)%Z as Hq.
    { apply Z.div_pos; [lia|]. apply Z.pow_pos_nonneg; lia. }
    destruct (2 * (Z.pos m mod 2 ^ Z.pos p) ?= 2 ^ Z.pos p)%Z; [|lia|lia].
    destruct (Z.even (Z.pos m / 2 ^ Z.pos p)); lia.
Qed.

Lemma day_suffix X days H delim :
  Strconv.ParseFloat X = Some days →
  whole_hours (F64.mul days (F64.of_Z 24)) = Some H →
  (-2562047 ≤ H ≤ 2562047)%Z →
  parseValue (X +:+ "d") TypeDuration delim = (Some (VDuration (H * Time.Hour)), None).
Proof.
  intros Hdays Hhours HH. unfold parseValue.
  replace (String.eqb (X +:+ "d") "") with false by (by destruct X).
  rewrite HasSuffix_append, TrimSuffix_append, Hdays.
  destruct (F64.mul days (F64.of_Z 24)) as [s|s| |s m e]; try done.
  - injection Hhours as <-.
    replace (Fmt.Sprintf_0f (S754_zero s) +:+ "h")
      with ((if s then "-" else "") +:+ Strconv.FormatUint 0 +:+ "h") by (by destruct s).
    rewrite (ParseDuration_hours s 0) by lia. by destruct s.
  - injection Hhours as <-. pose proof (round_half_even_nonneg m e) as Hnn.
    replace (Fmt.Sprintf_0f (S754_finite s m e) +:+ "h")
      with ((if s then "-" else "") +:+ Strconv.FormatUint (F64.round_half_even m e) +:+ "h")
      by (by destruct s).
    rewrite (ParseDuration_hours s (F64.round_half_even m e)) by (destruct s; lia).
    done.
Qed.

(** C7, as the code has it: the day count is multiplied by 24 and rounded
    to a whole number of hours, ties to even; "7d" is 168 hours, "1.5d" is
    36 hours, "0.1d" is 2 hours; "1h30m" is 90 minutes. *)
Theorem day_suffix_rounds_to_whole_hours X days H delim :
  Strconv.ParseFloat X = Some days →
  whole_hours (F64.mul days (F64.of_Z 24)) = Some H →
  (-2562047 ≤ H ≤ 2562047)%Z →
  parseValue (X +:+ "d") TypeDuration delim = (Some (VDuration (H * Time.Hour)), None)
  ∧ parseValue "1h30m" TypeDuration delim = (Some (VDuration (90 * Time.Minute)), None)
  ∧ parseValue "7d" TypeDuration delim = (Some (VDuration (168 * Time.Hour)), None)
  ∧ parseValue "1.5d" TypeDuration delim = (Some (VDuration (36 * Time.Hour)), None)
  ∧ parseValue "0.1d" TypeDuration delim = (Some (VDuration (2 * Time.Hour)), None).
Proof.
  intros Hdays Hhours HH. split; [by apply (day_suffix X days)|].
  repeat split; by vm_compute.
Qed.

(** ** Flags and environment variables *)

(** The two resolution paths disagree: with a flag and an environment
    variable both set (and no file value), [resolveValueWithFiles], the
    path [Process] takes, resolves the environment variable, and
    [resolveValue] resolves the flag. *)
Lemma flag_and_environment_paths w c k def :
  getFileValue c k = None →
  envVar def ≠ "" → Getenv w (envVar def) ≠ "" →
  flag def ≠ "" → flagString c k ≠ "" →
  (resolveValueWithFiles w c k def).1.2 = "env"
  ∧ (resolveValue w c k def).1.2 = "flag".
Proof.
  intros Hfile Hvar Henv Hflag Hval. split.
  - rewrite (resolve_env w c k def Hfile Hvar Henv).
    by destruct (parseValue _ _ _) as [? [?|]].
  - unfold resolveValue.
    rewrite (eqb_empty_false _ Hflag), (eqb_empty_false _ Hval). simpl.
    repeat (rewrite (eqb_empty_false _ Hval); simpl).
    by destruct (parseValue _ _ _) as [? [?|]].
Qed.

End Properties.

(** * Further functions: get.go *)

Section Getters.
Context `{Ext : External}.

(** Convenience typed getters (non-generic alternative). *)
Definition GetString (c : Config) (k : string) : GetResult := Get TString c k.
Definition GetInt64 (c : Config) (k : string) : GetResult := Get TInt64 c k.
Definition GetFloat64 (c : Config) (k : string) : GetResult := Get TFloat64 c k.
Definition GetBool (c : Config) (k : string) : GetResult := Get TBool c k.
Definition GetDuration (c : Config) (k : string) : GetResult := Get TDuration c k.
Definition GetStringSlice (c : Config) (k : string) : GetResult := Get TStringSlice c k.
Definition GetInt64Slice (c : Config) (k : string) : GetResult := Get TInt64Slice c k.

(** The typed getter that reads a key declared with the type [t]: a URL is
    stored as the string it was given as. *)
Definition getter_of (t : ValueType) : option (Config → string → GetResult) :=
  match t with
  | TypeString | TypeURL => Some GetString
  | TypeInt64 => Some GetInt64
  | TypeFloat64 => Some GetFloat64
  | TypeBool => Some GetBool
  | TypeDuration => Some GetDuration
  | TypeStringSlice => Some GetStringSlice
  | TypeInt64Slice => Some GetInt64Slice
  | TypeInvalid _ => None
  end.

End Getters.

(** * Further functions: commands and their context *)

Module Cmd.

(** A [Command]: [F] is the type of the command functions and [M] that of
    the middleware, which the functions below never call. *)
Inductive Command {F M : Type} :=
  mkCommand (Name : string) (Func : option F) (ShortHelp LongHelp : string)
            (Aliases : list string) (Definitions : gmap string Definition_)
            (SubCommands : gmap string Command) (Middleware : list M).
Arguments Command : clear implicits.

Section Fields.
Context {F M : Type}.

Definition Name (cmd : Command F M) : string :=
  match cmd with mkCommand n _ _ _ _ _ _ _ => n end.
Definition Func (cmd : Command F M) : option F :=
  match cmd with mkCommand _ f _ _ _ _ _ _ => f end.
Definition ShortHelp (cmd : Command F M) : string :=
  match cmd with mkCommand _ _ s _ _ _ _ _ => s end.
Definition LongHelp (cmd : Command F M) : string :=
  match cmd with mkCommand _ _ _ l _ _ _ _ => l end.
Definition Aliases (cmd : Command F M) : list string :=
  match cmd with mkCommand _ _ _ _ a _ _ _ => a end.
Definition Definitions (cmd : Command F M) : gmap string Definition_ :=
  match cmd with mkCommand _ _ _ _ _ d _ _ => d end.
Definition SubCommands (cmd : Command F M) : gmap string (Command F M) :=
  match cmd with mkCommand _ _ _ _ _ _ s _ => s end.
Definition Middleware (cmd : Command F M) : list M :=
  match cmd with mkCommand _ _ _ _ _ _ _ m => m end.

(** [NewCommand] creates a new command instance. *)
Definition NewCommand (name : string) : Command F M :=
  mkCommand name None "" "" [] ∅ ∅ [].

(** [AddSubCommand] adds a subcommand to this command. *)
Definition AddSubCommand (cmd : Command F M) (name : string) (subCmd : Command F M)
  : Command F M :=
  mkCommand (Name cmd) (Func cmd) (ShortHelp cmd) (LongHelp cmd) (Aliases cmd)
            (Definitions cmd) (<[name := subCmd]> (SubCommands cmd)) (Middleware cmd).

(** [FindSubCommand] finds a subcommand by name or alias; [order] is the
    order of the [range] over the subcommands, and [None] is Go's [nil]. *)
Definition FindSubCommand (cmd : Command F M) (order : list (string * Command F M))
    (name : string) : option (Command F M) :=
  (* Check exact name first *)
  match SubCommands cmd !! name with
  | Some subCmd => Some subCmd
  | None =>
      (* Check aliases *)
      snd <$> List.find (fun entry => existsb (fun alias => String.eqb alias name)
                                        (Aliases (snd entry))) order
  end.

End Fields.
End Cmd.

Module Ctx.

(** A [CommandContext]; [data] is [None] for the nil map. *)
Record CommandContext := mkCommandContext {
  Args : list string;
  Config_ : Config;
  Command : string;
  SubCommand : string;
  Flags : gmap string string;
  data : option (gmap string any);
}.

(** [NewCommandContext] creates a new command context. *)
Definition NewCommandContext (args : list string) (config : Config)
    (command subCommand : string) : CommandContext :=
  mkCommandContext args config command subCommand ∅ (Some ∅).

(** [Set] stores data in the context for middleware sharing. *)
Definition Set_ (ctx : CommandContext) (k : string) (value : any) : CommandContext :=
  mkCommandContext (Args ctx) (Config_ ctx) (Command ctx) (SubCommand ctx) (Flags ctx)
                   (Some (<[k := value]> (default ∅ (data ctx)))).

(** [Get] retrieves data from the context. *)
Definition Get (ctx : CommandContext) (k : string) : any * bool :=
  match data ctx with
  | None => (None, false)
  | Some d =>
      match d !! k with
      | Some value => (value, true)
      | None => (None, false)
      end
  end.

(** [GetString] gets a string value from the context data. *)
Definition GetString (ctx : CommandContext) (k : string) : string :=
  match Get ctx k with
  | (Some (VString str), true) => str
  | _ => ""
  end.

(** [GetInt] gets an int value from the context data. *)
Definition GetInt (ctx : CommandContext) (k : string) : Z :=
  match Get ctx k with
  | (Some (VInt i), true) => i
  | _ => 0%Z
  end.

(** [GetBool] gets a bool value from the context data. *)
Definition GetBool (ctx : CommandContext) (k : string) : bool :=
  match Get ctx k with
  | (Some (VBool b), true) => b
  | _ => false
  end.

End Ctx.

(** * Further functions: Dump and the command overrides *)

Section Reports.
Context `{Ext : External}.

(** [Keys] returns all defined configuration keys, in the order of the
    [range]. *)
Definition Keys (order : list (string * Definition_)) : list string := order.*1.

(** [Dump] returns a map of all configuration values (secrets masked). *)
Definition Dump (h : gmap addr Secret) (c : Config) : gmap string string :=
  map_imap
    (fun k def =>
       Some (if secret def then
               if Secret_IsSet (load h (SecretStore_Get (secrets c) k))
               then "[SECRET:"
                    +:+ Strconv.Itoa (Secret_Size (load h (SecretStore_Get (secrets c) k)))
                    +:+ " bytes]"
               else "[SECRET:not set]"
             else
               match values c !! k with
               | Some (Some val) => Sprint (Some val)
               | _ => "[not set]"
               end))
    (definitions c).

#[local] Instance ValueType_eq_dec : EqDecision ValueType.
Proof. solve_decision. Defined.

(** [definitionsEqual] checks if two definitions are effectively the same. *)
Definition definitionsEqual (def1 def2 : Definition_) : bool :=
  if negb (bool_decide (valueType def1 = valueType def2)) then false
  else if negb (String.eqb (flag def1) (flag def2)) then false
  else if negb (String.eqb (envVar def1) (envVar def2)) then false
  else if negb (String.eqb (Sprint (defaultValue def1)) (Sprint (defaultValue def2)))
  then false
  else if negb (Bool.eqb (required def1) (required def2)) then false
  else if negb (Bool.eqb (secret def1) (secret def2)) then false
  else true.

(** [shouldWarnAboutOverride] determines if an override should generate a
    warning. *)
Definition shouldWarnAboutOverride (globalDef cmdDef : Definition_) : bool :=
  (* Don't warn if the definitions are identical *)
  if definitionsEqual globalDef cmdDef then false
  (* Warn if command has different flag, env var, or default value *)
  else if negb (String.eqb (flag globalDef) (flag cmdDef))
          && negb (String.eqb (flag cmdDef) "") then true
  else if negb (String.eqb (envVar globalDef) (envVar cmdDef))
          && negb (String.eqb (envVar cmdDef) "") then true
  else
    let globalHasDefault := bool_decide (is_Some (defaultValue globalDef)) in
    let cmdHasDefault := bool_decide (is_Some (defaultValue cmdDef)) in
    if globalHasDefault && cmdHasDefault then
      negb (String.eqb (Sprint (defaultValue globalDef)) (Sprint (defaultValue cmdDef)))
    else if globalHasDefault && negb cmdHasDefault then true
    else if negb globalHasDefault && cmdHasDefault then true
    (* Check if command adds validation that global doesn't have *)
    else (length (validations globalDef) <? length (validations cmdDef))%nat.

(** One turn of the loop of [checkCommandOverrides]; [inl] is the panic of
    the [Get] it calls. *)
Definition checkCommandOverride (h : gmap addr Secret) (c : Config) (commandName : string)
    (st : string + list OverrideWarning) (kd : string * Definition_)
  : string + list OverrideWarning :=
  match st with
  | inl msg => inl msg
  | inr warnings =>
      let '(k, cmdDef) := kd in
      (* Check if this key exists in global config *)
      match definitions c !! k with
      | None => inr warnings
      | Some globalDef =>
          if shouldWarnAboutOverride globalDef cmdDef then
            let warning oldValue :=
              mkOverrideWarning k commandName "global config" "command config" oldValue ""
                "Command-specific configuration overrides global configuration" in
            (* Add value information if available *)
            if Has c k then
              if IsSecret c k then
                let secret := load h (GetSecret c k) in
                if Secret_IsSet secret
                then inr (warnings
                          ++ [warning ("[SECRET:" +:+ Strconv.Itoa (Secret_Size secret)
                                       +:+ " bytes]")])
                else inr (warnings ++ [warning "[SECRET:not set]"])
              else
                match Get TAny c k with
                | GetPanic msg => inl msg
                | GetValue v => inr (warnings ++ [warning (Sprint (Some v))])
                end
            else inr (warnings ++ [warning ""])
          else inr warnings
      end
  end.

(** [checkCommandOverrides] checks for command-specific config overriding
    global config; [order] is the order of the [range] over [commandDefs]. *)
Definition checkCommandOverrides (h : gmap addr Secret) (c : Config) (commandName : string)
    (order : list (string * Definition_)) : string + list OverrideWarning :=
  foldl (checkCommandOverride h c commandName) (inr []) order.

End Reports.

(** * Further functions: the command suggestions of config.go *)

(** [min] of three integers. *)
Definition min (a b c : Z) : Z :=
  if (a <? b)%Z then
    if (a <? c)%Z then a else c
  else if (b <? c)%Z then b
  else c.

(** A [[][]int]: [matrix[i][j]] and the assignment [matrix[i][j] = v].
    (An index out of range panics in Go; [levenshteinDistance] uses none.) *)
Definition cell (matrix : list (list Z)) (i j : nat) : Z :=
  default 0%Z (matrix !! i ≫= fun row => row !! j).

Definition set_cell (matrix : list (list Z)) (i j : nat) (v : Z) : list (list Z) :=
  alter (fun row => <[j := v]> row) i matrix.

(** The body of the two nested loops of [levenshteinDistance]. *)
Definition fill_cell (a b : string) (matrix : list (list Z)) (i j : nat) : list (list Z) :=
  let cost := if bool_decide (String.get (i - 1) a ≠ String.get (j - 1) b) then 1%Z else 0%Z in
  set_cell matrix i j
    (min (cell matrix (i - 1) j + 1)         (* deletion *)
         (cell matrix i (j - 1) + 1)         (* insertion *)
         (cell matrix (i - 1) (j - 1) + cost)) (* substitution *).

(** [levenshteinDistance] calculates the Levenshtein distance between two
    strings, byte by byte. *)
Definition levenshteinDistance (a b : string) : Z :=
  let la := String.length a in
  let lb := String.length b in
  if (la =? 0)%nat then Z.of_nat lb
  else if (lb =? 0)%nat then Z.of_nat la
  else
    let matrix := replicate (la + 1) (replicate (lb + 1) 0%Z) in
    let matrix := foldl (fun m i => set_cell m i 0 (Z.of_nat i)) matrix (seq 0 (la + 1)) in
    let matrix := foldl (fun m j => set_cell m 0 j (Z.of_nat j)) matrix (seq 0 (lb + 1)) in
    let matrix :=
      foldl (fun m i => foldl (fun m j => fill_cell a b m i j) m (seq 1 lb))
            matrix (seq 1 la) in
    cell matrix la lb.

(** [findSuggestions] finds similar command names for suggestions; [names]
    are the keys of [c.commands] in the order of the [range]. *)
Definition findSuggestions (names : list string) (input : string) : string :=
  let minDistance := 3%Z in
  let suggestions :=
    List.filter (fun name => (levenshteinDistance input name <=? minDistance)%Z) names in
  match suggestions with
  | [] => "no similar commands found"
  | _ => Strings.Join suggestions ", "
  end.

(** * Further properties of the vault, the mask and the getters *)

Section Vault.
Context `{Ext : External}.

Implicit Types (c : Config) (h : gmap addr Secret) (w : World) (k : string)
  (def : Definition_) (ss : gmap string addr).

(** ** errors.go: maskSecret *)

Lemma length_substring_0 (m : nat) (s : string) :
  String.length (String.substring 0 m s) = Nat.min m (String.length s).
Proof.
  revert s. induction m as [|m IH]; intros [|ch s]; simpl; try done.
  by rewrite IH.
Qed.

Lemma length_Repeat (ch : ascii) (n : nat) : String.length (Strings.Repeat ch n) = n.
Proof. unfold Strings.Repeat. induction n as [|n IH]; simpl; [done|]. by rewrite IH. Qed.

Lemma get_Repeat (ch : ascii) (n i : nat) :
  (i < n)%nat → String.get i (Strings.Repeat ch n) = Some ch.
Proof.
  unfold Strings.Repeat. revert i.
  induction n as [|n IH]; intros [|i] Hi; simpl; try lia; [done|apply IH; lia].
Qed.

Lemma length_drop (n : nat) (s : string) :
  String.length (Strings.drop n s) = (String.length s - n)%nat.
Proof. revert s. induction n as [|n IH]; intros [|ch s]; simpl; done. Qed.

Lemma get_drop (n i : nat) (s : string) :
  String.get i (Strings.drop n s) = String.get (n + i) s.
Proof. revert s. induction n as [|n IH]; intros [|ch s]; simpl; try done; by destruct i. Qed.

(** X1: the mask of a value of at most four bytes is four stars; the mask
    of a longer value has the length of the value, shows its first two and
    its last two bytes, and a star at every place between them. *)
Theorem maskSecret_shows_four_bytes (value : string) :
  ((String.length value <= 4)%nat → maskSecret value = "****")
  ∧ ((4 < String.length value)%nat →
     String.length (maskSecret value) = String.length value
     ∧ ∀ i : nat,
         String.get i (maskSecret value)
         = if bool_decide (2 <= i < String.length value - 2)%nat
           then Some "*"%char else String.get i value).
Proof.
  unfold maskSecret. split; intros Hlen.
  - by rewrite (proj2 (Nat.leb_le _ _) Hlen).
  - rewrite (proj2 (Nat.leb_gt _ _) Hlen).
    set (n := String.length value) in *.
    assert (String.length (String.substring 0 2 value) = 2%nat) as Hpre.
    { rewrite length_substring_0. fold n. lia. }
    split.
    + rewrite !length_append, Hpre, length_Repeat, length_drop. fold n. lia.
    + intros i. case_bool_decide as Hi.
      * replace i with ((i - 2) + String.length (String.substring 0 2 value))%nat
          by (rewrite Hpre; lia).
        rewrite <- String.append_correct2, <- String.append_correct1.
        -- apply get_Repeat. lia.
        -- rewrite length_Repeat. lia.
      * destruct (decide (i < 2)%nat) as [Hlt|Hge].
        -- rewrite <- String.append_correct1 by (rewrite Hpre; lia).
           rewrite String.substring_correct1 by lia. f_equal. lia.
        -- replace i with ((i - 2) + String.length (String.substring 0 2 value))%nat at 1
             by (rewrite Hpre; lia).
           rewrite <- String.append_correct2.
           replace (i - 2)%nat
             with ((i - (n - 2)) + String.length (Strings.Repeat "*" (n - 4)))%nat
             by (rewrite length_Repeat; lia).
           rewrite <- String.append_correct2, get_drop. f_equal. lia.
Qed.

(** ** secret.go *)

Lemma String_newSecret (value : string) :
  Secret_String (newSecret value) = value
  ∧ Secret_Size (newSecret value) = Z.of_nat (String.length value)
  ∧ Secret_IsSet (newSecret value) = negb (String.eqb value "").
Proof.
  unfold newSecret. destruct value as [|ch s]; [done|]. simpl. by repeat split.
Qed.

(** X2: [Store] then [Get]: the handle of the stored key reads the value,
    has its length and is set unless the value is empty; the handle of a
    key never stored is empty; storing leaves every other key and every
    secret already on the heap as they were. *)
Theorem store_then_get h ss k (value : string) :
  let h' := (SecretStore_Store h ss k value).1 in
  let ss' := (SecretStore_Store h ss k value).2 in
  Secret_String (load h' (SecretStore_Get ss' k)) = value
  ∧ Secret_Size (load h' (SecretStore_Get ss' k)) = Z.of_nat (String.length value)
  ∧ Secret_IsSet (load h' (SecretStore_Get ss' k)) = negb (String.eqb value "")
  ∧ (∀ k', k' ≠ k → SecretStore_Get ss' k' = SecretStore_Get ss k')
  ∧ (∀ k', ss' !! k' = None →
           Secret_String (load h' (SecretStore_Get ss' k')) = ""
           ∧ Secret_Size (load h' (SecretStore_Get ss' k')) = 0%Z
           ∧ Secret_IsSet (load h' (SecretStore_Get ss' k')) = false)
  ∧ (∀ a, is_Some (h !! a) → h' !! a = h !! a).
Proof.
  unfold SecretStore_Store, alloc. simpl.
  assert (load (<[fresh (dom h) := newSecret value]> h)
               (SecretStore_Get (<[k := fresh (dom h)]> ss) k) = newSecret value) as ->.
  { unfold SecretStore_Get. rewrite lookup_insert_eq. simpl. by rewrite lookup_insert_eq. }
  destruct (String_newSecret value) as (-> & -> & ->).
  repeat split.
  - intros k' Hk'. unfold SecretStore_Get. by rewrite lookup_insert_ne.
  - unfold SecretStore_Get. by rewrite H.
  - unfold SecretStore_Get. by rewrite H.
  - unfold SecretStore_Get. by rewrite H.
  - intros a Ha. apply lookup_insert_ne. intros <-.
    apply elem_of_dom in Ha. by apply is_fresh in Ha.
Qed.

Lemma DestroyAll_frame h ss (a : addr) :
  (∀ k, ss !! k ≠ Some a) → (SecretStore_DestroyAll h ss).1 !! a = h !! a.
Proof.
  unfold SecretStore_DestroyAll. simpl.
  apply (map_fold_weak_ind
           (fun r (m : gmap string addr) => (∀ k, m !! k ≠ Some a) → r !! a = h !! a)).
  - done.
  - intros k a' m r Hk IH Hnot. rewrite lookup_alter_ne.
    + apply IH. intros k' Hk'. apply (Hnot k'). rewrite lookup_insert_ne; [done|].
      intros ->. congruence.
    + intros ->. apply (Hnot k). by rewrite lookup_insert_eq.
Qed.

Lemma load_destroyed h ss k :
  load (SecretStore_DestroyAll h ss).1 (SecretStore_Get ss k) = mkSecret None.
Proof.
  unfold SecretStore_Get. destruct (ss !! k) as [a|] eqn:Hk; [|done]. unfold load.
  destruct (DestroyAll_lookup h ss) as [Hdom Hdes].
  destruct (h !! a) as [s|] eqn:Ha.
  - by rewrite (Hdes k a Hk) by done.
  - assert ((SecretStore_DestroyAll h ss).1 !! a = None) as ->; [|done].
    apply not_elem_of_dom. rewrite Hdom. by apply not_elem_of_dom.
Qed.

(** X3: [Destroy] wipes every handle the vault has handed out: a handle
    taken before the call reads as the empty secret after it, and so does
    the handle a later [GetSecret] returns; the secrets of other owners on
    the heap are untouched, and the values map keeps its entries, so [Has]
    still answers as before. *)
Theorem destroy_wipes_every_handle h c :
  let h' := (Destroy h c).1 in
  let c' := (Destroy h c).2 in
  (∀ k, Secret_String (load h' (GetSecret c k)) = ""
        ∧ Secret_Size (load h' (GetSecret c k)) = 0%Z
        ∧ Secret_IsSet (load h' (GetSecret c k)) = false
        ∧ Secret_Bytes (load h' (GetSecret c k)) = None)
  ∧ (∀ k, GetSecret c' k = FreshEmpty)
  ∧ (∀ a, (∀ k, secrets c !! k ≠ Some a) → h' !! a = h !! a)
  ∧ (∀ k, Has c' k = Has c k)
  ∧ definitions c' = definitions c.
Proof.
  assert (Destroy h c = ((SecretStore_DestroyAll h (secrets c)).1, set_secrets ∅ c)) as ->
    by done.
  cbn [fst snd]. repeat split.
  - unfold GetSecret. by rewrite load_destroyed.
  - unfold GetSecret. by rewrite load_destroyed.
  - unfold GetSecret. by rewrite load_destroyed.
  - unfold GetSecret. by rewrite load_destroyed.
  - intros a Ha. by apply DestroyAll_frame.
Qed.

(** ** get.go *)



End Vault.

(** * Further properties of resolution *)

Section Resolution.
Context `{Ext : External}.

Implicit Types (c : Config) (h : gmap addr Secret) (w : World) (k : string)
  (def : Definition_).

Lemma Process_returned_entry w ord h c errs h' c' :
  Process w ord h c = Returned errs h' c' → ∃ cP, entryConfig w ord c = inr cP.
Proof.
  intros HP. destruct (entryConfig w ord c) as [p|cP] eqn:He; [|by eexists].
  by rewrite (Process_panics w ord h c p He) in HP.
Qed.

(** ** Keys whose resolution fails *)

(** X5: a key with an error record has no entry after [Process], in the
    values map or in the vault: [Has] is false, [GetOr] returns its
    default and [Get] panics with the key-not-found message, although the
    key is defined. *)
Theorem failed_key_has_no_entry w ord h c errs h' c' (e : ConfigError) :
  ranges_over ord c → initial_or_processed c →
  Process w ord h c = Returned errs h' c' →
  e ∈ errs →
  is_Some (definitions c' !! Key e)
  ∧ values c' !! Key e = None
  ∧ GetSecret c' (Key e) = FreshEmpty
  ∧ Has c' (Key e) = false
  ∧ (∀ T d, GetOr T c' (Key e) d = d)
  ∧ (∀ T, Get T c' (Key e)
          = GetPanic ("commandkit: key '" +:+ Key e +:+ "' not found (did you define it?)")).
Proof.
  intros Hord Hinit HP He.
  destruct (Process_returned_entry _ _ _ _ _ _ _ HP) as [cP Hentry].
  destruct (Process_maps w ord h c cP errs h' c' Hord Hinit Hentry HP)
    as (-> & Hd & _ & _ & _ & Hval & Hsec).
  destruct (ranges_over_resolve ord c Hord) as [_ Hmem].
  apply list_elem_of_omap in He as ([k def] & Hin & Herr).
  pose proof (error_record_key _ _ _ _ Herr) as Hkey. simpl in Hkey.
  apply Hmem in Hin. unfold error_record in Herr. simpl in Herr.
  specialize (Hval k). specialize (Hsec k). rewrite Hin in Hval, Hsec. simpl in Hval, Hsec.
  unfold stored_entry in Hval. unfold secret_text in Hsec.
  destruct (resolveValueWithFiles w cP k def) as [[value source] [msg|]]; [|done].
  rewrite Hkey. unfold Has, GetOr, Get, GetSecret, SecretStore_Get.
  rewrite Hval, Hsec, Hd, Hin. done.
Qed.

(** ** Secrets and the values map *)


(** ** The type of a parsed value *)

Lemma digits_value_nonneg (s : string) : ∀ acc n,
  (0 ≤ acc)%Z → Strconv.digits_value acc s = Some n → (0 ≤ n)%Z.
Proof.
  induction s as [|ch s IH]; intros acc n Hacc; simpl.
  - by intros [= <-].
  - destruct (is_digit ch) eqn:Hd; [|done]. apply IH.
    unfold is_digit, byte_between in Hd. unfold digit_val.
    apply andb_true_iff in Hd as [Hlo _]. apply N.leb_le in Hlo. lia.
Qed.

Lemma ParseInt_range (s : string) (n : Z) :
  Strconv.ParseInt s = Some n → (- 2 ^ 63 ≤ n < 2 ^ 63)%Z.
Proof.
  unfold Strconv.ParseInt. destruct s as [|ch rest]; [done|].
  destruct (if byte_is 43 ch then (false, rest)
            else if byte_is 45 ch then (true, rest) else (false, String ch rest))
    as [neg body].
  destruct body as [|b0 body]; [done|].
  destruct (Strconv.digits_value 0 (String b0 body)) as [un|] eqn:Hun; [|done].
  apply digits_value_nonneg in Hun; [|done].
  destruct neg; simpl.
  - destruct (2 ^ 63 <? un)%Z eqn:Hcmp; [done|]. intros [= <-].
    apply Z.ltb_ge in Hcmp. lia.
  - destruct (2 ^ 63 <=? un)%Z eqn:Hcmp; [done|]. intros [= <-].
    apply Z.leb_gt in Hcmp. lia.
Qed.

Lemma parseValue_typed (raw : string) (t : ValueType) (delim : string) (v : Value) :
  (parseValue raw t delim).1 = Some v →
  match t with
  | TypeString | TypeURL => v = VString raw
  | TypeInt64 => ∃ n, v = VInt64 n ∧ (- 2 ^ 63 ≤ n < 2 ^ 63)%Z
  | TypeFloat64 => ∃ f, v = VFloat64 f
  | TypeBool => ∃ b, v = VBool b
  | TypeDuration => ∃ d, v = VDuration d
  | TypeStringSlice => ∃ l, v = VStringSlice l
  | TypeInt64Slice => ∃ l, v = VInt64Slice l
  | TypeInvalid _ => False
  end.
Proof.
  unfold parseValue. destruct (String.eqb raw "") eqn:Hraw; [done|].
  destruct t; repeat case_match; simpl; intros [= <-]; eauto.
  eexists. split; [done|]. by eapply ParseInt_range.
Qed.

Lemma parseValue_result_has_declared_type_aux (raw : string) (t : ValueType) (delim : string)
    (v : Value) :
  (parseValue raw t delim).1 = Some v →
  ∃ getter, getter_of t = Some getter
            ∧ assert_type (match t with
                           | TypeString | TypeURL => TString
                           | TypeInt64 => TInt64
                           | TypeFloat64 => TFloat64
                           | TypeBool => TBool
                           | TypeDuration => TDuration
                           | TypeStringSlice => TStringSlice
                           | TypeInt64Slice => TInt64Slice
                           | TypeInvalid _ => TAny
                           end) (Some v) = Some v.
Proof.
  intros Hv%parseValue_typed.
  destruct t; simpl in Hv |- *;
    [subst v | destruct Hv as (n & -> & _) | destruct Hv as [f ->] | destruct Hv as [b ->]
    | destruct Hv as [d ->] | subst v | destruct Hv as [l ->] | destruct Hv as [l ->] | done];
    eauto.
Qed.

(** X7: a non-empty string parses to a value and no error, or to no value
    and an error; a parsed value has the Go type of the declared type: a
    string for String and URL (the string given), an int64 within its
    range for Int64, and so on; no value is ever parsed for a type that
    is not one of the eight. *)
Theorem parseValue_result_has_declared_type (raw : string) (t : ValueType) (delim : string) :
  (raw ≠ "" →
   (∃ v, parseValue raw t delim = (Some v, None))
   ∨ (∃ msg, parseValue raw t delim = (None, Some msg)))
  ∧ ∀ v, (parseValue raw t delim).1 = Some v →
      match t with
      | TypeString | TypeURL => v = VString raw
      | TypeInt64 => ∃ n, v = VInt64 n ∧ (- 2 ^ 63 ≤ n < 2 ^ 63)%Z
      | TypeFloat64 => ∃ f, v = VFloat64 f
      | TypeBool => ∃ b, v = VBool b
      | TypeDuration => ∃ d, v = VDuration d
      | TypeStringSlice => ∃ l, v = VStringSlice l
      | TypeInt64Slice => ∃ l, v = VInt64Slice l
      | TypeInvalid _ => False
      end.
Proof.
  unfold parseValue. destruct (String.eqb raw "") eqn:Hraw.
  { apply String.eqb_eq in Hraw. by split. }
  split.
  - intros _. destruct t; repeat case_match; eauto.
  - intros v Hv. apply (parseValue_typed raw t delim v).
    unfold parseValue. by rewrite Hraw.
Qed.

(** ** Reading a resolved key *)

(** The entry of a key that is not a secret, when its resolution succeeds. *)
Lemma Process_stores w ord h c cP k def (value : any) (source : string) :
  ranges_over ord c →
  entryConfig w ord c = inr cP →
  definitions c !! k = Some def → secret def = false →
  resolveValueWithFiles w cP k def = (value, source, None) →
  ∃ errs h' c',
    Process w ord h c = Returned errs h' c'
    ∧ values c' !! k = Some value
    ∧ IsSecret c' k = false.
Proof.
  intros Hord Hentry Hk Hsec Hres.
  destruct (ranges_over_resolve ord c Hord) as [Hnd Hmem].
  destruct (Process_returns w ord h c cP Hentry Hnd)
    as (h' & c' & HP & Hd' & Hs' & Hp' & Hh' & Hout & Hin).
  exists (omap (error_record w cP) (resolve_order ord)), h', c'.
  split; [done|].
  pose proof (key_post_resolved _ _ _ _ _ _ _ _ _ _
                (Hin k def (proj2 (Hmem k def) Hk)) Hres) as Hpost.
  rewrite Hsec in Hpost. simpl in Hpost. destruct Hpost as [Hv _].
  split; [done|]. unfold IsSecret. by rewrite Hd', Hk.
Qed.

(** X8: a key that is not a secret and takes its value from a non-empty
    environment variable that parses and passes the validations is read
    back after [Process] by [Get] at the type [any], by [GetOr], and by the
    typed getter of its declared type. *)
Theorem environment_value_is_read_with_its_type w ord h c cP k def (raw : string) (v : Value) :
  ranges_over ord c →
  entryConfig w ord c = inr cP →
  definitions c !! k = Some def → secret def = false →
  getFileValue c k = None →
  envVar def ≠ "" → Getenv w (envVar def) = raw → raw ≠ "" →
  parseValue raw (valueType def) (delimiter def) = (Some v, None) →
  runValidations (validations def) (Some v) = None →
  ∃ errs h' c',
    Process w ord h c = Returned errs h' c'
    ∧ values c' !! k = Some (Some v)
    ∧ Has c' k = true
    ∧ Get TAny c' k = GetValue v
    ∧ (∀ d, GetOr TAny c' k d = Some v)
    ∧ ∃ getter, getter_of (valueType def) = Some getter ∧ getter c' k = GetValue v.
Proof.
  intros Hord Hentry Hk Hsec Hfile Hvar Henv Hraw Hparse Hvalid.
  destruct (entryConfig_frame w ord c cP Hentry) as (HdP & HfP & _).
  assert (resolveValueWithFiles w cP k def = (Some v, "env", None)) as Hres.
  { rewrite (resolve_env w cP k def); try done.
    - rewrite Henv, Hparse. by rewrite Hvalid.
    - by rewrite (getFileValue_same cP c).
    - by rewrite Henv. }
  destruct (Process_stores w ord h c cP k def _ _ Hord Hentry Hk Hsec Hres)
    as (errs & h' & c' & HP & Hv & Hnot).
  exists errs, h', c'. split; [done|]. split; [done|].
  unfold Has, GetOr, Get. rewrite Hv, Hnot. simpl.
  repeat split.
  destruct (parseValue_result_has_declared_type_aux raw (valueType def) (delimiter def) v)
    as (getter & Hg & Ht); [by rewrite Hparse|].
  exists getter. split; [done|].
  revert Ht. destruct (valueType def); simpl in Hg; simplify_eq;
    unfold GetString, GetInt64, GetFloat64, GetBool, GetDuration, GetStringSlice,
      GetInt64Slice, Get; rewrite Hv, Hnot; by intros ->.
Qed.

(** ** Defaults *)



(** ** The resolver without files *)

(** X10: [resolveValue], the resolver of config.go that knows no files,
    gives the flag the first place; it and [resolveValueWithFiles] return
    the same value and the same source, and fail together, on every key
    without a file value for which the flag and the environment variable
    are not both set (their messages differ for a missing required key
    only). *)
Theorem resolvers_agree_unless_flag_and_environment w c k def :
  (flag def ≠ "" → flagString c k ≠ "" → (resolveValue w c k def).1.2 = "flag")
  ∧ (getFileValue c k = None →
     (flag def = "" ∨ flagString c k = "" ∨ envVar def = "" ∨ Getenv w (envVar def) = "") →
     (resolveValueWithFiles w c k def).1 = (resolveValue w c k def).1
     ∧ ((resolveValueWithFiles w c k def).2 = None ↔ (resolveValue w c k def).2 = None)
     ∧ ((resolveValue w c k def).1.2 ≠ "none" →
        resolveValueWithFiles w c k def = resolveValue w c k def)).
Proof.
  split.
  - intros Hflag Hval. unfold resolveValue.
    rewrite (eqb_empty_false _ Hflag). simpl.
    repeat (rewrite (eqb_empty_false _ Hval); simpl).
    destruct (parseValue (flagString c k) (valueType def) (delimiter def)) as [pv [err|]];
      done.
  - intros Hfile Hone. unfold resolveValueWithFiles, resolveValue.
    rewrite Hfile. cbn [fmap option_fmap option_map].
    destruct (String.eqb (flag def) "") eqn:Ef, (String.eqb (flagString c k) "") eqn:Efv,
      (String.eqb (envVar def) "") eqn:Ee, (String.eqb (Getenv w (envVar def)) "") eqn:Eev;
      simpl; repeat (progress (rewrite ?Efv, ?Eev; simpl));
      try (destruct Hone as [H|[H|[H|H]]];
           apply String.eqb_eq in H; congruence);
      repeat case_match; simplify_eq; done.
Qed.

End Resolution.

(** * Further properties of parsing, files and warnings *)

Section Sources.
Context `{Ext : External}.

Implicit Types (c : Config) (h : gmap addr Secret) (w : World) (k : string)
  (def : Definition_).

(** ** Integers written by strconv *)

Lemma digits_value_digits fuel : ∀ n acc,
  (0 ≤ n < 10 ^ Z.of_nat fuel)%Z →
  ∃ p, ∀ x, Strconv.digits_value x (Strconv.digits_of fuel n acc)
            = Strconv.digits_value (x * p + n) acc.
Proof.
  induction fuel as [|f IH]; intros n acc Hn.
  - exists 1%Z. intros x. simpl in *. by replace (x * 1 + n)%Z with x by lia.
  - assert (0 ≤ n mod 10 < 10)%Z as Hd by (apply Z.mod_pos_bound; lia).
    destruct (digit_char_spec _ Hd) as (Hdig & Hval & _).
    simpl. fold (digit_char (n mod 10)). destruct (n <? 10)%Z eqn:Hlt.
    + apply Z.ltb_lt in Hlt. exists 10%Z. intros x. simpl. rewrite Hdig, Hval.
      by rewrite (Z.mod_small n 10) by lia.
    + apply Z.ltb_ge in Hlt.
      assert (0 ≤ n / 10 < 10 ^ Z.of_nat f)%Z as Hq.
      { split; [apply Z.div_pos; lia|]. apply Z.div_lt_upper_bound; [lia|].
        replace (Z.of_nat (S f)) with (Z.succ (Z.of_nat f)) in Hn by lia.
        rewrite Z.pow_succ_r in Hn by lia. lia. }
      destruct (IH (n / 10)%Z (String (digit_char (n mod 10)) acc) Hq) as (p & Hrec).
      exists (p * 10)%Z. intros x. rewrite Hrec. simpl. rewrite Hdig, Hval.
      pose proof (Z.div_mod n 10 ltac:(lia)) as Hdm. f_equal. lia.
Qed.

Lemma digits_value_FormatUint (n : Z) :
  (0 ≤ n)%Z → Strconv.digits_value 0 (Strconv.FormatUint n) = Some n.
Proof.
  intros Hn. unfold Strconv.FormatUint.
  destruct (digits_value_digits _ n "" (FormatUint_fuel n Hn)) as (p & ->).
  simpl. f_equal; lia.
Qed.

Lemma ParseInt_Itoa (n : Z) :
  Strconv.ParseInt (Strconv.Itoa n)
  = if ((- 2 ^ 63 <=? n) && (n <? 2 ^ 63))%Z then Some n else None.
Proof.
  unfold Strconv.Itoa. destruct (n <? 0)%Z eqn:Hneg.
  - apply Z.ltb_lt in Hneg.
    destruct (digits_of_head (Z.to_nat (Z.log2 (- n))) (- n) "") as (ch & rest & Hs & Hdig).
    fold (Strconv.FormatUint (- n)) in Hs.
    change ("-" +:+ Strconv.FormatUint (- n)) with (String "-" (Strconv.FormatUint (- n))).
    unfold Strconv.ParseInt.
    change (byte_is 43 "-") with false. change (byte_is 45 "-") with true. cbn iota.
    rewrite digits_value_FormatUint by lia. rewrite Hs. simpl.
    destruct (2 ^ 63 <? - n)%Z eqn:Hcmp.
    + apply Z.ltb_lt in Hcmp.
      assert ((- 2 ^ 63 <=? n)%Z = false) as -> by (apply Z.leb_gt; lia). done.
    + apply Z.ltb_ge in Hcmp.
      assert ((- 2 ^ 63 <=? n)%Z = true) as -> by (apply Z.leb_le; lia).
      assert ((n <? 2 ^ 63)%Z = true) as -> by (apply Z.ltb_lt; lia).
      simpl. f_equal. lia.
  - apply Z.ltb_ge in Hneg.
    destruct (digits_of_head (Z.to_nat (Z.log2 n)) n "") as (ch & rest & Hs & Hdig).
    fold (Strconv.FormatUint n) in Hs.
    pose proof (digits_value_FormatUint n Hneg) as Hval.
    unfold Strconv.ParseInt. rewrite Hs in Hval |- *.
    rewrite (byte_is_digit_false 43 ch Hdig), (byte_is_digit_false 45 ch Hdig) by lia.
    rewrite Hval. simpl.
    assert ((- 2 ^ 63 <=? n)%Z = true) as -> by (apply Z.leb_le; lia).
    destruct (2 ^ 63 <=? n)%Z eqn:Hcmp.
    + apply Z.leb_le in Hcmp.
      assert ((n <? 2 ^ 63)%Z = false) as -> by (apply Z.ltb_ge; lia). done.
    + apply Z.leb_gt in Hcmp.
      assert ((n <? 2 ^ 63)%Z = true) as -> by (apply Z.ltb_lt; lia). done.
Qed.

Lemma Itoa_not_empty (n : Z) : Strconv.Itoa n ≠ "".
Proof.
  unfold Strconv.Itoa. destruct (n <? 0)%Z; [done|].
  destruct (digits_of_head (Z.to_nat (Z.log2 n)) n "") as (ch & rest & Hs & _).
  unfold Strconv.FormatUint. by rewrite Hs.
Qed.

(** X11: the decimal text of an integer parses back, as an Int64, to the
    integer when it is within the range of int64, and is the error
    "invalid int64" otherwise; the text is what [%v] prints for the stored
    value. *)
Theorem int64_decimal_round_trip (n : Z) (delim : string) :
  parseValue (Strconv.Itoa n) TypeInt64 delim
  = (if ((- 2 ^ 63 <=? n) && (n <? 2 ^ 63))%Z
     then (Some (VInt64 n), None)
     else (None, Some ("invalid int64: " +:+ Strconv.Itoa n)))
  ∧ Sprint (Some (VInt64 n)) = Strconv.Itoa n.
Proof.
  split; [|done]. unfold parseValue.
  rewrite (eqb_empty_false _ (Itoa_not_empty n)), ParseInt_Itoa.
  by destruct ((- 2 ^ 63 <=? n) && (n <? 2 ^ 63))%Z.
Qed.

Lemma int64_range_parse (n : Z) (delim : string) :
  (- 2 ^ 63 ≤ n < 2 ^ 63)%Z →
  parseValue (Strconv.Itoa n) TypeInt64 delim = (Some (VInt64 n), None).
Proof.
  intros Hn. unfold parseValue.
  rewrite (eqb_empty_false _ (Itoa_not_empty n)), ParseInt_Itoa.
  assert ((- 2 ^ 63 <=? n)%Z = true) as -> by (apply Z.leb_le; lia).
  assert ((n <? 2 ^ 63)%Z = true) as -> by (apply Z.ltb_lt; lia). done.
Qed.

(** ** files.go *)

Lemma resolve_file w c k def (fv : FileValue) (raw : string) :
  getFileValue c k = Some fv → fileValueString def fv = inl raw → raw ≠ "" →
  resolveValueWithFiles w c k def
  = match parseValue raw (valueType def) (delimiter def) with
    | (_, Some err) => (Some (VString raw), "file", Some err)
    | (parsedValue, None) =>
        (parsedValue, "file", runValidations (validations def) parsedValue)
    end.
Proof.
  intros Hfile Hstr Hraw. unfold resolveValueWithFiles.
  rewrite Hfile. cbn [fmap option_fmap option_map]. rewrite Hstr.
  repeat (rewrite (eqb_empty_false _ Hraw); simpl). done.
Qed.

(** X12: an integer, a boolean or a non-empty string of a configuration
    file, read for a key declared Int64, Bool or String, resolves to that
    very integer (within int64), boolean or string, with source "file";
    the only error it can have is that of a validation. *)
Theorem file_scalar_is_read_back w c k def (fv : FileValue) :
  getFileValue c k = Some fv →
  (∀ n, (fv = FInt n ∨ fv = FInt64 n) → valueType def = TypeInt64 →
        (- 2 ^ 63 ≤ n < 2 ^ 63)%Z →
        resolveValueWithFiles w c k def
        = (Some (VInt64 n), "file", runValidations (validations def) (Some (VInt64 n))))
  ∧ (∀ b, fv = FBool b → valueType def = TypeBool →
          resolveValueWithFiles w c k def
          = (Some (VBool b), "file", runValidations (validations def) (Some (VBool b))))
  ∧ (∀ s, fv = FString s → valueType def = TypeString → s ≠ "" →
          resolveValueWithFiles w c k def
          = (Some (VString s), "file", runValidations (validations def) (Some (VString s)))).
Proof.
  intros Hfile. repeat split.
  - intros n Hfv Hty Hn.
    rewrite (resolve_file w c k def fv (Strconv.Itoa n) Hfile);
      [|by destruct Hfv as [-> | ->]|apply Itoa_not_empty].
    by rewrite Hty, (int64_range_parse n (delimiter def) Hn).
  - intros b -> Hty.
    rewrite (resolve_file w c k def (FBool b) (Fmt.Sprint_bool b) Hfile);
      [|done|by destruct b].
    rewrite Hty. by destruct b.
  - intros s -> Hty Hs.
    rewrite (resolve_file w c k def (FString s) s Hfile); [|done|done].
    by rewrite Hty, (parseValue_string s _ Hs).
Qed.

(** The lookup without an environment: the key, then its lower case. *)
Lemma getFileValue_base c (fc : FileConfig) k :
  fileConfig c = Some fc → environment fc = "" →
  getFileValue c k = match data fc !! k with
                     | Some value => Some value
                     | None => data fc !! ToLower k
                     end.
Proof. intros Hfc Henv. unfold getFileValue. by rewrite Hfc, Henv. Qed.

(** X13: [SetEnvironment] fails, and changes nothing, when no file is
    loaded.  Otherwise it succeeds for every name: a key of the section
    [environments.<env>] then hides the value the file gives the key at
    its top level, and an environment without a section of its own, like
    an empty name, leaves the top-level lookup as it was. *)
Theorem environment_section_hides_base c (env : string) k :
  (fileConfig c = None →
   SetEnvironment env c = (Some "no configuration files loaded", c))
  ∧ ∀ fc, fileConfig c = Some fc →
      (SetEnvironment env c).1 = None
      ∧ definitions (SetEnvironment env c).2 = definitions c
      ∧ (∀ envs m v, env ≠ "" →
           data fc !! "environments" = Some (FMap envs) →
           envs !! env = Some (FMap m) → m !! k = Some v →
           getFileValue (SetEnvironment env c).2 k = Some v)
      ∧ ((env = "" ∨ ∃ envs, data fc !! "environments" = Some (FMap envs)
                              ∧ envs !! env = None) →
         getFileValue (SetEnvironment env c).2 k
         = match data fc !! k with
           | Some value => Some value
           | None => data fc !! ToLower k
           end).
Proof.
  unfold SetEnvironment. split; [by intros ->|].
  intros fc ->. simpl. repeat split.
  - intros envs m v Henv Hsec Hm Hv. unfold getFileValue. simpl.
    by rewrite (eqb_empty_false _ Henv), Hsec, Hm, Hv.
  - intros [-> | (envs & Hsec & Hm)]; unfold getFileValue; simpl; [done|].
    rewrite Hsec, Hm. by destruct (negb _).
Qed.

(** X14: of two files merged one after the other, the later gives the
    value of every top-level key it has, and the earlier the value of the
    keys only it has; the merge is not deep: when both files have a section
    [environments], that of the later file replaces that of the earlier
    one, whose environments are lost. *)
Theorem later_file_wins c (d1 d2 : gmap string FileValue) k :
  fileConfig c = None →
  let c2 := mergeFileData d2 (mergeFileData d1 c) in
  (∀ v, d2 !! k = Some v → getFileValue c2 k = Some v)
  ∧ (∀ v, d2 !! k = None → d1 !! k = Some v → getFileValue c2 k = Some v)
  ∧ (d2 !! k = None → d1 !! k = None →
     getFileValue c2 k = (d2 ∪ d1) !! ToLower k)
  ∧ (∀ env e1 e2, d1 !! "environments" = Some (FMap e1) →
       d2 !! "environments" = Some (FMap e2) → e2 !! env = None →
       getFileValue (SetEnvironment env c2).2 k = getFileValue c2 k).
Proof.
  intros Hnone c2.
  assert (fileConfig c2 = Some (mkFileConfig (d2 ∪ (d1 ∪ ∅)) "" "")) as Hfc.
  { unfold c2, mergeFileData. simpl. by rewrite Hnone. }
  rewrite (right_id_L ∅ (∪) d1) in Hfc.
  pose proof (getFileValue_base c2 _ k Hfc eq_refl) as Hbase. simpl in Hbase.
  repeat split.
  - intros v Hv. rewrite Hbase. by rewrite (lookup_union_Some_l d2 d1 k v Hv).
  - intros v H2 H1. rewrite Hbase, lookup_union_r by done. by rewrite H1.
  - intros H2 H1. rewrite Hbase, lookup_union_r by done. by rewrite H1.
  - intros env e1 e2 H1 H2 He. rewrite Hbase.
    unfold SetEnvironment. rewrite Hfc. unfold getFileValue. simpl.
    rewrite (lookup_union_Some_l d2 d1 _ _ H2), He. by destruct (negb _).
Qed.

(** ** overrides.go *)

(** X15: for one key, [checkSourceOverridesForKey] keeps the warnings it is
    given and adds at most two, all for that key: none when fewer than two
    of flag, environment variable and default give a value, and first the
    one of the flag over the environment variable when both are set; the
    values shown for a secret key are masked. *)
Theorem override_warnings_of_a_key w c (ws : list OverrideWarning) k def :
  let hasFlag := negb (String.eqb (flag def) "") && negb (String.eqb (flagString c k) "") in
  let hasEnv := negb (String.eqb (envVar def) "")
                && negb (String.eqb (Getenv w (envVar def)) "") in
  let hasDefault := bool_decide (is_Some (defaultValue def)) in
  ∃ added,
    checkSourceOverridesForKey w c ws (k, def) = ws ++ added
    ∧ length added
      = (if hasFlag && hasEnv then 1 else 0) + (if hasFlag && hasDefault then 1 else 0)
        + (if hasEnv && hasDefault && negb hasFlag then 1 else 0)
    ∧ (length added <= 2)%nat
    ∧ (hasFlag && hasEnv = true →
       ∃ rest, added = mkOverrideWarning k "" "environment" "flag"
                         (maskValueIfNeeded c k (Getenv w (envVar def)))
                         (maskValueIfNeeded c k (flagString c k))
                         "Command-line flag overrides environment variable" :: rest)
    ∧ (∀ o, o ∈ added →
         ow_Key o = k
         ∧ (definitions c !! k = Some def → secret def = true →
            ∃ old new, ow_OldValue o = maskSecret old ∧ ow_NewValue o = maskSecret new)).
Proof.
  intros hasFlag hasEnv hasDefault. unfold checkSourceOverridesForKey.
  assert (negb (String.eqb (if negb (String.eqb (flag def) "") then flagString c k else "") "")
          = hasFlag) as ->.
  { unfold hasFlag. by destruct (String.eqb (flag def) ""). }
  assert (negb (String.eqb (if negb (String.eqb (envVar def) "")
                            then Getenv w (envVar def) else "") "") = hasEnv) as ->.
  { unfold hasEnv. by destruct (String.eqb (envVar def) ""). }
  fold hasDefault.
  set (defaultString := if hasDefault then Sprint (defaultValue def) else "").
  set (envValue := if negb (String.eqb (envVar def) "") then Getenv w (envVar def) else "").
  set (flagValue := if negb (String.eqb (flag def) "") then flagString c k else "").
  exists ((if hasFlag && hasEnv
           then [mkOverrideWarning k "" "environment" "flag"
                   (maskValueIfNeeded c k envValue) (maskValueIfNeeded c k flagValue)
                   "Command-line flag overrides environment variable"]
           else [])
          ++ (if hasFlag && hasDefault
              then [mkOverrideWarning k "" "default" "flag"
                      (maskValueIfNeeded c k defaultString) (maskValueIfNeeded c k flagValue)
                      "Command-line flag overrides default value"]
              else [])
          ++ (if hasEnv && hasDefault && negb hasFlag
              then [mkOverrideWarning k "" "default" "environment"
                      (maskValueIfNeeded c k defaultString) (maskValueIfNeeded c k envValue)
                      "Environment variable overrides default value"]
              else [])).
  split; [|split; [|split; [|split]]].
  - destruct hasFlag, hasEnv, hasDefault; simpl; by rewrite ?app_nil_r, <- ?app_assoc.
  - by destruct hasFlag, hasEnv, hasDefault.
  - destruct hasFlag, hasEnv, hasDefault; simpl; lia.
  - intros Hboth. rewrite Hboth. eexists. simpl. f_equal. f_equal.
    + unfold envValue. apply andb_true_iff in Hboth as [_ He]. unfold hasEnv in He.
      apply andb_true_iff in He as [-> _]. done.
    + unfold flagValue. apply andb_true_iff in Hboth as [Hf _]. unfold hasFlag in Hf.
      apply andb_true_iff in Hf as [-> _]. done.
  - intros o Ho.
    assert (∃ src by_ x y msg,
              o = mkOverrideWarning k "" src by_ (maskValueIfNeeded c k x)
                    (maskValueIfNeeded c k y) msg) as (src & by_ & x & y & msg & ->).
    { destruct hasFlag, hasEnv, hasDefault; simpl in Ho; set_unfold;
        destruct_or?; subst; try done; by eexists _, _, _, _, _. }
    split; [done|]. intros Hk Hs. unfold maskValueIfNeeded. rewrite Hk, Hs. simpl. eauto.
Qed.

End Sources.

(** * Further properties of the validation rules *)

Section Rules.

Lemma runValidations_app (vs vs' : list Validation) (value : any) :
  runValidations (vs ++ vs') value
  = match runValidations vs value with
    | Some err => Some err
    | None => runValidations vs' value
    end.
Proof.
  induction vs as [|v vs IH]; [done|]. simpl.
  destruct (Check v value); [done|]. apply IH.
Qed.

(** X16: the range setters of the builder add two rules after the rules
    the definition has: the chain then accepts a value exactly when the
    old chain accepts it and, if the value has the type the range is
    about (a string, a duration, a list), its length, duration or number
    of items lies between the two bounds; the error of the old chain comes
    first. *)
Theorem range_setters_accept_the_range (lo hi : Z) (d : Definition_) (value : any) :
  (runValidations (validations (Builder.LengthRange lo hi d)) value = None
   ↔ runValidations (validations d) value = None
     ∧ ∀ s, value = Some (VString s) → (lo ≤ string_len s ≤ hi)%Z)
  ∧ (runValidations (validations (Builder.DurationRange lo hi d)) value = None
     ↔ runValidations (validations d) value = None
       ∧ ∀ t, value = Some (VDuration t) → (lo ≤ t ≤ hi)%Z)
  ∧ (runValidations (validations (Builder.ItemsRange lo hi d)) value = None
     ↔ runValidations (validations d) value = None
       ∧ ∀ n, items_len value = Some n → (lo ≤ n ≤ hi)%Z)
  ∧ (∀ err, runValidations (validations d) value = Some err →
       runValidations (validations (Builder.LengthRange lo hi d)) value = Some err
       ∧ runValidations (validations (Builder.DurationRange lo hi d)) value = Some err
       ∧ runValidations (validations (Builder.ItemsRange lo hi d)) value = Some err).
Proof.
  unfold Builder.LengthRange, Builder.DurationRange, Builder.ItemsRange, add_validation.
  cbn [validations]. rewrite <- !app_assoc, !runValidations_app.
  destruct (runValidations (validations d) value) as [err|] eqn:Hold.
  { split; [|split; [|split]]; try (split; [done|by intros [? _]]).
    by intros ? [= <-]. }
  split; [|split; [|split; [|done]]]; split.
  - intros Hok. split; [done|]. intros s ->. simpl in Hok.
    destruct (string_len s <? lo)%Z eqn:H1; [done|].
    destruct (hi <? string_len s)%Z eqn:H2; [done|].
    apply Z.ltb_ge in H1, H2. lia.
  - intros [_ Hin]. destruct value as [[x| | | | | | | |]|]; simpl; try done.
    specialize (Hin x eq_refl).
    assert ((string_len x <? lo)%Z = false) as -> by (apply Z.ltb_ge; lia).
    assert ((hi <? string_len x)%Z = false) as -> by (apply Z.ltb_ge; lia). done.
  - intros Hok. split; [done|]. intros t ->. simpl in Hok.
    destruct (t <? lo)%Z eqn:H1; [done|].
    destruct (hi <? t)%Z eqn:H2; [done|].
    apply Z.ltb_ge in H1, H2. lia.
  - intros [_ Hin]. destruct value as [[| | | | |x | | |]|]; simpl; try done.
    specialize (Hin x eq_refl).
    assert ((x <? lo)%Z = false) as -> by (apply Z.ltb_ge; lia).
    assert ((hi <? x)%Z = false) as -> by (apply Z.ltb_ge; lia). done.
  - intros Hok. split; [done|]. intros n Hn. simpl in Hok. rewrite Hn in Hok.
    destruct (n <? lo)%Z eqn:H1; [done|].
    destruct (hi <? n)%Z eqn:H2; [done|].
    apply Z.ltb_ge in H1, H2. lia.
  - intros [_ Hin]. simpl. destruct (items_len value) as [n|]; [|done].
    specialize (Hin n eq_refl).
    assert ((n <? lo)%Z = false) as -> by (apply Z.ltb_ge; lia).
    assert ((hi <? n)%Z = false) as -> by (apply Z.ltb_ge; lia). done.
Qed.

(** X17: what the rules accept.  The rule [required] rejects nil and the
    empty string, and nothing else (an empty list passes).  [oneOf] accepts
    a string exactly when it is one of the allowed ones.  Every rule but
    [required] accepts nil, and a rule on strings, durations or lists
    accepts every value of another type. *)
Theorem rules_check_their_own_type_only (m : Z) (allowed : list string) (value : any) :
  (Check validateRequired value = None ↔ value ≠ None ∧ value ≠ Some (VString ""))
  ∧ (∀ s, Check (validateOneOf allowed) (Some (VString s)) = None ↔ s ∈ allowed)
  ∧ ((∀ s, value ≠ Some (VString s)) →
     Check (validateMinLength m) value = None ∧ Check (validateMaxLength m) value = None
     ∧ Check (validateOneOf allowed) value = None)
  ∧ ((∀ t, value ≠ Some (VDuration t)) →
     Check (validateMinDuration m) value = None ∧ Check (validateMaxDuration m) value = None)
  ∧ ((∀ l, value ≠ Some (VStringSlice l)) → (∀ l, value ≠ Some (VInt64Slice l)) →
     Check (validateMinItems m) value = None ∧ Check (validateMaxItems m) value = None).
Proof.
  split; [|split; [|split; [|split]]].
  - destruct value as [[x| | | | | | | |]|]; simpl; try (split; [done|by intros [? ?]]).
    destruct (String.eqb x "") eqn:Hx.
    + apply String.eqb_eq in Hx as ->. split; [done|]. by intros [_ ?].
    + apply String.eqb_neq in Hx. split; [|done]. intros _. split; congruence.
  - intros s. simpl. destruct (existsb (String.eqb s) allowed) eqn:Hex.
    + apply existsb_exists in Hex as (x & Hx & ->%String.eqb_eq).
      split; [|done]. intros _. by apply list_elem_of_In.
    + split; [done|]. intros Hin. exfalso. apply not_true_iff_false in Hex.
      apply Hex, existsb_exists. exists s. split; [by apply list_elem_of_In|].
      apply String.eqb_refl.
  - intros Hnot. destruct value as [[x| | | | | | | |]|]; simpl; try done.
    by destruct (Hnot x).
  - intros Hnot. destruct value as [[| | | | |x | | |]|]; simpl; try done.
    by destruct (Hnot x).
  - intros Hs Hi. destruct value as [[| | | | | |x|x |]|]; simpl; try done.
    + by destruct (Hs x).
    + by destruct (Hi x).
Qed.

End Rules.

(** * Further properties of the warnings and of lists *)

Section Warnings.
Context `{Ext : External}.

Implicit Types (c : Config) (h : gmap addr Secret) (w : World) (k : string)
  (def : Definition_).

Lemma checkSourceOverrides_same w c c' (order : list (string * Definition_)) :
  definitions c = definitions c' → same_sources c c' →
  checkSourceOverrides w c order = checkSourceOverrides w c' order.
Proof.
  intros Hd Hs. unfold checkSourceOverrides. generalize (@nil OverrideWarning).
  induction order as [|[k def] rest IH]; intros ws; [done|]. cbn [foldl].
  assert (checkSourceOverridesForKey w c ws (k, def)
          = checkSourceOverridesForKey w c' ws (k, def)) as ->; [|apply IH].
  unfold checkSourceOverridesForKey, maskValueIfNeeded.
  by rewrite (flagString_same c c' k Hs), Hd.
Qed.

(** X25: [Process] replaces the override warnings of the configuration
    only when it finds some: a run that finds none leaves the warnings of
    the run before in place. *)
Theorem warnings_survive_a_clean_run w ord h c errs h' c' :
  ranges_over ord c →
  Process w ord h c = Returned errs h' c' →
  overrideWarnings c'
  = match checkSourceOverrides w c' (override_order ord) with
    | [] => overrideWarnings c
    | found => found
    end.
Proof.
  intros Hord HP. destruct (ranges_over_resolve ord c Hord) as [Hnd _].
  rewrite Process_eq in HP.
  destruct (registerFlags (register_order ord) (set_processed true (clearPrevious h c).2))
    as [p|cr] eqn:Er; [done|].
  destruct (foldl (processDefinition w) ([], (clearPrevious h c).1, parseFlags w cr)
              (resolve_order ord)) as [[e1 h1] c1] eqn:El.
  injection HP as <- <- <-.
  apply registerFlags_frame in Er as (_ & _ & _ & _ & _ & Ho & _).
  apply process_loop in El as (_ & Hd & Hs & _ & Ho1 & _); [|done].
  assert (overrideWarnings c1 = overrideWarnings c) as Hsame.
  { rewrite Ho1. unfold parseFlags. simpl. rewrite Ho. unfold clearPrevious.
    by destruct (processed c). }
  set (found := checkSourceOverrides w c1 (override_order ord)).
  destruct (storeWarnings_frame found c1) as (Hd' & _ & _ & Hs' & _).
  rewrite <- (checkSourceOverrides_same w c1 (storeWarnings found c1)) by done.
  fold found. by destruct found.
Qed.

(** X26: a non-empty string whose pieces are all blank parses, as a list
    of strings, to an empty list, not to nil: the rule [required] accepts
    it, and a rule [minItems] with a positive bound rejects it. *)
Theorem blank_list_is_empty_not_nil (raw delim : string) (min : Z) :
  raw ≠ "" →
  (∀ p, p ∈ Strings.Split raw delim → Strings.TrimSpace p = "") →
  parseValue raw TypeStringSlice delim = (Some (VStringSlice []), None)
  ∧ Check validateRequired (Some (VStringSlice [])) = None
  ∧ ((0 < min)%Z → is_Some (Check (validateMinItems min) (Some (VStringSlice [])))).
Proof.
  intros Hraw Hblank. split; [|split; [done|]].
  - unfold parseValue. rewrite (eqb_empty_false _ Hraw).
    f_equal. f_equal. f_equal.
    induction (Strings.Split raw delim) as [|p parts IH]; [done|]. simpl.
    rewrite (Hblank p) by by left. simpl. apply IH. intros q Hq. apply Hblank. by right.
  - intros Hmin. simpl. destruct (_ <? min)%Z eqn:Hcmp; [done|].
    apply Z.ltb_ge in Hcmp. simpl in Hcmp. lia.
Qed.

End Warnings.

(** * Further properties of commands, contexts and reports *)

Section Commands.
Context {F M : Type}.

(** X21: [FindSubCommand] prefers the name to the aliases: a subcommand
    registered under the name is the answer, whatever aliases the others
    have; the answer is nil exactly when no subcommand has the name as its
    key or among its aliases; every answer is a registered subcommand with
    that key or alias; and a subcommand just added is found by its name. *)
Theorem FindSubCommand_name_before_alias (cmd : Cmd.Command F M)
    (order : list (string * Cmd.Command F M)) (name : string) :
  order ≡ₚ map_to_list (Cmd.SubCommands cmd) →
  (∀ sub, Cmd.SubCommands cmd !! name = Some sub →
          Cmd.FindSubCommand cmd order name = Some sub)
  ∧ (Cmd.FindSubCommand cmd order name = None
     ↔ Cmd.SubCommands cmd !! name = None
       ∧ ∀ n sub, Cmd.SubCommands cmd !! n = Some sub → name ∉ Cmd.Aliases sub)
  ∧ (∀ sub, Cmd.FindSubCommand cmd order name = Some sub →
       ∃ n, Cmd.SubCommands cmd !! n = Some sub ∧ (n = name ∨ name ∈ Cmd.Aliases sub))
  ∧ (∀ sub order', Cmd.FindSubCommand (Cmd.AddSubCommand cmd name sub) order' name
                   = Some sub).
Proof.
  intros Hord.
  assert (∀ n sub, (n, sub) ∈ order ↔ Cmd.SubCommands cmd !! n = Some sub) as Hmem.
  { intros n sub. rewrite Hord. apply elem_of_map_to_list. }
  assert (∀ sub : Cmd.Command F M,
            existsb (fun alias => String.eqb alias name) (Cmd.Aliases sub) = true
            ↔ name ∈ Cmd.Aliases sub) as Halias.
  { intros sub. rewrite existsb_exists. split.
    - intros (x & Hx & ->%String.eqb_eq). by apply list_elem_of_In.
    - intros Hin. exists name. split; [by apply list_elem_of_In|apply String.eqb_refl]. }
  unfold Cmd.FindSubCommand. split; [|split; [|split]].
  - by intros sub ->.
  - destruct (Cmd.SubCommands cmd !! name) as [sub|] eqn:Hname.
    { split; [done|by intros [? _]]. }
    destruct (List.find _ order) as [[n sub]|] eqn:Hfind; simpl.
    + split; [done|]. intros [_ Hnone]. exfalso.
      apply find_some in Hfind as [Hin Hal]. simpl in Hal.
      apply list_elem_of_In, Hmem in Hin. apply Halias in Hal. by eapply Hnone.
    + split; [|done]. intros _. split; [done|]. intros n sub Hn Hal.
      apply Hmem, list_elem_of_In in Hn.
      pose proof (find_none _ _ Hfind _ Hn) as Hf. simpl in Hf.
      apply Halias in Hal. congruence.
  - intros sub. destruct (Cmd.SubCommands cmd !! name) as [sub'|] eqn:Hname.
    { intros [= ->]. exists name. by split; [|left]. }
    destruct (List.find _ order) as [[n sub']|] eqn:Hfind; [|done]. simpl.
    intros [= ->]. apply find_some in Hfind as [Hin Hal]. simpl in Hal.
    exists n. split; [by apply Hmem, list_elem_of_In|]. right. by apply Halias.
  - intros sub order'. unfold Cmd.AddSubCommand. simpl. by rewrite lookup_insert_eq.
Qed.

End Commands.

Section ContextData.

(** X22: a value stored in the context with [Set] is what [Get] returns
    for the key, with [true], also on a context whose data map is nil, and
    the other keys are as before; on a new context [Get] returns nil and
    [false]; the typed getters return the stored value when it has their
    type and the zero value of the type otherwise. *)
Theorem context_data_round_trip (ctx : Ctx.CommandContext) (k : string) (value : any) :
  Ctx.Get (Ctx.Set_ ctx k value) k = (value, true)
  ∧ (∀ k', k' ≠ k → Ctx.Get (Ctx.Set_ ctx k value) k' = Ctx.Get ctx k')
  ∧ (∀ args config command sub,
       Ctx.Get (Ctx.NewCommandContext args config command sub) k = (None, false))
  ∧ Ctx.GetString (Ctx.Set_ ctx k value) k
    = match value with Some (VString s) => s | _ => "" end
  ∧ Ctx.GetInt (Ctx.Set_ ctx k value) k
    = match value with Some (VInt i) => i | _ => 0%Z end
  ∧ Ctx.GetBool (Ctx.Set_ ctx k value) k
    = match value with Some (VBool b) => b | _ => false end.
Proof.
  assert (Ctx.Get (Ctx.Set_ ctx k value) k = (value, true)) as Hget.
  { unfold Ctx.Get, Ctx.Set_. simpl. by rewrite lookup_insert_eq. }
  split; [done|]. split; [|split; [done|]].
  - intros k' Hne. unfold Ctx.Get, Ctx.Set_. simpl. rewrite lookup_insert_ne by done.
    by destruct (Ctx.data ctx).
  - unfold Ctx.GetString, Ctx.GetInt, Ctx.GetBool. rewrite Hget.
    by destruct value as [[]|].
Qed.

End ContextData.

Section ReportsProperties.
Context `{Ext : External}.

Implicit Types (c : Config) (h : gmap addr Secret) (w : World) (k : string)
  (def : Definition_).

Lemma lookup_Dump h c k :
  Dump h c !! k
  = (fun def =>
       if secret def then
         if Secret_IsSet (load h (GetSecret c k))
         then "[SECRET:" +:+ Strconv.Itoa (Secret_Size (load h (GetSecret c k))) +:+ " bytes]"
         else "[SECRET:not set]"
       else
         match values c !! k with
         | Some (Some val) => Sprint (Some val)
         | _ => "[not set]"
         end) <$> definitions c !! k.
Proof.
  unfold Dump. rewrite map_lookup_imap. by destruct (definitions c !! k).
Qed.

(** X23: after [Process], [Dump] has an entry for every defined key and
    for no other; the entry of a secret key is "[SECRET:not set]" or gives
    the size of the secret and nothing else of it; the entry of a key with
    an error record is a "not set" one; and the entry of any other key is
    the [%v] of its value, or "[not set]" when the value is nil. *)
Theorem Dump_after_Process w ord h c errs h' c' k :
  ranges_over ord c → initial_or_processed c →
  Process w ord h c = Returned errs h' c' →
  (is_Some (Dump h' c' !! k) ↔ is_Some (definitions c !! k))
  ∧ (∀ def, definitions c !! k = Some def → secret def = true →
       Dump h' c' !! k
       = Some (if Secret_IsSet (load h' (GetSecret c' k))
               then "[SECRET:"
                    +:+ Strconv.Itoa (Secret_Size (load h' (GetSecret c' k))) +:+ " bytes]"
               else "[SECRET:not set]"))
  ∧ (∀ e, e ∈ errs → Key e = k →
       Dump h' c' !! k = Some "[not set]" ∨ Dump h' c' !! k = Some "[SECRET:not set]")
  ∧ (∀ def, definitions c !! k = Some def → secret def = false →
       Dump h' c' !! k
       = Some (match values c' !! k with
               | Some (Some v) => Sprint (Some v)
               | _ => "[not set]"
               end)).
Proof.
  intros Hord Hinit HP.
  destruct (Process_returned_entry _ _ _ _ _ _ _ HP) as [cP Hentry].
  destruct (Process_maps w ord h c cP errs h' c' Hord Hinit Hentry HP)
    as (-> & Hd & _ & _ & _ & Hval & Hsec).
  destruct (ranges_over_resolve ord c Hord) as [_ Hmem].
  rewrite lookup_Dump, Hd. split; [by rewrite fmap_is_Some|].
  split; [|split].
  - intros def -> Hs. simpl. by rewrite Hs.
  - intros e He Hkey.
    apply list_elem_of_omap in He as ([k' def] & Hin & Herr).
    pose proof (error_record_key _ _ _ _ Herr) as Hkey'. simpl in Hkey'.
    assert (k' = k) as -> by congruence.
    apply Hmem in Hin. rewrite Hin. simpl.
    specialize (Hval k). specialize (Hsec k). rewrite Hin in Hval, Hsec.
    simpl in Hval, Hsec. unfold stored_entry in Hval. unfold secret_text in Hsec.
    unfold error_record in Herr. simpl in Herr.
    destruct (resolveValueWithFiles w cP k def) as [[value source] [msg|]]; [|done].
    unfold GetSecret, SecretStore_Get. rewrite Hval, Hsec. simpl.
    destruct (secret def); auto.
  - intros def -> Hs. simpl. by rewrite Hs.
Qed.

Lemma definitionsEqual_refl def : definitionsEqual def def = true.
Proof.
  unfold definitionsEqual.
  rewrite bool_decide_eq_true_2 by done.
  rewrite !String.eqb_refl, !Bool.eqb_reflx. done.
Qed.

(** X24: [checkCommandOverrides] never reaches the panic of the [Get] it
    calls.  Each warning it returns is for a key that the command and the
    global configuration both define, with definitions that
    [shouldWarnAboutOverride] tells apart, and carries the name of the
    command; the old value it shows for a secret key is empty, "not set"
    or the size of the secret; and a command whose definitions are those
    of the global configuration gets no warning. *)
Theorem checkCommandOverrides_returns h c (commandName : string)
    (order : list (string * Definition_)) :
  ∃ warnings,
    checkCommandOverrides h c commandName order = inr warnings
    ∧ (∀ o, o ∈ warnings →
         ow_Command o = commandName
         ∧ ∃ cmdDef globalDef,
             (ow_Key o, cmdDef) ∈ order
             ∧ definitions c !! ow_Key o = Some globalDef
             ∧ shouldWarnAboutOverride globalDef cmdDef = true
             ∧ (secret globalDef = true →
                ow_OldValue o = "" ∨ ow_OldValue o = "[SECRET:not set]"
                ∨ ow_OldValue o
                  = "[SECRET:"
                    +:+ Strconv.Itoa (Secret_Size (load h (GetSecret c (ow_Key o))))
                    +:+ " bytes]"))
    ∧ ((∀ k def, (k, def) ∈ order → definitions c !! k = Some def) → warnings = []).
Proof.
  unfold checkCommandOverrides.
  cut (∀ ws0,
         ∃ added,
           foldl (checkCommandOverride h c commandName) (inr ws0) order = inr (ws0 ++ added)
           ∧ (∀ o, o ∈ added →
                ow_Command o = commandName
                ∧ ∃ cmdDef globalDef,
                    (ow_Key o, cmdDef) ∈ order
                    ∧ definitions c !! ow_Key o = Some globalDef
                    ∧ shouldWarnAboutOverride globalDef cmdDef = true
                    ∧ (secret globalDef = true →
                       ow_OldValue o = "" ∨ ow_OldValue o = "[SECRET:not set]"
                       ∨ ow_OldValue o
                         = "[SECRET:"
                           +:+ Strconv.Itoa (Secret_Size (load h (GetSecret c (ow_Key o))))
                           +:+ " bytes]"))
           ∧ ((∀ k def, (k, def) ∈ order → definitions c !! k = Some def) → added = [])).
  { intros Hcut. destruct (Hcut []) as (added & Heq & Hall & Hnone). by exists added. }
  induction order as [|[k cmdDef] rest IH]; intros ws0.
  { exists []. simpl. rewrite app_nil_r. split; [done|]. split; [|done].
    intros o Ho. by apply elem_of_nil in Ho. }
  assert (∃ new,
            checkCommandOverride h c commandName (inr ws0) (k, cmdDef) = inr (ws0 ++ new)
            ∧ (∀ o, o ∈ new →
                 ow_Command o = commandName ∧ ow_Key o = k
                 ∧ ∃ globalDef,
                     definitions c !! k = Some globalDef
                     ∧ shouldWarnAboutOverride globalDef cmdDef = true
                     ∧ (secret globalDef = true →
                        ow_OldValue o = "" ∨ ow_OldValue o = "[SECRET:not set]"
                        ∨ ow_OldValue o
                          = "[SECRET:"
                            +:+ Strconv.Itoa (Secret_Size (load h (GetSecret c k)))
                            +:+ " bytes]"))
            ∧ (definitions c !! k = Some cmdDef → new = [])) as (new & Hstep & Hnew & Hsame).
  { unfold checkCommandOverride.
    destruct (definitions c !! k) as [globalDef|] eqn:Hk.
    2:{ exists []. rewrite app_nil_r. split; [done|]. split; [|done].
        intros o Ho. by apply elem_of_nil in Ho. }
    destruct (shouldWarnAboutOverride globalDef cmdDef) eqn:Hwarn.
    2:{ exists []. rewrite app_nil_r. split; [done|]. split; [|done].
        intros o Ho. by apply elem_of_nil in Ho. }
    assert (Some globalDef = Some cmdDef → False) as Hdiff.
    { intros [= ->]. unfold shouldWarnAboutOverride in Hwarn.
      by rewrite definitionsEqual_refl in Hwarn. }
    unfold Has, Get, IsSecret. rewrite Hk.
    destruct (values c !! k) as [[v|]|] eqn:Hv.
    - destruct (secret globalDef) eqn:Hs.
      + destruct (Secret_IsSet (load h (GetSecret c k))); eexists; (split; [reflexivity|]);
          (split; [|by intros ?]); intros o ->%list_elem_of_singleton;
          (split; [done|]); (split; [done|]); exists globalDef;
          (split; [done|]); (split; [done|]); intros _; simpl; auto.
      + simpl. eexists. split; [reflexivity|]. split; [|by intros ?].
        intros o ->%list_elem_of_singleton. split; [done|]. split; [done|].
        exists globalDef. split; [done|]. split; [done|]. intros ?. congruence.
    - eexists. split; [reflexivity|]. split; [|by intros ?].
      intros o ->%list_elem_of_singleton. split; [done|]. split; [done|].
      exists globalDef. split; [done|]. split; [done|]. intros _. by left.
    - eexists. split; [reflexivity|]. split; [|by intros ?].
      intros o ->%list_elem_of_singleton. split; [done|]. split; [done|].
      exists globalDef. split; [done|]. split; [done|]. intros _. by left. }
  cbn [foldl]. rewrite Hstep.
  destruct (IH (ws0 ++ new)) as (added & Heq & Hall & Hnone).
  exists (new ++ added). rewrite app_assoc. split; [done|]. split.
  - intros o [Ho|Ho]%elem_of_app.
    + destruct (Hnew o Ho) as (Hc & Hkey & globalDef & Hg & Hw & Hsecret).
      split; [done|]. exists cmdDef, globalDef. rewrite Hkey.
      split; [by left|]. by repeat split.
    + destruct (Hall o Ho) as (Hc & cd & gd & Hin & Hrest).
      split; [done|]. exists cd, gd. split; [by right|done].
  - intros Hsameall. rewrite Hsame, Hnone; [done| |].
    + intros k' def' Hin. apply Hsameall. by right.
    + apply Hsameall. by left.
Qed.

End ReportsProperties.

(** * The distance between command names *)

Section Distance.

(** The textbook recurrence, on the prefixes of length [i] and [j]. *)
Definition cost (a b : string) (i j : nat) : Z :=
  if bool_decide (String.get i a ≠ String.get j b) then 1%Z else 0%Z.

Fixpoint edits (a b : string) (i : nat) : nat → Z :=
  match i with
  | O => fun j => Z.of_nat j
  | S i' =>
      fix row (j : nat) : Z :=
        match j with
        | O => Z.of_nat (S i')
        | S j' => min (edits a b i' (S j') + 1) (row j' + 1) (edits a b i' j' + cost a b i' j')
        end
  end.

Lemma edits_step (a b : string) (i j : nat) :
  edits a b (S i) (S j)
  = min (edits a b i (S j) + 1) (edits a b (S i) j + 1) (edits a b i j + cost a b i j).
Proof. done. Qed.

Lemma edits_zero_r (a b : string) (i : nat) : edits a b i 0 = Z.of_nat i.
Proof. by destruct i. Qed.

Lemma min_spec (x y z : Z) : min x y z = Z.min x (Z.min y z).
Proof.
  unfold min. destruct (x <? y)%Z eqn:H1, (x <? z)%Z eqn:H2, (y <? z)%Z eqn:H3;
    rewrite ?Z.ltb_lt, ?Z.ltb_ge in *; lia.
Qed.

Lemma cost_bounds (a b : string) (i j : nat) : (0 ≤ cost a b i j ≤ 1)%Z.
Proof. unfold cost. case_bool_decide; lia. Qed.

Lemma cost_sym (a b : string) (i j : nat) : cost a b i j = cost b a j i.
Proof. unfold cost. repeat case_bool_decide; congruence. Qed.

Lemma edits_bounds (a b : string) (i j : nat) :
  (Z.abs (Z.of_nat i - Z.of_nat j) ≤ edits a b i j ≤ Z.max (Z.of_nat i) (Z.of_nat j))%Z.
Proof.
  revert j. induction i as [|i IHi]; intros j; [simpl; lia|].
  induction j as [|j IHj]; [rewrite edits_zero_r; lia|].
  rewrite edits_step, min_spec.
  pose proof (IHi (S j)). pose proof (IHi j). pose proof (cost_bounds a b i j). lia.
Qed.

Lemma edits_sym (a b : string) (i j : nat) : edits a b i j = edits b a j i.
Proof.
  revert j. induction i as [|i IHi]; intros j; [by rewrite edits_zero_r|].
  induction j as [|j IHj]; [done|].
  rewrite !edits_step, !min_spec, IHj, (IHi (S j)), (IHi j), (cost_sym a b). lia.
Qed.

Lemma edits_refl (a : string) (i : nat) : edits a a i i = 0%Z.
Proof.
  induction i as [|i IH]; [done|].
  rewrite edits_step, min_spec, IH.
  pose proof (edits_bounds a a i (S i)). pose proof (edits_bounds a a (S i) i).
  unfold cost. rewrite bool_decide_eq_false_2 by (intros H'; by apply H'). lia.
Qed.

Lemma edits_zero (a b : string) (i j : nat) :
  edits a b i j = 0%Z → i = j ∧ ∀ p, (p < i)%nat → String.get p a = String.get p b.
Proof.
  intros Hz. pose proof (edits_bounds a b i j) as Hb.
  assert (i = j) as <- by lia. split; [done|]. clear Hb.
  induction i as [|i IH]; [intros p; lia|].
  rewrite edits_step, min_spec in Hz.
  pose proof (edits_bounds a b i (S i)). pose proof (edits_bounds a b (S i) i).
  pose proof (edits_bounds a b i i). pose proof (cost_bounds a b i i) as Hc.
  assert (edits a b i i = 0%Z ∧ cost a b i i = 0%Z) as [Hi Hcost] by lia.
  intros p Hp. destruct (decide (p = i)) as [->|Hne]; [|apply IH; [done|lia]].
  unfold cost in Hcost. case_bool_decide as Hget; [lia|].
  by destruct (decide (String.get i a = String.get i b)).
Qed.

Lemma edits_ext (a a' b b' : string) (i j : nat) :
  (∀ p, (p < i)%nat → String.get p a = String.get p a') →
  (∀ p, (p < j)%nat → String.get p b = String.get p b') →
  edits a b i j = edits a' b' i j.
Proof.
  revert j. induction i as [|i IHi]; intros j Ha Hb; [done|].
  induction j as [|j IHj]; [done|].
  rewrite !edits_step.
  rewrite (IHi (S j)), (IHi j), IHj; try (intros p Hp; (apply Ha || apply Hb); lia).
  unfold cost. by rewrite (Ha i), (Hb j) by lia.
Qed.

(** ** The matrix *)

Definition shape (r k : nat) (m : list (list Z)) : Prop :=
  length m = r ∧ ∀ i row, m !! i = Some row → length row = k.

Lemma shape_set r k m i j v : shape r k m → shape r k (set_cell m i j v).
Proof.
  intros [Hr Hk]. split; [unfold set_cell; by rewrite length_alter|].
  intros i' row. unfold set_cell. rewrite list_lookup_alter.
  case_decide as Hi; [|apply Hk]. subst i'.
  destruct (m !! i) as [row0|] eqn:Hrow; [|done]. simpl. intros [= <-].
  rewrite length_insert. by eapply Hk.
Qed.

Lemma cell_set_eq r k m i j v :
  shape r k m → (i < r)%nat → (j < k)%nat → cell (set_cell m i j v) i j = v.
Proof.
  intros [Hr Hk] Hi Hj. unfold cell, set_cell. rewrite list_lookup_alter_eq.
  destruct (lookup_lt_is_Some_2 m i) as [row Hrow]; [lia|]. rewrite Hrow. simpl.
  rewrite list_lookup_insert_eq; [done|]. rewrite (Hk i row Hrow). lia.
Qed.

Lemma cell_set_ne m i j v i' j' :
  i' ≠ i ∨ j' ≠ j → cell (set_cell m i j v) i' j' = cell m i' j'.
Proof.
  intros Hne. unfold cell, set_cell. rewrite list_lookup_alter.
  case_decide as Hi; [|done]. subst i'. destruct Hne as [?|Hj]; [done|].
  destruct (m !! i) as [row|]; [|done]. simpl. by rewrite list_lookup_insert_ne.
Qed.

Section Matrix.
Variables (a b : string).
Let la := String.length a.
Let lb := String.length b.

(** Rows [0..n] hold the recurrence, and so does column [0]. *)
Definition rows_done (n : nat) (m : list (list Z)) : Prop :=
  shape (S la) (S lb) m
  ∧ (∀ i j, (i <= n)%nat → (j <= lb)%nat → cell m i j = edits a b i j)
  ∧ (∀ i, (i <= la)%nat → cell m i 0 = Z.of_nat i).

(** Besides, row [n + 1] holds it up to column [jd]. *)
Definition row_started (n jd : nat) (m : list (list Z)) : Prop :=
  rows_done n m ∧ ∀ j, (j <= jd)%nat → cell m (S n) j = edits a b (S n) j.

Lemma fill_cell_step n jd m :
  (n < la)%nat → (jd < lb)%nat →
  row_started n jd m → row_started n (S jd) (fill_cell a b m (S n) (S jd)).
Proof.
  intros Hn Hjd ((Hshape & Hrows & Hcol) & Hrow).
  assert (∀ i' j', i' ≠ S n ∨ j' ≠ S jd →
            cell (fill_cell a b m (S n) (S jd)) i' j' = cell m i' j') as Hother.
  { intros i' j' Hne. unfold fill_cell. by apply cell_set_ne. }
  split; [split; [|split]|].
  - unfold fill_cell. by apply shape_set.
  - intros i j Hi Hj. rewrite Hother by lia. by apply Hrows.
  - intros i Hi. rewrite Hother by lia. by apply Hcol.
  - intros j Hj. destruct (decide (j = S jd)) as [->|Hne].
    + unfold fill_cell. rewrite (cell_set_eq (S la) (S lb)) by (done || lia).
      rewrite edits_step. simpl. rewrite !Nat.sub_0_r.
      rewrite (Hrows n (S jd)), (Hrows n jd), (Hrow jd) by lia. done.
    + rewrite Hother by lia. apply Hrow. lia.
Qed.

Lemma fill_row_steps n : ∀ len jd m,
  (n < la)%nat → (jd + len = lb)%nat →
  row_started n jd m →
  row_started n lb (foldl (fun m j => fill_cell a b m (S n) j) m (seq (S jd) len)).
Proof.
  induction len as [|len IH]; intros jd m Hn Hlen Hm.
  - simpl. by replace lb with jd by lia.
  - simpl. apply IH; [done|lia|]. apply fill_cell_step; [done|lia|done].
Qed.

Lemma fill_rows : ∀ len n m,
  (n + len = la)%nat → rows_done n m →
  rows_done la
    (foldl (fun m i => foldl (fun m j => fill_cell a b m i j) m (seq 1 lb)) m (seq (S n) len)).
Proof.
  induction len as [|len IH]; intros n m Hlen Hm.
  - simpl. by replace la with n by lia.
  - simpl. apply IH; [lia|].
    assert (row_started n 0 m) as Hstart.
    { split; [done|]. intros j Hj. replace j with 0%nat by lia.
      rewrite edits_zero_r. apply Hm. lia. }
    destruct (fill_row_steps n lb 0 m ltac:(lia) ltac:(lia) Hstart)
      as ((Hshape & Hrows & Hcol) & Hrow).
    split; [done|]. split; [|done].
    intros i j Hi Hj. destruct (decide (i = S n)) as [->|Hne]; [by apply Hrow|].
    apply Hrows; lia.
Qed.

Lemma init_column : ∀ len start m,
  shape (S la) (S lb) m → (start + len = S la)%nat →
  (∀ i, (i < start)%nat → cell m i 0 = Z.of_nat i) →
  let m' := foldl (fun m i => set_cell m i 0 (Z.of_nat i)) m (seq start len) in
  shape (S la) (S lb) m' ∧ ∀ i, (i <= la)%nat → cell m' i 0 = Z.of_nat i.
Proof.
  induction len as [|len IH]; intros start m Hshape Hlen Hm; simpl.
  - split; [done|]. intros i Hi. apply Hm. lia.
  - apply IH; [by apply shape_set|lia|].
    intros i Hi. destruct (decide (i = start)) as [->|Hne].
    + rewrite (cell_set_eq (S la) (S lb)); (done || lia).
    + rewrite cell_set_ne by auto. apply Hm. lia.
Qed.

Lemma init_row : ∀ len start m,
  shape (S la) (S lb) m → (start + len = S lb)%nat →
  (∀ i, (i <= la)%nat → cell m i 0 = Z.of_nat i) →
  (∀ j, (j < start)%nat → cell m 0 j = Z.of_nat j) →
  let m' := foldl (fun m j => set_cell m 0 j (Z.of_nat j)) m (seq start len) in
  shape (S la) (S lb) m'
  ∧ (∀ i, (i <= la)%nat → cell m' i 0 = Z.of_nat i)
  ∧ ∀ j, (j <= lb)%nat → cell m' 0 j = Z.of_nat j.
Proof.
  induction len as [|len IH]; intros start m Hshape Hlen Hcol Hm; simpl.
  - split; [done|]. split; [done|]. intros j Hj. apply Hm. lia.
  - apply IH; [by apply shape_set|lia| |].
    + intros i Hi. destruct (decide (i = 0%nat ∧ start = 0%nat)) as [[-> ->]|Hne].
      * rewrite (cell_set_eq (S la) (S lb)); (done || lia).
      * rewrite cell_set_ne by lia. by apply Hcol.
    + intros j Hj. destruct (decide (j = start)) as [->|Hne].
      * rewrite (cell_set_eq (S la) (S lb)); (done || lia).
      * rewrite cell_set_ne by auto. apply Hm. lia.
Qed.

Lemma levenshteinDistance_edits : levenshteinDistance a b = edits a b la lb.
Proof.
  unfold levenshteinDistance. fold la lb.
  destruct (la =? 0)%nat eqn:Ha; [apply Nat.eqb_eq in Ha; by rewrite Ha|].
  destruct (lb =? 0)%nat eqn:Hb; [apply Nat.eqb_eq in Hb; by rewrite Hb, edits_zero_r|].
  apply Nat.eqb_neq in Ha, Hb.
  replace (la + 1)%nat with (S la) by lia. replace (lb + 1)%nat with (S lb) by lia.
  assert (shape (S la) (S lb) (replicate (S la) (replicate (S lb) 0%Z))) as H0.
  { split; [by rewrite length_replicate|].
    intros i row [-> _]%lookup_replicate. by rewrite length_replicate. }
  destruct (init_column (S la) 0 _ H0 ltac:(lia) ltac:(intros; lia)) as [H1 Hcol].
  destruct (init_row (S lb) 0 _ H1 ltac:(lia) Hcol ltac:(intros; lia)) as (H2 & Hcol2 & Hrow2).
  set (m2 := foldl (fun m j => set_cell m 0 j (Z.of_nat j)) _ (seq 0 (S lb))) in *.
  assert (rows_done 0 m2) as Hdone.
  { split; [done|]. split; [|done]. intros i j Hi Hj. replace i with 0%nat by lia.
    by apply Hrow2. }
  destruct (fill_rows la 0 m2 ltac:(lia) Hdone) as (_ & Hrows & _).
  apply Hrows; lia.
Qed.

End Matrix.

Lemma get_beyond (s : string) (p : nat) : (String.length s <= p)%nat → String.get p s = None.
Proof.
  revert p. induction s as [|ch s IH]; intros p Hp; [done|].
  destruct p as [|p]; simpl in *; [lia|]. apply IH. lia.
Qed.

Lemma levenshteinDistance_is_a_distance_aux (a b : string) :
  (Z.abs (Z.of_nat (String.length a) - Z.of_nat (String.length b))
   ≤ levenshteinDistance a b
   ≤ Z.max (Z.of_nat (String.length a)) (Z.of_nat (String.length b)))%Z.
Proof. rewrite levenshteinDistance_edits. apply edits_bounds. Qed.

(** X18: [levenshteinDistance] is zero on equal strings and on them only,
    it is symmetric, and it lies between the difference of the two lengths
    and the greater of them. *)
Theorem levenshteinDistance_is_a_distance (a b : string) :
  levenshteinDistance a a = 0%Z
  ∧ (levenshteinDistance a b = 0%Z ↔ a = b)
  ∧ levenshteinDistance a b = levenshteinDistance b a
  ∧ (Z.abs (Z.of_nat (String.length a) - Z.of_nat (String.length b))
     ≤ levenshteinDistance a b
     ≤ Z.max (Z.of_nat (String.length a)) (Z.of_nat (String.length b)))%Z.
Proof.
  rewrite !levenshteinDistance_edits. split; [apply edits_refl|]. split; [|split].
  - split; [|intros ->; apply edits_refl].
    intros [Hlen Hget]%edits_zero. apply String.get_correct. intros p.
    destruct (decide (p < String.length a)%nat) as [Hp|Hp]; [by apply Hget|].
    rewrite !get_beyond; [done|lia|lia].
  - apply edits_sym.
  - apply edits_bounds.
Qed.

Lemma get_snoc (s : string) (x : ascii) :
  String.get (String.length s) (s +:+ String x "") = Some x
  ∧ ∀ p, (p < String.length s)%nat → String.get p (s +:+ String x "") = String.get p s.
Proof.
  split.
  - pose proof (String.append_correct2 s (String x "") 0) as H. simpl in H. by rewrite <- H.
  - intros p Hp. symmetry. by apply String.append_correct1.
Qed.

(** X19: [levenshteinDistance] computes the recurrence of the edit
    distance: against the empty string it is the length of the other
    string, and for two strings that end in the bytes [x] and [y] it is the
    least of the distance after a deletion plus one, the distance after an
    insertion plus one, and the distance of the two strings without their
    last bytes, plus one when [x] and [y] differ. *)
Theorem levenshteinDistance_recurrence (a b : string) (x y : ascii) :
  levenshteinDistance "" b = Z.of_nat (String.length b)
  ∧ levenshteinDistance a "" = Z.of_nat (String.length a)
  ∧ levenshteinDistance (a +:+ String x "") (b +:+ String y "")
    = Z.min (levenshteinDistance a (b +:+ String y "") + 1)
        (Z.min (levenshteinDistance (a +:+ String x "") b + 1)
               (levenshteinDistance a b + (if decide (x = y) then 0 else 1))).
Proof.
  rewrite !levenshteinDistance_edits, !length_append. simpl.
  split; [done|]. split; [apply edits_zero_r|].
  rewrite !Nat.add_1_r, edits_step, min_spec.
  destruct (get_snoc a x) as [Hax Ha]. destruct (get_snoc b y) as [Hby Hb].
  f_equal; [|f_equal].
  - f_equal. apply edits_ext; [|done]. intros p Hp. by apply Ha.
  - f_equal. apply edits_ext; [done|]. intros p Hp. by apply Hb.
  - f_equal; [by apply edits_ext|].
    unfold cost. rewrite Hax, Hby. case_bool_decide as Hne; destruct (decide (x = y));
      congruence.
Qed.

(** X20: [findSuggestions] answers "no similar commands found" when every
    command is more than three edits away, and the matching names joined
    by a comma otherwise; a command whose length differs from that of the
    input by more than three bytes is never suggested, and for an input of
    at most three bytes every command of at most three bytes is. *)
Theorem findSuggestions_within_three_edits (names : list string) (input : string) :
  let near := List.filter (fun name => (levenshteinDistance input name <=? 3)%Z) names in
  (near = [] → findSuggestions names input = "no similar commands found")
  ∧ (near ≠ [] → findSuggestions names input = Strings.Join near ", ")
  ∧ (∀ name, name ∈ near ↔ name ∈ names ∧ (levenshteinDistance input name ≤ 3)%Z)
  ∧ (∀ name, (String.length input + 3 < String.length name
              ∨ String.length name + 3 < String.length input)%nat → name ∉ near)
  ∧ (∀ name, name ∈ names → (String.length input <= 3)%nat →
             (String.length name <= 3)%nat → name ∈ near).
Proof.
  intros near.
  assert (∀ name, name ∈ near ↔ name ∈ names ∧ (levenshteinDistance input name ≤ 3)%Z) as Hnear.
  { intros name. unfold near. rewrite !list_elem_of_In, filter_In, Z.leb_le. done. }
  split; [|split; [|split; [done|split]]].
  - unfold findSuggestions. fold near. by intros ->.
  - unfold findSuggestions. fold near. by destruct near.
  - intros name Hlen [_ Hd]%Hnear.
    destruct (levenshteinDistance_is_a_distance_aux input name) as [Hlo _]. lia.
  - intros name Hin Hi Hn. apply Hnear. split; [done|].
    destruct (levenshteinDistance_is_a_distance_aux input name) as [_ Hhi]. lia.
Qed.

End Distance.

(** * Further properties of lists *)

Section Lists.
Context `{Ext : External}.

Implicit Types (c : Config) (w : World) (k : string) (def : Definition_).

(** ** Splitting what was joined *)

Lemma split_sep_piece (d : ascii) (x : string) : ∀ cur rest,
  Strings.Contains x (String d "") = false →
  Strings.split_sep (String d "") 0 cur (x +:+ rest)
  = Strings.split_sep (String d "") 0 (rev (list_ascii_of_string x) ++ cur) rest.
Proof.
  induction x as [|ch x IH]; intros cur rest Hx; [done|].
  simpl in Hx. apply orb_false_iff in Hx as [Hhead Htail].
  change (String ch x +:+ rest) with (String ch (x +:+ rest)).
  cbn [Strings.split_sep]. simpl String.prefix.
  simpl in Hhead. destruct (ascii_dec d ch) as [->|Hne]; [by destruct x|].
  rewrite IH by done. simpl. by rewrite <- app_assoc.
Qed.

Lemma split_sep_delimiter (d : ascii) (cur : list ascii) (rest : string) :
  Strings.split_sep (String d "") 0 cur (String d rest)
  = Strings.rev_string cur :: Strings.split_sep (String d "") 0 [] rest.
Proof. simpl. destruct (ascii_dec d d); [by destruct rest|done]. Qed.

Lemma rev_string_piece (x : string) :
  Strings.rev_string (rev (list_ascii_of_string x) ++ []) = x.
Proof.
  unfold Strings.rev_string. rewrite app_nil_r, rev_involutive.
  apply string_of_list_ascii_of_string.
Qed.

Lemma append_empty_r (x : string) : x +:+ "" = x.
Proof.
  induction x as [|ch x IH]; [done|].
  change (String ch (x +:+ "") = String ch x). by rewrite IH.
Qed.

Lemma Split_Join (d : ascii) (l : list string) :
  l ≠ [] →
  (∀ p, p ∈ l → Strings.Contains p (String d "") = false) →
  Strings.Split (Strings.Join l (String d "")) (String d "") = l.
Proof.
  unfold Strings.Split, Strings.Join.
  induction l as [|x l IH]; intros Hne Hall; [done|].
  destruct l as [|y l].
  - simpl. rewrite <- (append_empty_r x) at 1.
    rewrite split_sep_piece by (apply Hall; by left). simpl. by rewrite rev_string_piece.
  - change (String.concat (String d "") (x :: y :: l))
      with (x +:+ String d (String.concat (String d "") (y :: l))).
    rewrite split_sep_piece by (apply Hall; by left).
    rewrite split_sep_delimiter, rev_string_piece. f_equal.
    apply IH; [done|]. intros p Hp. apply Hall. by right.
Qed.

(** X27: a non-empty list of strings joined with a one-byte delimiter
    parses back, as a string list, to the same list, provided no element
    holds the delimiter, is empty, or has white space around it. *)
Theorem joined_strings_parse_back (d : ascii) (l : list string) :
  l ≠ [] →
  (∀ p, p ∈ l → p ≠ "" ∧ Strings.TrimSpace p = p
                ∧ Strings.Contains p (String d "") = false) →
  parseValue (Strings.Join l (String d "")) TypeStringSlice (String d "")
  = (Some (VStringSlice l), None).
Proof.
  intros Hne Hall. unfold parseValue.
  assert (Strings.Join l (String d "") ≠ "") as Hraw.
  { destruct l as [|x l]; [done|]. destruct (Hall x) as (Hx & _); [by left|].
    unfold Strings.Join. destruct l; [done|].
    change (String.concat (String d "") (x :: s :: l))
      with (x +:+ String d (String.concat (String d "") (s :: l))).
    by destruct x. }
  rewrite (eqb_empty_false _ Hraw), Split_Join by (done || intros p Hp; by apply Hall).
  f_equal. f_equal. f_equal. clear Hne Hraw.
  induction l as [|x l IH]; [done|]. simpl.
  destruct (Hall x) as (Hx & -> & _); [by left|].
  rewrite (eqb_empty_false _ Hx). simpl. f_equal. apply IH. intros p Hp. apply Hall. by right.
Qed.

(** ** Integers in a list *)

(** The bytes of a decimal integer: digits and the minus sign. *)
Definition plain_byte (ch : ascii) : bool := is_digit ch || byte_is 45 ch.

Definition plain (s : string) : Prop :=
  forallb plain_byte (list_ascii_of_string s) = true.

Lemma find_plain (ch : ascii) (l : list ascii) (encs : list (list ascii)) :
  plain_byte ch = true →
  forallb (fun e => match e with [] => false | a :: _ => negb (plain_byte a) end) encs = true →
  List.find (fun e => Strings.is_prefix e (ch :: l)) encs = None.
Proof.
  intros Hch. induction encs as [|e encs IH]; [done|]. simpl.
  intros [He Hrest]%andb_true_iff. destruct e as [|a e]; [done|]. simpl.
  destruct (Ascii.eqb_spec a ch) as [->|Hne]; [by rewrite Hch in He|]. by apply IH.
Qed.

Lemma strip_plain (fuel : nat) (ch : ascii) (l : list ascii) (encs : list (list ascii)) :
  plain_byte ch = true →
  forallb (fun e => match e with [] => false | a :: _ => negb (plain_byte a) end) encs = true →
  Strings.strip fuel encs (ch :: l) = ch :: l.
Proof. intros Hch Hencs. destruct fuel; [done|]. simpl. by rewrite find_plain. Qed.

Lemma TrimSpace_plain (s : string) : plain s → Strings.TrimSpace s = s.
Proof.
  unfold plain, Strings.TrimSpace. intros Hs.
  destruct (list_ascii_of_string s) as [|ch l] eqn:Hl.
  { destruct s; [done|discriminate]. }
  assert (plain_byte ch = true) as Hch by (simpl in Hs; by apply andb_true_iff in Hs as [? _]).
  rewrite strip_plain by (done || by vm_compute).
  assert (forallb plain_byte (rev (ch :: l)) = true) as Hrev.
  { apply forallb_forall. intros x Hx%in_rev. by eapply forallb_forall in Hs. }
  destruct (rev (ch :: l)) as [|ch' l'] eqn:Hr.
  { by apply (f_equal (@length ascii)) in Hr; rewrite length_rev in Hr. }
  assert (plain_byte ch' = true) as Hch'
    by (simpl in Hrev; by apply andb_true_iff in Hrev as [? _]).
  rewrite strip_plain by (done || by vm_compute).
  unfold Strings.rev_string. rewrite <- Hr, rev_involutive, <- Hl.
  apply string_of_list_ascii_of_string.
Qed.

Lemma Contains_plain (s : string) : plain s → Strings.Contains s "," = false.
Proof.
  unfold plain. induction s as [|ch s IH]; [done|].
  cbn [list_ascii_of_string forallb]. intros [Hch Hs]%andb_true_iff.
  cbn [Strings.Contains String.prefix]. rewrite (IH Hs), orb_false_r.
  destruct (ascii_dec "," ch) as [<-|Hne]; [by vm_compute in Hch|done].
Qed.

Lemma digits_of_plain (fuel : nat) : ∀ n acc,
  plain acc → plain (Strconv.digits_of fuel n acc).
Proof.
  induction fuel as [|f IH]; intros n acc Hacc; [done|]. simpl.
  assert (0 ≤ n mod 10 < 10)%Z as Hd by (apply Z.mod_pos_bound; lia).
  destruct (digit_char_spec _ Hd) as (Hdig & _). fold (digit_char (n mod 10)).
  assert (plain (String (digit_char (n mod 10)) acc)) as Hnext.
  { unfold plain. simpl. unfold plain_byte at 1. by rewrite Hdig. }
  destruct (n <? 10)%Z; [done|]. by apply IH.
Qed.

Lemma plain_cons (ch : ascii) (s : string) :
  plain_byte ch = true → plain s → plain (String ch s).
Proof. unfold plain. cbn [list_ascii_of_string forallb]. by intros -> ->. Qed.

Lemma Itoa_plain (n : Z) : plain (Strconv.Itoa n).
Proof.
  unfold Strconv.Itoa. destruct (n <? 0)%Z.
  - apply (plain_cons "-" (Strconv.FormatUint (- n))); [done|]. by apply digits_of_plain.
  - by apply digits_of_plain.
Qed.

Lemma collect_int64s_Itoa (l : list Z) :
  Forall (fun n => (- 2 ^ 63 ≤ n < 2 ^ 63)%Z) l →
  collect_int64s (map Strconv.Itoa l) = inr l.
Proof.
  induction 1 as [|n l Hn Hl IH]; [done|]. simpl.
  rewrite (TrimSpace_plain _ (Itoa_plain n)), (eqb_empty_false _ (Itoa_not_empty n)).
  rewrite ParseInt_Itoa.
  assert ((- 2 ^ 63 <=? n)%Z = true) as -> by (apply Z.leb_le; lia).
  assert ((n <? 2 ^ 63)%Z = true) as -> by (apply Z.ltb_lt; lia).
  simpl. by rewrite IH.
Qed.

(** X28: a non-empty list of integers (within int64) of a configuration
    file, read for a key declared Int64Slice with the delimiter ",",
    resolves to the list of those integers, in order, with source "file":
    the list is joined into one string and parsed back without loss. *)
Theorem file_integer_list_is_read_back w c k def (l : list Z) :
  getFileValue c k = Some (FSlice (map FInt l)) →
  valueType def = TypeInt64Slice → delimiter def = "," →
  l ≠ [] → Forall (fun n => (- 2 ^ 63 ≤ n < 2 ^ 63)%Z) l →
  resolveValueWithFiles w c k def
  = (Some (VInt64Slice l), "file",
     runValidations (validations def) (Some (VInt64Slice l))).
Proof.
  intros Hfile Hty Hdelim Hne Hrange.
  assert (map Sprint_file (map FInt l) = map Strconv.Itoa l) as Hitems.
  { rewrite map_map. by apply map_ext. }
  assert (Strings.Join (map Strconv.Itoa l) "," ≠ "") as Hraw.
  { destruct l as [|n l]; [done|]. unfold Strings.Join. pose proof (Itoa_not_empty n) as Hn.
    destruct l as [|m l]; [done|].
    change (String.concat "," (map Strconv.Itoa (n :: m :: l)))
      with (Strconv.Itoa n +:+ String "," (String.concat "," (map Strconv.Itoa (m :: l)))).
    by destruct (Strconv.Itoa n). }
  rewrite (resolve_file w c k def _ (Strings.Join (map Strconv.Itoa l) ",") Hfile);
    [|by simpl; rewrite Hitems, Hdelim|done].
  rewrite Hty, Hdelim. unfold parseValue.
  rewrite (eqb_empty_false _ Hraw).
  rewrite (Split_Join "," (map Strconv.Itoa l)).
  - by rewrite (collect_int64s_Itoa l Hrange).
  - by destruct l.
  - intros p (n & -> & _)%list_elem_of_fmap. apply Contains_plain, Itoa_plain.
Qed.

End Lists.

(** * Further properties of flags and of overwritten secrets *)

Section Flags.
Context `{Ext : External}.

Implicit Types (c : Config) (h : gmap addr Secret) (w : World) (k : string)
  (def : Definition_) (ss : gmap string addr).



(** X30: [Store] does not destroy the secret it replaces: after a second
    [Store] under the same key, the handle taken after the first one still
    reads the first value, and [DestroyAll] does not wipe it, since the
    store no longer knows it; the handle of the second value is wiped. *)
Theorem overwritten_secret_is_not_wiped h ss k (v1 v2 : string) :
  (∀ k' a, ss !! k' = Some a → is_Some (h !! a)) →
  let h1 := (SecretStore_Store h ss k v1).1 in
  let ss1 := (SecretStore_Store h ss k v1).2 in
  let first := SecretStore_Get ss1 k in
  let h2 := (SecretStore_Store h1 ss1 k v2).1 in
  let ss2 := (SecretStore_Store h1 ss1 k v2).2 in
  let h3 := (SecretStore_DestroyAll h2 ss2).1 in
  Secret_String (load h2 first) = v1
  ∧ Secret_String (load h3 first) = v1
  ∧ Secret_String (load h3 (SecretStore_Get ss2 k)) = "".
Proof.
  intros Hinv h1 ss1 first h2 ss2 h3.
  set (a1 := fresh (dom h)).
  assert (h1 = <[a1 := newSecret v1]> h ∧ ss1 = <[k := a1]> ss) as [Hh1 Hss1] by done.
  set (a2 := fresh (dom h1)).
  assert (h2 = <[a2 := newSecret v2]> h1 ∧ ss2 = <[k := a2]> ss1) as [Hh2 Hss2] by done.
  assert (first = Stored a1) as Hfirst.
  { unfold first, SecretStore_Get. by rewrite Hss1, lookup_insert_eq. }
  assert (a1 ∉ dom h) as Ha1 by apply is_fresh.
  assert (a2 ≠ a1) as Hne.
  { intros Heq. pose proof (is_fresh (dom h1)) as Hfresh. fold a2 in Hfresh.
    apply Hfresh. rewrite Heq, Hh1, dom_insert. set_solver. }
  assert (h2 !! a1 = Some (newSecret v1)) as Hold.
  { by rewrite Hh2, lookup_insert_ne, Hh1, lookup_insert_eq. }
  assert (∀ k', ss2 !! k' ≠ Some a1) as Hgone.
  { intros k'. rewrite Hss2, Hss1. destruct (decide (k' = k)) as [->|Hk].
    - rewrite lookup_insert_eq. congruence.
    - rewrite !lookup_insert_ne by done. intros Hk'. apply Ha1.
      apply elem_of_dom. by eapply Hinv. }
  split; [|split].
  - rewrite Hfirst. unfold load. rewrite Hold. apply String_newSecret.
  - rewrite Hfirst. unfold h3, load. rewrite (DestroyAll_frame h2 ss2 a1 Hgone), Hold.
    apply String_newSecret.
  - unfold h3. by rewrite load_destroyed.
Qed.

End Flags.

(** * Examples *)

(** The runs below use no URL, no float64 rendering and no non-ASCII key,
    so they hold for every instance of [External], as the theorems above do;
    the closed statements take the instance that knows no URL. *)
Definition plain_external : External :=
  {| url_Parse := fun _ => None;
     FormatFloat := fun _ => "";
     unicode_lower := fun s => s |}.

#[local] Existing Instance plain_external.

Definition range_of_map (c : Config) : RangeOrder :=
  mkRangeOrder (map_to_list (definitions c)) (map_to_list (definitions c))
               (map_to_list (definitions c)).

Lemma range_of_map_ranges `{Ext : External} (c : Config) : ranges_over (range_of_map c) c.
Proof. by repeat split. Qed.

Lemma new_is_initial `{Ext : External} (c : Config) :
  processed c = false → values c = ∅ → secrets c = ∅ → initial_or_processed c.
Proof. by intros _ Hv Hs _. Qed.

(** The configuration [Process] reads its flags from, for a run that does
    not panic. *)
Definition entry_of `{Ext : External} (w : World) (c : Config) : Config :=
  match entryConfig w (range_of_map c) c with
  | inr cP => cP
  | inl _ => c
  end.

(** ** A flag and an environment variable *)

Definition port_world : World :=
  mkWorld (<["PORT" := "3000"]> ∅) "app" ["--port"; "9000"].

Definition port_definition (d : Definition_) : Definition_ :=
  Builder.Flag "port" (Builder.Env "PORT" (Builder.Int64 d)).

Definition port_config : Config := Define "PORT" port_definition (New port_world).

Lemma port_run_any_external `{Ext : External} :
  ∃ h' c',
    Process port_world (range_of_map port_config) ∅ port_config = Returned [] h' c'
    ∧ flagString c' "PORT" = "9000"
    ∧ Getenv port_world "PORT" = "3000"
    ∧ values c' !! "PORT" = Some (Some (VInt64 3000))
    ∧ overrideWarnings c'
      = [mkOverrideWarning "PORT" "" "environment" "flag" "3000" "9000"
           "Command-line flag overrides environment variable"].
Proof. eexists _, _. split; [by vm_compute|]. by vm_compute. Qed.

(** C1 fails on the code: with [--port 9000] on the command line and
    [PORT=3000] in the environment, [Process] resolves 3000, the value of
    the environment variable, and at the same time records the warning
    that the flag overrides the environment variable. *)
Theorem process_resolves_environment_over_flag :
  ∃ h' c',
    Process port_world (range_of_map port_config) ∅ port_config = Returned [] h' c'
    ∧ flagString c' "PORT" = "9000"
    ∧ Getenv port_world "PORT" = "3000"
    ∧ values c' !! "PORT" = Some (Some (VInt64 3000))
    ∧ overrideWarnings c'
      = [mkOverrideWarning "PORT" "" "environment" "flag" "3000" "9000"
           "Command-line flag overrides environment variable"].
Proof. apply port_run_any_external. Qed.

(** ** A secret and an unset key *)

Definition secret_world : World :=
  mkWorld (<["API_KEY" := "s3cr3t-val"]> ∅) "app" [].

Definition api_key_definition : Definition_ :=
  Builder.Required (Builder.Secret (Builder.Env "API_KEY" (Builder.String_ (newDefinition "API_KEY")))).

Definition secret_config : Config :=
  Define "OPT" (fun d => d)
    (Define "API_KEY"
       (fun d => Builder.Required (Builder.Secret (Builder.Env "API_KEY" (Builder.String_ d))))
       (New secret_world)).

Lemma secret_run_any_external `{Ext : External} :
  ∃ h' c',
    Process secret_world (range_of_map secret_config) ∅ secret_config = Returned [] h' c'
    ∧ definitions secret_config !! "API_KEY" = Some api_key_definition
    ∧ values c' !! "API_KEY" = Some (Some (VString "[SECRET]"))
    ∧ is_Some (secrets c' !! "API_KEY")
    ∧ definitions secret_config !! "OPT" = Some (newDefinition "OPT")
    ∧ required (newDefinition "OPT") = false
    ∧ resolveValueWithFiles secret_world (entry_of secret_world secret_config) "OPT"
        (newDefinition "OPT") = (None, "none", None)
    ∧ values c' !! "OPT" = Some None
    ∧ secrets c' !! "OPT" = None.
Proof.
  eexists _, _. split; [by vm_compute|].
  repeat (split; [vm_compute; first [reflexivity | by eexists]|]).
  vm_compute; reflexivity.
Qed.

(** C2 fails as stated: after a run without errors the secret key API_KEY
    has an entry in both maps, and the key OPT, which has no value and is
    not required, has an entry (nil) in the values map. *)
Lemma successful_process_counterexample :
  ∃ h' c',
    Process secret_world (range_of_map secret_config) ∅ secret_config = Returned [] h' c'
    ∧ definitions secret_config !! "API_KEY" = Some api_key_definition
    ∧ values c' !! "API_KEY" = Some (Some (VString "[SECRET]"))
    ∧ is_Some (secrets c' !! "API_KEY")
    ∧ definitions secret_config !! "OPT" = Some (newDefinition "OPT")
    ∧ required (newDefinition "OPT") = false
    ∧ resolveValueWithFiles secret_world (entry_of secret_world secret_config) "OPT"
        (newDefinition "OPT") = (None, "none", None)
    ∧ values c' !! "OPT" = Some None
    ∧ secrets c' !! "OPT" = None.
Proof. apply secret_run_any_external. Qed.


Definition errors_of (o : Outcome) : list ConfigError :=
  match o with Returned errs _ _ => errs | Panicked _ => [] end.

Definition heap_of (o : Outcome) : gmap addr Secret :=
  match o with Returned _ h _ => h | Panicked _ => ∅ end.

Definition config_of (w : World) (o : Outcome) : Config :=
  match o with Returned _ _ c => c | Panicked _ => New w end.

Definition secret_run : Outcome :=
  Process secret_world (range_of_map secret_config) ∅ secret_config.

Lemma secret_run_returns :
  secret_run = Returned [] (heap_of secret_run) (config_of secret_world secret_run).
Proof. by vm_compute. Qed.

Lemma secret_entry :
  entryConfig secret_world (range_of_map secret_config) secret_config
  = inr (entry_of secret_world secret_config).
Proof. by vm_compute. Qed.

(** C10 at the key OPT of [secret_config], which has no source at all. *)
Lemma unset_key_is_stored_nil_witness :
  ∃ errs h' c',
    Process secret_world (range_of_map secret_config) ∅ secret_config = Returned errs h' c'
    ∧ values c' !! "OPT" = Some None
    ∧ Has c' "OPT" = false
    ∧ GetOr TString c' "OPT" (Some (VString "fallback")) = Some (VString "fallback")
    ∧ Get TString c' "OPT" = GetPanic "commandkit: key 'OPT' has type <nil>, not string".
Proof.
  apply (unset_key_is_stored_nil secret_world (range_of_map secret_config) ∅ secret_config
           (entry_of secret_world secret_config) "OPT" (newDefinition "OPT") TString
           (Some (VString "fallback"))).
  - apply range_of_map_ranges.
  - exact secret_entry.
  - reflexivity.
  - reflexivity.
  - reflexivity.
  - reflexivity.
  - reflexivity.
  - left; reflexivity.
  - left; reflexivity.
Defined.

(** C3 at the key API_KEY of [secret_config], set in the environment. *)
Lemma secret_from_environment_witness :
  ∃ errs h' c',
    Process secret_world (range_of_map secret_config) ∅ secret_config = Returned errs h' c'
    ∧ values c' !! "API_KEY" = Some (Some (VString "[SECRET]"))
    ∧ Secret_IsSet (load h' (GetSecret c' "API_KEY")) = true
    ∧ Secret_Size (load h' (GetSecret c' "API_KEY")) = 10%Z
    ∧ Secret_String (load h' (GetSecret c' "API_KEY")) = "s3cr3t-val"
    ∧ Get TString c' "API_KEY"
      = GetPanic "commandkit: key 'API_KEY' is a secret, use GetSecret() instead".
Proof.
  apply (secret_from_environment secret_world (range_of_map secret_config) ∅ secret_config
           (entry_of secret_world secret_config) "API_KEY" api_key_definition
           "s3cr3t-val" TString).
  - apply range_of_map_ranges.
  - exact secret_entry.
  - reflexivity.
  - reflexivity.
  - reflexivity.
  - reflexivity.
  - discriminate.
  - reflexivity.
  - discriminate.
  - reflexivity.
Defined.

(** The amended C2 at the run of [secret_config]. *)
Lemma successful_process_entries_witness :
  ∃ cP,
    entryConfig secret_world (range_of_map secret_config) secret_config = inr cP
    ∧ ∀ k def,
        definitions secret_config !! k = Some def →
        ∃ value source,
          resolveValueWithFiles secret_world cP k def = (value, source, None)
          ∧ values (config_of secret_world secret_run) !! k
            = Some (if secret def && bool_decide (is_Some value)
                    then Some (VString "[SECRET]") else value)
          ∧ (is_Some (secrets (config_of secret_world secret_run) !! k)
             ↔ secret def = true ∧ is_Some value).
Proof.
  apply (successful_process_entries secret_world (range_of_map secret_config) ∅
           secret_config (heap_of secret_run)).
  - apply range_of_map_ranges.
  - apply new_is_initial; reflexivity.
  - exact secret_run_returns.
Defined.

(** C8 at the run of [secret_config], processed a second time. *)
Lemma reprocess_is_idempotent_witness :
  (∀ w',
     ∃ errs'' h'' c'',
       Process w' (range_of_map secret_config) (heap_of secret_run)
         (config_of secret_world secret_run) = Returned errs'' h'' c''
       ∧ ∀ k,
           values c'' !! k
           = definitions secret_config !! k
             ≫= stored_entry w' (parseFlags w' (config_of secret_world secret_run)) k)
  ∧ ∃ errs' h2 c2,
      Process secret_world (range_of_map secret_config) (heap_of secret_run)
        (config_of secret_world secret_run) = Returned errs' h2 c2
      ∧ values c2 = values (config_of secret_world secret_run)
      ∧ errs' ≡ₚ []
      ∧ (∀ k,
           load h2 (GetSecret c2 k)
           = load (heap_of secret_run) (GetSecret (config_of secret_world secret_run) k))
      ∧ ∀ k a,
          secrets (config_of secret_world secret_run) !! k = Some a →
          h2 !! a = Some (mkSecret None) ∧ secrets c2 !! k ≠ Some a.
Proof.
  apply (reprocess_is_idempotent secret_world (range_of_map secret_config)
           (range_of_map secret_config) ∅ secret_config).
  - apply range_of_map_ranges.
  - apply range_of_map_ranges.
  - apply new_is_initial; reflexivity.
  - exact secret_run_returns.
Defined.

(** ** Several errors in one run *)

Definition service_world : World := mkWorld ∅ "app" ["--port"; "abc"].

Definition service_config : Config :=
  Define "HOST"
    (fun d => Builder.Required (Builder.Flag "host" (Builder.Env "HOST" (Builder.String_ d))))
    (Define "PORT" (fun d => Builder.Flag "port" (Builder.Env "PORT" (Builder.Int64 d)))
       (Define "NAME" (fun d => Builder.Default (Some (VString "svc")) (Builder.String_ d))
          (New service_world))).

Lemma service_definitions (k : string) (def : Definition_) :
  definitions service_config !! k = Some def →
  (k = "HOST" ∧ flag def = "host") ∨ (k = "PORT" ∧ flag def = "port")
  ∨ (k = "NAME" ∧ flag def = "").
Proof.
  unfold service_config, Define; cbn [definitions New].
  intros H.
  apply lookup_insert_Some in H as [[<- <-]|[_ H]]; [by left|].
  apply lookup_insert_Some in H as [[<- <-]|[_ H]]; [by right; left|].
  apply lookup_insert_Some in H as [[<- <-]|[_ H]]; [by right; right|].
  by rewrite lookup_empty in H.
Qed.

Lemma service_registrable : registrable service_config.
Proof.
  split.
  - intros k def Hin [Hflag _]. apply elem_of_map_to_list, service_definitions in Hin.
    destruct Hin as [[_ ->]|[[_ ->]|[_ Hempty]]]; [done..|]. by destruct Hflag.
  - intros k1 d1 k2 d2 H1 H2 Hne [Hf1 _] [Hf2 _].
    apply elem_of_map_to_list, service_definitions in H1, H2.
    destruct H1 as [[-> ->]|[[-> ->]|[_ He]]], H2 as [[-> ->]|[[-> ->]|[_ He']]];
      done.
Qed.

(** C4 at [service_config]: HOST is required and has no source, the flag
    of PORT is not an integer, NAME resolves to its default. *)
Lemma process_collects_all_errors_witness :
  ∃ cP errs h' c',
    entryConfig service_world (range_of_map service_config) service_config = inr cP
    ∧ Process service_world (range_of_map service_config) ∅ service_config
      = Returned errs h' c'
    ∧ errs = omap (error_record service_world cP) (resolve_order (range_of_map service_config))
    ∧ ∀ k def,
        definitions service_config !! k = Some def →
        filter (λ e, Key e = k) errs = option_list (error_record service_world cP (k, def))
        ∧ (error_record service_world cP (k, def) = None → is_Some (values c' !! k))
        ∧ (required def = true →
           defaultValue def = None →
           getFileValue service_config k = None →
           envVar def = "" ∨ Getenv service_world (envVar def) = "" →
           flag def = "" ∨ flagString cP k = "" →
           error_record service_world cP (k, def)
           = Some (mkConfigError k "none" ""
                     ("required value not provided (set in file, " +:+ envVar def
                      +:+ " or --" +:+ flag def +:+ ")"))).
Proof.
  apply (process_collects_all_errors service_world (range_of_map service_config) ∅
           service_config).
  - apply range_of_map_ranges.
  - exact service_registrable.
Defined.

(** The two errors of that run, in the order of the range. *)
Lemma service_run_errors `{Ext : External} :
  errors_of (Process service_world (range_of_map service_config) ∅ service_config)
  = [mkConfigError "HOST" "none" ""
       "required value not provided (set in file, HOST or --host)";
     mkConfigError "PORT" "flag" "abc" "invalid int64: abc"].
Proof. by vm_compute. Qed.

(** ** A default and its validations *)

Definition stage_definition : Definition_ :=
  Builder.OneOf ["dev"; "prod"]
    (Builder.Default (Some (VString "staging"))
       (Builder.Required (Builder.Env "STAGE" (Builder.String_ (newDefinition "STAGE"))))).

Definition stage_config : Config :=
  Define "STAGE"
    (fun d => Builder.OneOf ["dev"; "prod"]
                (Builder.Default (Some (VString "staging"))
                   (Builder.Required (Builder.Env "STAGE" (Builder.String_ d)))))
    (New (mkWorld ∅ "app" [])).

(** C6 at STAGE, whose default is none of the allowed values. *)
Lemma default_is_validated_without_required_witness :
  ∃ err,
    resolveValueWithFiles (mkWorld ∅ "app" []) stage_config "STAGE" stage_definition
    = (Some (VString "staging"), "default", err)
    ∧ (err = None ↔
       ∀ r, r ∈ validations stage_definition → Name r ≠ "required" →
            Check r (Some (VString "staging")) = None)
    ∧ ∀ e,
        err = Some e ↔
        ∃ pre r post,
          validations stage_definition = pre ++ r :: post
          ∧ Name r ≠ "required"
          ∧ Check r (Some (VString "staging")) = Some e
          ∧ ∀ r', r' ∈ pre → Name r' ≠ "required" →
                  Check r' (Some (VString "staging")) = None.
Proof.
  apply (default_is_validated_without_required (mkWorld ∅ "app" []) stage_config "STAGE"
           stage_definition (VString "staging")).
  - reflexivity.
  - intros fv Hfv. discriminate Hfv.
  - right; reflexivity.
  - left; reflexivity.
Defined.

(** ** A configuration file *)

Definition file_world : World := mkWorld (<["PORT" := "3000"]> ∅) "app" [].

Definition file_port_definition : Definition_ :=
  Builder.Env "PORT" (Builder.Int64 (newDefinition "PORT")).

Definition file_config (fv : FileValue) : Config :=
  mergeFileData (<["PORT" := fv]> ∅)
    (Define "PORT" (fun d => Builder.Env "PORT" (Builder.Int64 d)) (New file_world)).

(** The amended C5 at a file that gives PORT the integer 8080. *)
Lemma file_value_wins_witness :
  resolveValueWithFiles file_world (file_config (FInt 8080)) "PORT" file_port_definition
  = (Some (VInt64 8080), "file", None).
Proof.
  apply (file_value_wins file_world (file_config (FInt 8080)) "PORT" file_port_definition
           (FInt 8080) "8080").
  - reflexivity.
  - reflexivity.
  - discriminate.
Defined.

Lemma empty_file_value_any_external `{Ext : External} :
  getFileValue (file_config (FString "")) "PORT" = Some (FString "")
  ∧ Getenv file_world "PORT" = "3000"
  ∧ resolveValueWithFiles file_world (file_config (FString "")) "PORT" file_port_definition
    = (Some (VInt64 3000), "env", None).
Proof. by vm_compute. Qed.

(** C5 fails as stated: the file holds the key PORT, with the empty string,
    and the value comes from the environment. *)
Lemma file_value_counterexample :
  getFileValue (file_config (FString "")) "PORT" = Some (FString "")
  ∧ Getenv file_world "PORT" = "3000"
  ∧ resolveValueWithFiles file_world (file_config (FString "")) "PORT" file_port_definition
    = (Some (VInt64 3000), "env", None).
Proof. apply empty_file_value_any_external. Qed.

(** ** Durations in days *)

(** The amended C7 at two and a half days. *)
Lemma day_suffix_rounds_to_whole_hours_witness :
  parseValue "2.5d" TypeDuration "," = (Some (VDuration (60 * Time.Hour)), None)
  ∧ parseValue "1h30m" TypeDuration "," = (Some (VDuration (90 * Time.Minute)), None)
  ∧ parseValue "7d" TypeDuration "," = (Some (VDuration (168 * Time.Hour)), None)
  ∧ parseValue "1.5d" TypeDuration "," = (Some (VDuration (36 * Time.Hour)), None)
  ∧ parseValue "0.1d" TypeDuration "," = (Some (VDuration (2 * Time.Hour)), None).
Proof.
  apply (day_suffix_rounds_to_whole_hours "2.5" (S754_finite false 5629499534213120 (-51))
           60 ",").
  - reflexivity.
  - reflexivity.
  - lia.
Defined.

Lemma tenth_of_a_day_any_external `{Ext : External} :
  parseValue "0.1d" TypeDuration "," = (Some (VDuration 7200000000000), None)
  ∧ (24 * Time.Hour = 10 * 8640000000000)%Z
  ∧ (7200000000000 < 8640000000000)%Z.
Proof. by vm_compute. Qed.

(** C7 fails as stated: a tenth of a day is 2.4 hours, 8640000000000
    nanoseconds, and "0.1d" parses to two hours, 7200000000000. *)
Lemma day_suffix_counterexample :
  parseValue "0.1d" TypeDuration "," = (Some (VDuration 7200000000000), None)
  ∧ (24 * Time.Hour = 10 * 8640000000000)%Z
  ∧ (7200000000000 < 8640000000000)%Z.
Proof. apply tenth_of_a_day_any_external. Qed.

(** ** Further runs *)

Definition service_run : Outcome :=
  Process service_world (range_of_map service_config) ∅ service_config.

Lemma service_run_returns :
  service_run
  = Returned (errors_of service_run) (heap_of service_run)
             (config_of service_world service_run).
Proof. by vm_compute. Qed.

Definition host_error : ConfigError :=
  mkConfigError "HOST" "none" "" "required value not provided (set in file, HOST or --host)".

(** X5 at the required key HOST of [service_config], which has no source. *)
Lemma failed_key_has_no_entry_witness :
  is_Some (definitions (config_of service_world service_run) !! "HOST")
  ∧ values (config_of service_world service_run) !! "HOST" = None
  ∧ GetSecret (config_of service_world service_run) "HOST" = FreshEmpty
  ∧ Has (config_of service_world service_run) "HOST" = false
  ∧ (∀ T d, GetOr T (config_of service_world service_run) "HOST" d = d)
  ∧ (∀ T, Get T (config_of service_world service_run) "HOST"
          = GetPanic "commandkit: key 'HOST' not found (did you define it?)").
Proof.
  apply (failed_key_has_no_entry service_world (range_of_map service_config) ∅
           service_config (errors_of service_run) (heap_of service_run)
           (config_of service_world service_run) host_error).
  - apply range_of_map_ranges.
  - apply new_is_initial; reflexivity.
  - exact service_run_returns.
  - apply list_elem_of_In. vm_compute. left. reflexivity.
Defined.


Definition environment_world : World := mkWorld (<["PORT" := "3000"]> ∅) "app" [].

Definition environment_config : Config :=
  Define "PORT" (fun d => Builder.Env "PORT" (Builder.Int64 d)) (New environment_world).

(** X8 at the key PORT, an Int64 set to 3000 in the environment. *)
Lemma environment_value_is_read_with_its_type_witness :
  ∃ errs h' c',
    Process environment_world (range_of_map environment_config) ∅ environment_config
    = Returned errs h' c'
    ∧ values c' !! "PORT" = Some (Some (VInt64 3000))
    ∧ Has c' "PORT" = true
    ∧ Get TAny c' "PORT" = GetValue (VInt64 3000)
    ∧ (∀ d, GetOr TAny c' "PORT" d = Some (VInt64 3000))
    ∧ ∃ getter, getter_of TypeInt64 = Some getter ∧ getter c' "PORT" = GetValue (VInt64 3000).
Proof.
  apply (environment_value_is_read_with_its_type environment_world
           (range_of_map environment_config) ∅ environment_config
           (entry_of environment_world environment_config) "PORT" file_port_definition
           "3000" (VInt64 3000)).
  - apply range_of_map_ranges.
  - by vm_compute.
  - reflexivity.
  - reflexivity.
  - reflexivity.
  - discriminate.
  - reflexivity.
  - discriminate.
  - by vm_compute.
  - reflexivity.
Defined.

Definition default_world : World := mkWorld ∅ "app" [].




(** X12 at a file that gives PORT the integer 8080. *)
Lemma file_scalar_is_read_back_witness :
  (∀ n, (FInt 8080 = FInt n ∨ FInt 8080 = FInt64 n) →
        valueType file_port_definition = TypeInt64 →
        (- 2 ^ 63 ≤ n < 2 ^ 63)%Z →
        resolveValueWithFiles file_world (file_config (FInt 8080)) "PORT" file_port_definition
        = (Some (VInt64 n), "file",
           runValidations (validations file_port_definition) (Some (VInt64 n))))
  ∧ (∀ b, FInt 8080 = FBool b → valueType file_port_definition = TypeBool →
          resolveValueWithFiles file_world (file_config (FInt 8080)) "PORT"
            file_port_definition
          = (Some (VBool b), "file",
             runValidations (validations file_port_definition) (Some (VBool b))))
  ∧ (∀ s, FInt 8080 = FString s → valueType file_port_definition = TypeString → s ≠ "" →
          resolveValueWithFiles file_world (file_config (FInt 8080)) "PORT"
            file_port_definition
          = (Some (VString s), "file",
             runValidations (validations file_port_definition) (Some (VString s)))).
Proof.
  apply (file_scalar_is_read_back file_world (file_config (FInt 8080)) "PORT"
           file_port_definition (FInt 8080)).
  reflexivity.
Defined.

Definition base_file : gmap string FileValue :=
  <["PORT" := FInt 8080]> (<["HOST" := FString "localhost"]> ∅).

Definition local_file : gmap string FileValue := <["PORT" := FInt 9090]> ∅.

(** X14 at two files that both give PORT. *)
Lemma later_file_wins_witness :
  (∀ v, local_file !! "PORT" = Some v →
        getFileValue (mergeFileData local_file (mergeFileData base_file (New file_world)))
          "PORT" = Some v)
  ∧ (∀ v, local_file !! "PORT" = None → base_file !! "PORT" = Some v →
          getFileValue (mergeFileData local_file (mergeFileData base_file (New file_world)))
            "PORT" = Some v)
  ∧ (local_file !! "PORT" = None → base_file !! "PORT" = None →
     getFileValue (mergeFileData local_file (mergeFileData base_file (New file_world)))
       "PORT" = (local_file ∪ base_file) !! ToLower "PORT")
  ∧ (∀ env e1 e2, base_file !! "environments" = Some (FMap e1) →
       local_file !! "environments" = Some (FMap e2) → e2 !! env = None →
       getFileValue
         (SetEnvironment env
            (mergeFileData local_file (mergeFileData base_file (New file_world)))).2 "PORT"
       = getFileValue (mergeFileData local_file (mergeFileData base_file (New file_world)))
           "PORT").
Proof.
  apply (later_file_wins (New file_world) base_file local_file "PORT").
  reflexivity.
Defined.

Definition server_command : Cmd.Command unit unit :=
  Cmd.mkCommand "server" None "Start the server" "" ["srv"; "s"] ∅ ∅ [].

Definition start_command : Cmd.Command unit unit :=
  Cmd.AddSubCommand (Cmd.NewCommand "start") "server" server_command.

(** X21 at the alias [srv] of the subcommand [server]. *)
Lemma FindSubCommand_name_before_alias_witness :
  (∀ sub, Cmd.SubCommands start_command !! "srv" = Some sub →
          Cmd.FindSubCommand start_command (map_to_list (Cmd.SubCommands start_command))
            "srv" = Some sub)
  ∧ (Cmd.FindSubCommand start_command (map_to_list (Cmd.SubCommands start_command)) "srv"
     = None
     ↔ Cmd.SubCommands start_command !! "srv" = None
       ∧ ∀ n sub, Cmd.SubCommands start_command !! n = Some sub → "srv" ∉ Cmd.Aliases sub)
  ∧ (∀ sub, Cmd.FindSubCommand start_command
              (map_to_list (Cmd.SubCommands start_command)) "srv" = Some sub →
       ∃ n, Cmd.SubCommands start_command !! n = Some sub
            ∧ (n = "srv" ∨ "srv" ∈ Cmd.Aliases sub))
  ∧ (∀ sub order', Cmd.FindSubCommand (Cmd.AddSubCommand start_command "srv" sub) order'
                     "srv" = Some sub).
Proof.
  apply (FindSubCommand_name_before_alias start_command
           (map_to_list (Cmd.SubCommands start_command)) "srv").
  reflexivity.
Defined.

Lemma alias_finds_server `{Ext : External} :
  Cmd.FindSubCommand start_command (map_to_list (Cmd.SubCommands start_command)) "srv"
  = Some server_command.
Proof. by vm_compute. Qed.

(** X23 at the secret key API_KEY after the run of [secret_config]. *)
Lemma Dump_after_Process_witness :
  (is_Some (Dump (heap_of secret_run) (config_of secret_world secret_run) !! "API_KEY")
   ↔ is_Some (definitions secret_config !! "API_KEY"))
  ∧ (∀ def, definitions secret_config !! "API_KEY" = Some def → secret def = true →
       Dump (heap_of secret_run) (config_of secret_world secret_run) !! "API_KEY"
       = Some (if Secret_IsSet (load (heap_of secret_run)
                                  (GetSecret (config_of secret_world secret_run) "API_KEY"))
               then "[SECRET:"
                    +:+ Strconv.Itoa
                          (Secret_Size
                             (load (heap_of secret_run)
                                (GetSecret (config_of secret_world secret_run) "API_KEY")))
                    +:+ " bytes]"
               else "[SECRET:not set]"))
  ∧ (∀ e, e ∈ @nil ConfigError → Key e = "API_KEY" →
       Dump (heap_of secret_run) (config_of secret_world secret_run) !! "API_KEY"
       = Some "[not set]"
       ∨ Dump (heap_of secret_run) (config_of secret_world secret_run) !! "API_KEY"
         = Some "[SECRET:not set]")
  ∧ (∀ def, definitions secret_config !! "API_KEY" = Some def → secret def = false →
       Dump (heap_of secret_run) (config_of secret_world secret_run) !! "API_KEY"
       = Some (match values (config_of secret_world secret_run) !! "API_KEY" with
               | Some (Some v) => Sprint (Some v)
               | _ => "[not set]"
               end)).
Proof.
  apply (Dump_after_Process secret_world (range_of_map secret_config) ∅ secret_config []
           (heap_of secret_run) (config_of secret_world secret_run) "API_KEY").
  - apply range_of_map_ranges.
  - apply new_is_initial; reflexivity.
  - exact secret_run_returns.
Defined.

Lemma dump_of_the_secret_run `{Ext : External} :
  let o := Process secret_world (range_of_map secret_config) ∅ secret_config in
  Dump (heap_of o) (config_of secret_world o) !! "API_KEY" = Some "[SECRET:10 bytes]"
  ∧ Dump (heap_of o) (config_of secret_world o) !! "OPT" = Some "[not set]".
Proof. by vm_compute. Qed.

Definition port_run : Outcome :=
  Process port_world (range_of_map port_config) ∅ port_config.

Lemma port_run_returns :
  port_run = Returned [] (heap_of port_run) (config_of port_world port_run).
Proof. by vm_compute. Qed.

(** X25 at the run of [port_config], which finds one warning. *)
Lemma warnings_survive_a_clean_run_witness :
  overrideWarnings (config_of port_world port_run)
  = match checkSourceOverrides port_world (config_of port_world port_run)
            (override_order (range_of_map port_config)) with
    | [] => overrideWarnings port_config
    | found => found
    end.
Proof.
  apply (warnings_survive_a_clean_run port_world (range_of_map port_config) ∅ port_config []
           (heap_of port_run)).
  - apply range_of_map_ranges.
  - exact port_run_returns.
Defined.

(** X26 at the string of two delimiters and a space. *)
Lemma blank_list_is_empty_not_nil_witness :
  parseValue ", ," TypeStringSlice "," = (Some (VStringSlice []), None)
  ∧ Check validateRequired (Some (VStringSlice [])) = None
  ∧ ((0 < 1)%Z → is_Some (Check (validateMinItems 1) (Some (VStringSlice [])))).
Proof.
  apply (blank_list_is_empty_not_nil ", ," "," 1).
  - discriminate.
  - intros p Hp. apply list_elem_of_In in Hp. vm_compute in Hp.
    destruct Hp as [<-|[<-|[<-|[]]]]; reflexivity.
Defined.

(** X27 at the two strings [a] and [b] joined by a comma. *)
Lemma joined_strings_parse_back_witness :
  parseValue (Strings.Join ["a"; "b"] ",") TypeStringSlice ","
  = (Some (VStringSlice ["a"; "b"]), None).
Proof.
  apply (joined_strings_parse_back ","%char ["a"; "b"]).
  - done.
  - intros p Hp. apply elem_of_cons in Hp as [->|Hp]; [by vm_compute|].
    apply elem_of_cons in Hp as [->|Hp]; [by vm_compute|]. by inversion Hp.
Defined.

Definition ids_definition : Definition_ := Builder.Int64Slice (newDefinition "IDS").

Definition ids_config : Config :=
  mergeFileData (<["IDS" := FSlice [FInt 1; FInt 2; FInt 3]]> ∅)
    (Define "IDS" Builder.Int64Slice (New default_world)).

(** X28 at a file that gives IDS the integers 1, 2 and 3. *)
Lemma file_integer_list_is_read_back_witness :
  resolveValueWithFiles default_world ids_config "IDS" ids_definition
  = (Some (VInt64Slice [1; 2; 3]%Z), "file",
     runValidations (validations ids_definition) (Some (VInt64Slice [1; 2; 3]%Z))).
Proof.
  apply (file_integer_list_is_read_back default_world ids_config "IDS" ids_definition
           [1; 2; 3]%Z).
  - reflexivity.
  - reflexivity.
  - reflexivity.
  - done.
  - repeat constructor; lia.
Defined.


Definition first_store : gmap addr Secret * gmap string addr :=
  SecretStore_Store ∅ ∅ "TOKEN" "old".

Definition second_store : gmap addr Secret * gmap string addr :=
  SecretStore_Store first_store.1 first_store.2 "TOKEN" "new".

(** X30 at an empty store that is given TOKEN twice. *)
Lemma overwritten_secret_is_not_wiped_witness :
  Secret_String (load second_store.1 (SecretStore_Get first_store.2 "TOKEN")) = "old"
  ∧ Secret_String
      (load (SecretStore_DestroyAll second_store.1 second_store.2).1
         (SecretStore_Get first_store.2 "TOKEN")) = "old"
  ∧ Secret_String
      (load (SecretStore_DestroyAll second_store.1 second_store.2).1
         (SecretStore_Get second_store.2 "TOKEN")) = "".
Proof.
  apply (overwritten_secret_is_not_wiped ∅ ∅ "TOKEN" "old" "new").
  intros k' a Hk'. by rewrite lookup_empty in Hk'.
Defined.
